(** * chrome-trace-event: the Tracer, its field sets and its array framing

    A shallow embedding of the two variants of the Tracer kept in the
    repository:
    - the TypeScript one (buffered mode, [flush], separator written
      before every event but the first), in [Module TraceEvent];
    - the older [lib/trace-event.js] (the Tracer's field set copied into
      every event, separator written after every event), in
      [Module Legacy];
    and, for the one-level copy [Object.assign] makes of a field set,
    field sets whose entries refer to shared objects, in [Module Nested].

    The host language is modelled as far as the Tracer uses it: dynamic
    values, property lists in enumeration order, [typeof], truthiness,
    [Array.prototype.join], [Object.assign], [JSON.stringify], bound
    functions and the buffer of a readable stream. *)

From Stdlib Require Import ZArith Ascii String List Lia Bool.
From Stdlib Require Import DecimalString DecimalZ DecimalPos.
From stdpp Require Import base option list strings.

Local Open Scope string_scope.
Local Open Scope list_scope.

(** ** Values of the host language *)

Module JS.

(** A value as the Tracer can meet one.  An object is its list of own
    enumerable properties in the order [Object.keys] gives them (insertion
    order, for names that are not array indices).  Numbers are integers:
    the Tracer computes with microsecond counts and process ids only, and
    the host's arithmetic and printing of them is the integers' as long as
    they stay below 2^53. *)
#[local] Unset Elimination Schemes.
Inductive value : Type :=
| VUndef
| VNull
| VBool (b : bool)
| VNum (n : Z)
| VStr (s : string)
| VArr (l : list value)
| VObj (o : list (string * value)).
#[local] Set Elimination Schemes.

Definition props := list (string * value).

(** Induction over values that reaches inside arrays and objects. *)
Section value_induction.
Variable P : value -> Prop.
Hypothesis Hundef : P VUndef.
Hypothesis Hnull : P VNull.
Hypothesis Hbool : forall b, P (VBool b).
Hypothesis Hnum : forall n, P (VNum n).
Hypothesis Hstr : forall s, P (VStr s).
Hypothesis Harr : forall l, Forall P l -> P (VArr l).
Hypothesis Hobj : forall o, Forall (fun kv => P (snd kv)) o -> P (VObj o).

Fixpoint value_ind' (v : value) : P v :=
  match v with
  | VUndef => Hundef
  | VNull => Hnull
  | VBool b => Hbool b
  | VNum n => Hnum n
  | VStr s => Hstr s
  | VArr l =>
      Harr l ((fix go (l : list value) : Forall P l :=
                 match l with
                 | [] => @List.Forall_nil value P
                 | x :: r => @List.Forall_cons value P x r (value_ind' x) (go r)
                 end) l)
  | VObj o =>
      Hobj o ((fix go (o : props) : Forall (fun kv => P (snd kv)) o :=
                 match o with
                 | [] => @List.Forall_nil _ _
                 | kv :: r => @List.Forall_cons _ _ kv r (value_ind' (snd kv)) (go r)
                 end) o)
  end.
End value_induction.

(** What a call can throw. *)
Inductive error : Type :=
| ConfigError (msg : string)   (* [throw new Error(msg)] of the constructor *)
| AssertionError (arg : string) (* a failed check of the assert-plus library *)
| TypeError.                   (* raised by the host: property of null, call of a non-function *)

Inductive result (A : Type) : Type :=
| Ok (a : A)
| Throw (e : error).
Arguments Ok {A} a.
Arguments Throw {A} e.

#[global] Instance result_ret : MRet result := fun A a => Ok a.
#[global] Instance result_bind : MBind result := fun A B k r =>
  match r with
  | Ok a => k a
  | Throw e => Throw e
  end.

(** [typeof v] *)
Definition typeof (v : value) : string :=
  match v with
  | VUndef => "undefined"
  | VNull => "object"
  | VBool _ => "boolean"
  | VNum _ => "number"
  | VStr _ => "string"
  | VArr _ => "object"
  | VObj _ => "object"
  end.

(** [Boolean(v)], the test of [if (v)] and [!v] *)
Definition truthy (v : value) : bool :=
  match v with
  | VUndef | VNull => false
  | VBool b => b
  | VNum n => negb (Z.eqb n 0%Z)
  | VStr s => negb (String.eqb s "")
  | VArr _ | VObj _ => true
  end.

(** [v != null]: neither [null] nor [undefined] *)
Definition not_nullish (v : value) : bool :=
  match v with
  | VUndef | VNull => false
  | _ => true
  end.

Definition isArray (v : value) : bool :=
  match v with
  | VArr _ => true
  | _ => false
  end.

(** Decimal text of an integer, as [String(n)] gives it. *)
Definition string_of_Z (n : Z) : string :=
  NilZero.string_of_int (Z.to_int n).

Definition string_of_nat (n : nat) : string :=
  string_of_Z (Z.of_nat n).

(** [sep]-separated concatenation. *)
Fixpoint concat_sep (sep : string) (l : list string) : string :=
  match l with
  | [] => ""
  | [s] => s
  | s :: r => s +:+ sep +:+ concat_sep sep r
  end.

(** [String(v)], as [join] applies it to the elements of an array;
    [null] and [undefined] elements give the empty string there. *)
Fixpoint to_string (v : value) : string :=
  match v with
  | VUndef => "undefined"
  | VNull => "null"
  | VBool true => "true"
  | VBool false => "false"
  | VNum n => string_of_Z n
  | VStr s => s
  | VArr l =>
      concat_sep ","
        ((fix go (l : list value) : list string :=
            match l with
            | [] => []
            | x :: r =>
                (match x with
                 | VUndef | VNull => ""
                 | _ => to_string x
                 end) :: go r
            end) l)
  | VObj _ => "[object Object]"
  end.

Definition join_elem (x : value) : string :=
  match x with
  | VUndef | VNull => ""
  | _ => to_string x
  end.

(** [l.join(sep)] for an array [l] *)
Definition array_join (l : list value) (sep : string) : string :=
  concat_sep sep (map join_elem l).

(** [v.join(sep)]: only arrays have the method. *)
Definition join (v : value) (sep : string) : result value :=
  match v with
  | VArr l => Ok (VStr (array_join l sep))
  | _ => Throw TypeError
  end.

(** *** Property lists *)

Fixpoint lookup_prop (k : string) (o : props) : option value :=
  match o with
  | [] => None
  | (k', v) :: r => if String.eqb k k' then Some v else lookup_prop k r
  end.

(** [o[k]] on a property list; [undefined] when absent *)
Definition get (o : props) (k : string) : value :=
  match lookup_prop k o with
  | Some v => v
  | None => VUndef
  end.

(** [o[k] = v]: overwrites in place, or appends a new last property *)
Fixpoint set (o : props) (k : string) (v : value) : props :=
  match o with
  | [] => [(k, v)]
  | (k', v') :: r =>
      if String.eqb k k' then (k', v) :: r else (k', v') :: set r k v
  end.

Definition has (o : props) (k : string) : bool :=
  match lookup_prop k o with
  | Some _ => true
  | None => false
  end.

(** [o[k] = v] for a key [k] computed at run time, on an object made by
    an object literal.  The key [__proto__] is no own property there: the
    assignment runs the prototype setter and creates none.  (The prototype
    it installs is not kept: the own properties are.) *)
Definition put (o : props) (k : string) (v : value) : props :=
  if String.eqb k "__proto__" then o else set o k v.

(** The characters of a string, as one-character strings. *)
Fixpoint chars (s : string) : list value :=
  match s with
  | EmptyString => []
  | String c r => VStr (String c EmptyString) :: chars r
  end.

Fixpoint indexed (i : nat) (l : list value) : props :=
  match l with
  | [] => []
  | x :: r => (string_of_nat i, x) :: indexed (S i) r
  end.

(** Own enumerable properties of a value: what [Object.keys] lists and
    [Object.assign] copies from. *)
Definition own_props (v : value) : props :=
  match v with
  | VObj o => o
  | VArr l => indexed 0 l
  | VStr s => indexed 0 (chars s)
  | _ => []
  end.

Definition keys (v : value) : list string := map fst (own_props v).

(** [v[k]] for a key [k] that is not a method name *)
Definition get_prop (v : value) (k : string) : value := get (own_props v) k.

(** [Object.assign(target, source)]: every own property of [source] is
    set on [target], in order; a nullish source gives nothing.  This is
    the merge for a source without an own key [__proto__] (which only
    [JSON.parse], a computed key or [Object.defineProperty] make); with
    such a key the host would change the prototype of [target], which the
    property lists do not hold.  The own properties of other names are as
    given here; the theorems that state the [cat] and the [args] a merge
    ends with, or the members of what was merged, take a source without
    that key. *)
Definition assign (target : props) (source : value) : props :=
  fold_left (fun t kv => set t (fst kv) (snd kv)) (own_props source) target.

End JS.

(** ** JSON text *)

Module Json.
Import JS.

Definition dquote : ascii := ascii_of_nat 34.
Definition backslash : ascii := ascii_of_nat 92.

Definition hex_digit (n : nat) : ascii :=
  ascii_of_nat (if Nat.ltb n 10 then 48 + n else 87 + n)%nat.

(** One character inside a quoted string, as [JSON.stringify] writes it:
    the two-character escapes, [\u00xx] for the other control
    characters, anything else as it is. *)
Definition quote_char (c : ascii) : string :=
  let n := nat_of_ascii c in
  if Nat.eqb n 8 then "\b"
  else if Nat.eqb n 9 then "\t"
  else if Nat.eqb n 10 then "\n"
  else if Nat.eqb n 12 then "\f"
  else if Nat.eqb n 13 then "\r"
  else if Nat.eqb n 34 then String backslash (String dquote "")
  else if Nat.eqb n 92 then String backslash (String backslash "")
  else if Nat.ltb n 32 then
    "\u00" +:+ String (hex_digit (n / 16)) (String (hex_digit (n mod 16)) "")
  else String c "".

Fixpoint quote_body (s : string) : string :=
  match s with
  | EmptyString => ""
  | String c r => quote_char c +:+ quote_body r
  end.

Definition quote (s : string) : string :=
  String dquote (quote_body s +:+ String dquote "").

(** [JSON.stringify] on a value: [None] is its [undefined] result.  A
    property whose value gives [undefined] is left out of an object; an
    array element that does is written [null]. *)
Fixpoint serialize (v : value) : option string :=
  match v with
  | VUndef => None
  | VNull => Some "null"
  | VBool true => Some "true"
  | VBool false => Some "false"
  | VNum n => Some (string_of_Z n)
  | VStr s => Some (quote s)
  | VArr l =>
      Some ("[" +:+
            concat_sep ","
              ((fix items (l : list value) : list string :=
                  match l with
                  | [] => []
                  | x :: r =>
                      (match serialize x with
                       | Some s => s
                       | None => "null"
                       end) :: items r
                  end) l) +:+ "]")
  | VObj o =>
      Some ("{" +:+
            concat_sep ","
              ((fix members (o : props) : list string :=
                  match o with
                  | [] => []
                  | (k, x) :: r =>
                      match serialize x with
                      | Some s => (quote k +:+ ":" +:+ s) :: members r
                      | None => members r
                      end
                  end) o) +:+ "}")
  end.

(** [JSON.stringify(ev)] for an event object [ev]: always a string. *)
Definition stringify (ev : props) : string :=
  match serialize (VObj ev) with
  | Some s => s
  | None => ""
  end.

(** *** Reading JSON text back

    A reader for the JSON grammar of RFC 8259, over the values above:
    members of an object are kept in the order of the text, and a number
    is read when it is an integer (the Tracer writes no other). *)

Definition is_ws (c : ascii) : bool :=
  let n := nat_of_ascii c in
  Nat.eqb n 32 || Nat.eqb n 9 || Nat.eqb n 10 || Nat.eqb n 13.

Fixpoint skip_ws (s : string) : string :=
  match s with
  | EmptyString => ""
  | String c r => if is_ws c then skip_ws r else s
  end.

Definition is_digit (c : ascii) : bool :=
  let n := nat_of_ascii c in
  Nat.leb 48 n && Nat.leb n 57.

Fixpoint span_digits (s : string) : string * string :=
  match s with
  | EmptyString => ("", "")
  | String c r =>
      if is_digit c then
        let '(ds, rest) := span_digits r in (String c ds, rest)
      else ("", s)
  end.

Definition minus : ascii := ascii_of_nat 45.

(** An integer token in the only spelling JSON allows (no leading
    zero), which is the one [string_of_Z] writes; [-0] is the one number
    with two spellings. *)
Definition number_of_token (tok : string) : option Z :=
  match NilZero.int_of_string tok with
  | Some d =>
      let z := Z.of_int d in
      if String.eqb (string_of_Z z) tok || String.eqb tok "-0"
      then Some z else None
  | None => None
  end.

(** An integer: an optional sign, then the digits that follow. *)
Definition read_number (s : string) : option (Z * string) :=
  let '(sign, body) :=
    match s with
    | String c r => if Ascii.eqb c minus then (String minus "", r) else ("", s)
    | EmptyString => ("", s)
    end in
  let '(ds, rest) := span_digits body in
  match number_of_token (sign +:+ ds) with
  | Some z => Some (z, rest)
  | None => None
  end.

Definition hex_value (c : ascii) : option nat :=
  let n := nat_of_ascii c in
  if Nat.leb 48 n && Nat.leb n 57 then Some (n - 48)%nat
  else if Nat.leb 97 n && Nat.leb n 102 then Some (n - 87)%nat
  else if Nat.leb 65 n && Nat.leb n 70 then Some (n - 55)%nat
  else None.

(** The bytes (UTF-8) of the character a [\u] escape names. *)
Definition utf8 (code : nat) : string :=
  if Nat.ltb code 128 then String (ascii_of_nat code) ""
  else if Nat.ltb code 2048 then
    String (ascii_of_nat (192 + code / 64))
      (String (ascii_of_nat (128 + code mod 64)) "")
  else
    String (ascii_of_nat (224 + code / 4096))
      (String (ascii_of_nat (128 + (code / 64) mod 64))
         (String (ascii_of_nat (128 + code mod 64)) "")).

Definition unescape (c : ascii) : option ascii :=
  let n := nat_of_ascii c in
  if Nat.eqb n 34 then Some dquote
  else if Nat.eqb n 92 then Some backslash
  else if Nat.eqb n 47 then Some (ascii_of_nat 47)
  else if Nat.eqb n 98 then Some (ascii_of_nat 8)
  else if Nat.eqb n 102 then Some (ascii_of_nat 12)
  else if Nat.eqb n 110 then Some (ascii_of_nat 10)
  else if Nat.eqb n 114 then Some (ascii_of_nat 13)
  else if Nat.eqb n 116 then Some (ascii_of_nat 9)
  else None.

(** The rest of a string after its opening quote: its characters and
    what follows the closing quote. *)
Fixpoint read_string (s : string) : option (string * string) :=
  match s with
  | EmptyString => None
  | String c r =>
      if Ascii.eqb c dquote then Some ("", r)
      else if Ascii.eqb c backslash then
        match r with
        | EmptyString => None
        | String e r1 =>
            if Ascii.eqb e (ascii_of_nat 117) then
              match r1 with
              | String a (String b (String x (String y r2))) =>
                  match hex_value a, hex_value b, hex_value x, hex_value y,
                        read_string r2 with
                  | Some a', Some b', Some x', Some y', Some (body, rest) =>
                      Some (utf8 (((a' * 16 + b') * 16 + x') * 16 + y')
                              +:+ body, rest)
                  | _, _, _, _, _ => None
                  end
              | _ => None
              end
            else
              match unescape e, read_string r1 with
              | Some c', Some (body, rest) => Some (String c' body, rest)
              | _, _ => None
              end
        end
      else if Nat.ltb (nat_of_ascii c) 32 then None
      else
        match read_string r with
        | Some (body, rest) => Some (String c body, rest)
        | None => None
        end
  end.

Fixpoint strip_prefix (p s : string) : option string :=
  match p, s with
  | EmptyString, _ => Some s
  | String a p', String b s' => if Ascii.eqb a b then strip_prefix p' s' else None
  | String _ _, EmptyString => None
  end.

(** A value, then the elements of an array after its first, then the
    members of an object after its first; the fuel bounds the depth of
    the calls. *)
Fixpoint read_value (fuel : nat) (s : string) : option (value * string) :=
  match fuel with
  | O => None
  | S fuel =>
      match skip_ws s with
      | EmptyString => None
      | String c r =>
          let n := nat_of_ascii c in
          if Nat.eqb n 110 then
            match strip_prefix "ull" r with
            | Some rest => Some (VNull, rest)
            | None => None
            end
          else if Nat.eqb n 116 then
            match strip_prefix "rue" r with
            | Some rest => Some (VBool true, rest)
            | None => None
            end
          else if Nat.eqb n 102 then
            match strip_prefix "alse" r with
            | Some rest => Some (VBool false, rest)
            | None => None
            end
          else if Nat.eqb n 34 then
            match read_string r with
            | Some (body, rest) => Some (VStr body, rest)
            | None => None
            end
          else if Nat.eqb n 91 then
            match skip_ws r with
            | String c' r' =>
                if Nat.eqb (nat_of_ascii c') 93 then Some (VArr [], r')
                else
                  match read_value fuel r with
                  | Some (v, r1) =>
                      match read_elements fuel r1 with
                      | Some (vs, rest) => Some (VArr (v :: vs), rest)
                      | None => None
                      end
                  | None => None
                  end
            | EmptyString => None
            end
          else if Nat.eqb n 123 then
            match skip_ws r with
            | String c' r' =>
                if Nat.eqb (nat_of_ascii c') 125 then Some (VObj [], r')
                else
                  match read_member fuel r with
                  | Some (kv, r1) =>
                      match read_members fuel r1 with
                      | Some (kvs, rest) => Some (VObj (kv :: kvs), rest)
                      | None => None
                      end
                  | None => None
                  end
            | EmptyString => None
            end
          else
            match read_number (String c r) with
            | Some (z, rest) => Some (VNum z, rest)
            | None => None
            end
      end
  end
with read_elements (fuel : nat) (s : string) : option (list value * string) :=
  match fuel with
  | O => None
  | S fuel =>
      match skip_ws s with
      | String c r =>
          if Nat.eqb (nat_of_ascii c) 93 then Some ([], r)
          else if Nat.eqb (nat_of_ascii c) 44 then
            match read_value fuel r with
            | Some (v, r1) =>
                match read_elements fuel r1 with
                | Some (vs, rest) => Some (v :: vs, rest)
                | None => None
                end
            | None => None
            end
          else None
      | EmptyString => None
      end
  end
with read_member (fuel : nat) (s : string) : option ((string * value) * string) :=
  match fuel with
  | O => None
  | S fuel =>
      match skip_ws s with
      | String c r =>
          if Nat.eqb (nat_of_ascii c) 34 then
            match read_string r with
            | Some (k, r1) =>
                match skip_ws r1 with
                | String c' r2 =>
                    if Nat.eqb (nat_of_ascii c') 58 then
                      match read_value fuel r2 with
                      | Some (v, rest) => Some ((k, v), rest)
                      | None => None
                      end
                    else None
                | EmptyString => None
                end
            | None => None
            end
          else None
      | EmptyString => None
      end
  end
with read_members (fuel : nat) (s : string) : option (props * string) :=
  match fuel with
  | O => None
  | S fuel =>
      match skip_ws s with
      | String c r =>
          if Nat.eqb (nat_of_ascii c) 125 then Some ([], r)
          else if Nat.eqb (nat_of_ascii c) 44 then
            match read_member fuel r with
            | Some (kv, r1) =>
                match read_members fuel r1 with
                | Some (kvs, rest) => Some (kv :: kvs, rest)
                | None => None
                end
            | None => None
            end
          else None
      | EmptyString => None
      end
  end.

(** A whole text: one value, with nothing but white space around it.
    No call chain is longer than the text. *)
Definition parse (s : string) : option value :=
  match read_value (S (String.length s)) s with
  | Some (v, rest) =>
      match skip_ws rest with
      | EmptyString => Some v
      | String _ _ => None
      end
  | None => None
  end.

(** A value with a JSON text of its own: no [undefined] in it. *)
Fixpoint clean (v : value) : bool :=
  match v with
  | VUndef => false
  | VArr l =>
      (fix all (l : list value) : bool :=
         match l with
         | [] => true
         | x :: r => clean x && all r
         end) l
  | VObj o =>
      (fix all (o : props) : bool :=
         match o with
         | [] => true
         | (_, x) :: r => clean x && all r
         end) o
  | _ => true
  end.

Definition clean_event (ev : props) : bool := clean (VObj ev).

(** What [JSON.stringify] keeps of a value: a member whose value is
    [undefined] is gone, an [undefined] element of an array is [null]. *)
Fixpoint scrub (v : value) : value :=
  match v with
  | VArr l =>
      VArr ((fix go (l : list value) : list value :=
               match l with
               | [] => []
               | x :: r =>
                   (match x with
                    | VUndef => VNull
                    | _ => scrub x
                    end) :: go r
               end) l)
  | VObj o =>
      VObj ((fix go (o : props) : props :=
               match o with
               | [] => []
               | (k, x) :: r =>
                   match x with
                   | VUndef => go r
                   | _ => (k, scrub x) :: go r
                   end
               end) o)
  | _ => v
  end.

Definition scrub_element (x : value) : value :=
  match x with
  | VUndef => VNull
  | _ => scrub x
  end.

Fixpoint scrub_members (o : props) : props :=
  match o with
  | [] => []
  | (k, x) :: r =>
      match x with
      | VUndef => scrub_members r
      | _ => (k, scrub x) :: scrub_members r
      end
  end.

(** The members [serialize] writes for an object. *)
Fixpoint member_texts (o : props) : list string :=
  match o with
  | [] => []
  | (k, x) :: r =>
      match serialize x with
      | Some s => (quote k +:+ ":" +:+ s) :: member_texts r
      | None => member_texts r
      end
  end.

Definition scrub_event (ev : props) : props :=
  match scrub (VObj ev) with
  | VObj o => o
  | _ => []
  end.

(** The longest chain of reader calls the text of a value asks for. *)
Fixpoint depth (v : value) : nat :=
  match v with
  | VArr l =>
      S ((fix chain (l : list value) : nat :=
            match l with
            | [] => 0
            | x :: r => Nat.max (depth x) (S (chain r))
            end) l)
  | VObj o =>
      S ((fix chain (o : props) : nat :=
            match o with
            | [] => 0
            | (_, x) :: r => Nat.max (S (depth x)) (S (chain r))
            end) o)
  | _ => 1%nat
  end.

Fixpoint chain_elements (l : list value) : nat :=
  match l with
  | [] => 0
  | x :: r => Nat.max (depth x) (S (chain_elements r))
  end.

Fixpoint chain_members (o : props) : nat :=
  match o with
  | [] => 0
  | (_, x) :: r => Nat.max (S (depth x)) (S (chain_members r))
  end.

(** The text of an array element, and of an object member. *)
Definition element_text (v : value) : string :=
  match serialize v with
  | Some s => s
  | None => "null"
  end.

Definition member_text (kv : string * value) : string :=
  quote (fst kv) +:+ ":" +:+ element_text (snd kv).

(** Every text of [l] with [sep] before it. *)
Fixpoint sep_tail (sep : string) (l : list string) : string :=
  match l with
  | [] => ""
  | s :: r => sep +:+ s +:+ sep_tail sep r
  end.

Fixpoint all_ws (s : string) : bool :=
  match s with
  | EmptyString => true
  | String c r => is_ws c && all_ws r
  end.

(** The head of a text is not a digit: a number before it ends there. *)
Definition no_digit_head (s : string) : Prop :=
  match s with
  | EmptyString => True
  | String c _ => is_digit c = false
  end.

(** What the reader is shown to do on the text of a value [x]. *)
Definition reads_back (x : value) : Prop :=
  clean x = true ->
  forall (fuel : nat) (rest : string),
    depth x <= fuel -> no_digit_head rest ->
    read_value fuel (element_text x +:+ rest) = Some (x, rest).

(** The text is a JSON array whose elements are the objects [evs]. *)
Definition parses_as_events (s : string) (evs : list props) : Prop :=
  parse s = Some (VArr (map VObj evs)).

End Json.

(** ** The readable stream under a Tracer, clock and process identity *)

Module Host.
Import JS.

(** What [Readable.push] has been given: text fragments, or event
    objects in object mode. *)
Inductive chunk : Type :=
| ChunkStr (s : string)
| ChunkObj (ev : props).

(** One reading of [process.hrtime()] and [process.pid]. *)
Record clock : Type := Clock {
  seconds : Z;
  nanoseconds : Z;
  pid : Z
}.

(** [Math.round(x / 1000)] on an integer [x]: halves go up. *)
Definition round_div_1000 (x : Z) : Z := ((x + 500) / 1000)%Z.

(** The [ts] is written in the integers: it is the number the host
    computes on every reading [in_range]. *)
Definition evCommon (now : clock) : props :=
  let ts := (seconds now * 1000000 + round_div_1000 (nanoseconds now))%Z in
  [("ts", VNum ts); ("pid", VNum (pid now)); ("tid", VNum (pid now))].

(** The functions a Tracer keeps in [_push]: the stream's own [push],
    the Tracer's [_pushString], or one of them bound to a receiver by
    [bind]. *)
Inductive fn : Type :=
| FnPush
| FnPushString
| FnBound (f : fn) (receiver : nat).

(** The text fragments of a buffer, one after the other. *)
Fixpoint text_of (cs : list chunk) : string :=
  match cs with
  | [] => ""
  | ChunkStr s :: r => s +:+ text_of r
  | ChunkObj _ :: r => text_of r
  end.

(** The receiver and the function a call of [f] ends at. *)
Fixpoint receiver_of (f : fn) (this : nat) : nat :=
  match f with
  | FnBound g r => receiver_of g r
  | _ => this
  end.

Fixpoint target_of (f : fn) : fn :=
  match f with
  | FnBound g _ => target_of g
  | _ => f
  end.

(** A root's [_push] is one of the two unbound functions. *)
Definition unbound (f : fn) : Prop := f = FnPush \/ f = FnPushString.

(** Readings on which the host's arithmetic in [evCommon] is exact: the
    nanoseconds stay below a second and the microsecond count below 2^53,
    so that every intermediate result is an integer a double holds. *)
Definition in_range (c : clock) : Prop :=
  (0 <= seconds c)%Z /\ (0 <= nanoseconds c < 1000000000)%Z
  /\ (seconds c * 1000000 + 1000000 <= 9007199254740992)%Z.

(** A reading of the clock as one count of nanoseconds. *)
Definition nanos (c : clock) : Z :=
  (seconds c * 1000000000 + nanoseconds c)%Z.

End Host.

(** ** The Tracer (TypeScript variant) *)

Module TraceEvent.
Import JS Host.

Definition addr := nat.

(** A Tracer object.  [fields] is a reference to the FieldSet object in
    the store; [firstPush] and [_objectMode] start out [undefined], which
    the code only ever tests with [!], so [false] and [None] stand for
    it; [buffer] is what [push] has put on the Tracer's own stream. *)
Record Tracer : Type := mkTracer {
  parent : option addr;
  fields : addr;
  noStream : value;
  events : list props;
  _objectMode : option bool;
  firstPush : bool;
  _push : fn;
  buffer : list chunk
}.

(** The store: Tracer objects and FieldSet objects, by address. *)
Record heap : Type := Heap {
  tracers : list Tracer;
  objects : list props
}.

Definition empty_heap : heap := Heap [] [].

Definition update_tracer (a : addr) (f : Tracer -> Tracer) (h : heap) : heap :=
  match tracers h !! a with
  | Some t => Heap (<[a := f t]> (tracers h)) (objects h)
  | None => h
  end.

Definition fields_of (h : heap) (a : addr) : props :=
  match tracers h !! a with
  | Some t => match objects h !! fields t with
              | Some o => o
              | None => []
              end
  | None => []
  end.

(** [parent.fields[k] = v] done from outside: a write to the FieldSet
    object a Tracer refers to. *)
Definition set_field (a : addr) (k : string) (v : value) (h : heap) : heap :=
  match tracers h !! a with
  | Some t =>
      match objects h !! fields t with
      | Some o => Heap (tracers h) (<[fields t := put o k v]> (objects h))
      | None => h
      end
  | None => h
  end.

(** [delete parent.fields[k]] done from outside. *)
Definition delete_field (a : addr) (k : string) (h : heap) : heap :=
  match tracers h !! a with
  | Some t =>
      match objects h !! fields t with
      | Some o =>
          Heap (tracers h)
               (<[fields t := filter (fun kv => negb (String.eqb k (fst kv))) o]>
                  (objects h))
      | None => h
      end
  | None => h
  end.

(** *** Construction *)

(** The [parent] option: a Tracer of the store, or any other value. *)
Inductive parent_arg : Type :=
| PTracer (a : addr)
| PValue (v : value).

Record TracerOptions : Type := mkOptions {
  opt_parent : parent_arg;
  opt_fields : value;
  opt_objectMode : value;
  opt_noStream : value
}.

(** The constructor's argument: an options object, or any value given
    in its place ([undefined] when the argument is left out). *)
Inductive ctor_arg : Type :=
| ArgOptions (o : TracerOptions)
| ArgValue (v : value).

Definition no_options : TracerOptions :=
  mkOptions (PValue VUndef) VUndef VUndef VUndef.

(** The options read off a value that is not an options record: its
    own properties of those names. *)
Definition options_in (v : value) : TracerOptions :=
  mkOptions (PValue (get_prop v "parent")) (get_prop v "fields")
            (get_prop v "objectMode") (get_prop v "noStream").

(** The last three steps on the FieldSet: overlay of [opts.fields], the
    [cat] fallback or join, the [args] fallback. *)
Definition overlay (base : props) (f : value) : props :=
  let o1 := if truthy f then assign base f else base in
  let cat := get o1 "cat" in
  let o2 :=
    if negb (truthy cat) then set o1 "cat" (VStr "default")
    else match cat with
         | VArr l => set o1 "cat" (VStr (array_join l ","))
         | _ => o1
         end in
  if negb (truthy (get o2 "args")) then set o2 "args" (VObj []) else o2.

Definition is_object (v : value) : bool := String.eqb (typeof v) "object".

Definition is_boolean (v : value) : bool :=
  match v with
  | VBool _ => true
  | _ => false
  end.

(** The four checks at the head of the constructor. *)
Definition validate (arg : ctor_arg) : result TracerOptions :=
  opts ← match arg with
         | ArgOptions o => Ok o
         | ArgValue VUndef => Ok no_options
         | ArgValue v =>
             if negb (is_object v) then
               Throw (ConfigError "Invalid options passed (must be an object)")
             else match v with
                  | VNull => Throw TypeError
                  | _ => Ok (options_in v)
                  end
         end;
  _ ← match opt_parent opts with
      | PValue v =>
          if not_nullish v && negb (is_object v) then
            Throw (ConfigError "Invalid option (parent) passed (must be an object)")
          else Ok tt
      | PTracer _ => Ok tt
      end;
  _ ← (if not_nullish (opt_fields opts) && negb (is_object (opt_fields opts)) then
         Throw (ConfigError "Invalid option (fields) passed (must be an object)")
       else Ok tt);
  _ ← (if not_nullish (opt_objectMode opts) && negb (is_boolean (opt_objectMode opts)) then
         Throw (ConfigError "Invalid option (objectsMode) passed (must be a boolean)")
       else Ok tt);
  Ok opts.

(** [new Tracer(opts)]: the address of the new Tracer and the store with
    it and its FieldSet object in it, or what the constructor throws.  A
    parent that passes the checks without being a Tracer has no [_push]
    to bind: the constructor ends in a [TypeError]. *)
Definition new_Tracer (arg : ctor_arg) (h : heap) : result (addr * heap) :=
  opts ← validate arg;
  let ns := if truthy (opt_noStream opts) then opt_noStream opts else VBool false in
  let fs := length (objects h) in
  let me := length (tracers h) in
  match opt_parent opts with
  | PTracer p =>
      match tracers h !! p with
      | Some pt =>
          let fset := overlay (assign [] (VObj (fields_of h p))) (opt_fields opts) in
          let t := mkTracer (Some p) fs ns [] None false (FnBound (_push pt) p) [] in
          Ok (me, Heap (tracers h ++ [t]) (objects h ++ [fset]))
      | None => Throw TypeError
      end
  | PValue v =>
      if truthy v then Throw TypeError
      else
        let fset := overlay [] (opt_fields opts) in
        let om := truthy (opt_objectMode opts) in
        let t := mkTracer None fs ns [] (Some om) false
                          (if om then FnPush else FnPushString) [] in
        Ok (me, Heap (tracers h ++ [t]) (objects h ++ [fset]))
  end.

(** [this.child(fields)] *)
Definition child (this : addr) (f : value) (h : heap) : result (addr * heap) :=
  new_Tracer (ArgOptions (mkOptions (PTracer this) f VUndef VUndef)) h.

(** *** Delivery *)

(** [this.push(c)] of the readable stream *)
Definition push (this : addr) (c : chunk) (h : heap) : heap :=
  update_tracer this
    (fun t => mkTracer (parent t) (fields t) (noStream t) (events t)
                       (_objectMode t) (firstPush t) (_push t) (buffer t ++ [c])) h.

Definition set_firstPush (this : addr) (h : heap) : heap :=
  update_tracer this
    (fun t => mkTracer (parent t) (fields t) (noStream t) (events t)
                       (_objectMode t) true (_push t) (buffer t)) h.

Definition first_pushed (h : heap) (a : addr) : bool :=
  match tracers h !! a with
  | Some t => firstPush t
  | None => false
  end.

Definition _pushString (this : addr) (ev : props) (h : heap) : heap :=
  if negb (first_pushed h this) then
    let h1 := push this (ChunkStr "[") h in
    let h2 := set_firstPush this h1 in
    push this (ChunkStr ("" +:+ Json.stringify ev)) h2
  else
    push this (ChunkStr (",
" +:+ Json.stringify ev)) h.

(** A call [f(ev)] with receiver [this]: a bound function ignores the
    receiver of the call and uses its own. *)
Fixpoint call (f : fn) (this : addr) (ev : props) (h : heap) : heap :=
  match f with
  | FnPush => push this (ChunkObj ev) h
  | FnPushString => _pushString this ev h
  | FnBound g receiver => call g receiver ev h
  end.

(** [this._push(ev)] *)
Definition call_push (this : addr) (ev : props) (h : heap) : heap :=
  match tracers h !! this with
  | Some t => call (_push t) this ev h
  | None => h
  end.

Definition _flush (this : addr) (h : heap) : heap :=
  match tracers h !! this with
  | Some t =>
      match _objectMode t with
      | Some true => h
      | _ => push this (ChunkStr "]") h
      end
  | None => h
  end.

(** [this.flush()] *)
Definition flush (this : addr) (h : heap) : heap :=
  match tracers h !! this with
  | Some t =>
      match noStream t with
      | VBool true =>
          _flush this (fold_left (fun h' evt => call_push this evt h') (events t) h)
      | _ => h
      end
  | None => h
  end.

(** *** Phase methods *)

(** The loop over [Object.keys(fields)] *)
Definition copy_key (f : value) (acc : result props) (k : string) : result props :=
  ev ← acc;
  if String.eqb k "cat" then
    c ← join (get_prop f "cat") ",";
    Ok (set ev "cat" c)
  else Ok (put ev k (get_prop f k)).

(** The event record built by [mkEventFunc(ph)(fields)] *)
Definition make_event (ph : string) (f : value) (now : clock) : result props :=
  let ev := set (evCommon now) "ph" (VStr ph) in
  if truthy f then
    if String.eqb (typeof f) "string" then Ok (set ev "name" f)
    else fold_left (copy_key f) (keys f) (Ok ev)
  else Ok ev.

Definition append_event (this : addr) (ev : props) (h : heap) : heap :=
  update_tracer this
    (fun t => mkTracer (parent t) (fields t) (noStream t) (events t ++ [ev])
                       (_objectMode t) (firstPush t) (_push t) (buffer t)) h.

Definition deliver (this : addr) (ev : props) (h : heap) : heap :=
  match tracers h !! this with
  | Some t =>
      if negb (truthy (noStream t)) then call_push this ev h
      else append_event this ev h
  | None => h
  end.

Definition mkEventFunc (ph : string) (this : addr) (f : value) (now : clock)
    (h : heap) : result heap :=
  ev ← make_event ph f now;
  Ok (deliver this ev h).

Definition begin := mkEventFunc "B".
Definition end_ := mkEventFunc "E".
Definition completeEvent := mkEventFunc "X".
Definition instantEvent := mkEventFunc "I".

(** *** Runs of calls, and what they leave on the stream *)

Definition buffer_of (h : heap) (a : addr) : list chunk :=
  match tracers h !! a with
  | Some t => buffer t
  | None => []
  end.

Definition events_of (h : heap) (a : addr) : list props :=
  match tracers h !! a with
  | Some t => events t
  | None => []
  end.

Inductive phase : Type := PhBegin | PhEnd | PhComplete | PhInstant.

Definition phase_method (p : phase) :=
  match p with
  | PhBegin => begin
  | PhEnd => end_
  | PhComplete => completeEvent
  | PhInstant => instantEvent
  end.

Definition phase_code (p : phase) : string :=
  match p with
  | PhBegin => "B"
  | PhEnd => "E"
  | PhComplete => "X"
  | PhInstant => "I"
  end.

(** One call of a phase method, with the clock reading it gets. *)
Record method_call : Type := MethodCall {
  call_phase : phase;
  call_fields : value;
  call_now : clock
}.

(** A call that throws leaves the store as it was. *)
Definition step (this : addr) (h : heap) (c : method_call) : heap :=
  match phase_method (call_phase c) this (call_fields c) (call_now c) h with
  | Ok h' => h'
  | Throw _ => h
  end.

Definition run (this : addr) (calls : list method_call) (h : heap) : heap :=
  fold_left (step this) calls h.

(** The events the calls construct, in order. *)
Fixpoint constructed (calls : list method_call) : list props :=
  match calls with
  | [] => []
  | c :: r =>
      match make_event (phase_code (call_phase c)) (call_fields c) (call_now c) with
      | Ok ev => ev :: constructed r
      | Throw _ => constructed r
      end
  end.

(** [this.child(f1).child(f2)...]: the last Tracer of the chain. *)
Fixpoint descend (this : addr) (fs : list value) (h : heap) : result (addr * heap) :=
  match fs with
  | [] => Ok (this, h)
  | f :: r =>
      match child this f h with
      | Ok (c, h') => descend c r h'
      | Throw e => Throw e
      end
  end.

(** The argument of a phase method leaves key [k] alone: there is no
    argument, or it is a string, or it is a mapping without that key. *)
Definition untouched (f : value) (k : string) : Prop :=
  truthy f = false \/ String.eqb (typeof f) "string" = true \/ ~ In k (keys f).

(** *** The operations, seen on the record of one Tracer *)

(** What [push], [_pushString], buffering and [_flush] do to the record
    of their Tracer. *)
Definition pushed (c : chunk) (t : Tracer) : Tracer :=
  mkTracer (parent t) (fields t) (noStream t) (events t)
           (_objectMode t) (firstPush t) (_push t) (buffer t ++ [c]).

Definition string_pushed (ev : props) (t : Tracer) : Tracer :=
  if firstPush t then
    pushed (ChunkStr (",
" +:+ Json.stringify ev)) t
  else
    mkTracer (parent t) (fields t) (noStream t) (events t)
             (_objectMode t) true (_push t)
             (buffer t ++ [ChunkStr "["; ChunkStr (Json.stringify ev)]).

Definition buffered (evs : list props) (t : Tracer) : Tracer :=
  mkTracer (parent t) (fields t) (noStream t) (events t ++ evs)
           (_objectMode t) (firstPush t) (_push t) (buffer t).

Definition closed (t : Tracer) : Tracer :=
  match _objectMode t with
  | Some true => t
  | _ => pushed (ChunkStr "]") t
  end.

(** What a call of the function [f] does to the record of the Tracer it
    ends at. *)
Definition delivered (f : fn) (ev : props) (t : Tracer) : Tracer :=
  match target_of f with
  | FnPushString => string_pushed ev t
  | _ => pushed (ChunkObj ev) t
  end.

(** The chunks a text-mode stream gets for the events [evs], the opening
    bracket written ([started]) or not. *)
Fixpoint frame_chunks (started : bool) (evs : list props) : list chunk :=
  match evs with
  | [] => []
  | e :: r =>
      (if started then [ChunkStr (",
" +:+ Json.stringify e)]
       else [ChunkStr "["; ChunkStr (Json.stringify e)]) ++ frame_chunks true r
  end.

(** The chunks any root gets for the events [evs]: framed text, or the
    event objects themselves in object mode; and what [_flush] adds. *)
Definition event_chunks (f : fn) (started : bool) (evs : list props) : list chunk :=
  match target_of f with
  | FnPushString => frame_chunks started evs
  | _ => map ChunkObj evs
  end.

Definition closing_chunks (om : option bool) : list chunk :=
  match om with
  | Some true => []
  | _ => [ChunkStr "]"]
  end.

(** Two outcomes of a call that leave the Tracers, their buffers
    included, in the same state, or throw the same error. *)
Definition same_tracers (a b : result heap) : Prop :=
  match a, b with
  | Ok ha, Ok hb => tracers ha = tracers hb
  | Throw e, Throw e' => e = e'
  | _, _ => False
  end.

(** *** Options and stores *)





(** Every Tracer of the store has its FieldSet object in the store. *)
Definition heap_ok (h : heap) : Prop :=
  forall (a : addr) (t : Tracer),
    tracers h !! a = Some t -> fields t < length (objects h).

(** Writes to the FieldSet of a Tracer, done from outside: an entry
    set or deleted.  (A write inside an object an entry holds is in
    [Nested], where entries can refer to shared objects.) *)
Inductive mutation : Type :=
| SetField (k : string) (v : value)
| DeleteField (k : string).

Definition mutate (a : addr) (h : heap) (m : mutation) : heap :=
  match m with
  | SetField k v => set_field a k v h
  | DeleteField k => delete_field a k h
  end.

Definition mutate_all (a : addr) (ms : list mutation) (h : heap) : heap :=
  fold_left (mutate a) ms h.

(** *** Sample inputs *)

Definition sample_now : clock := Clock 1 1500 7.

(** [new Tracer()] and [new Tracer({noStream: true})] on the empty
    store. *)
Definition text_root : Tracer :=
  mkTracer None 0 (VBool false) [] (Some false) false FnPushString [].

Definition text_root_heap : heap :=
  Heap [text_root] [[("cat", VStr "default"); ("args", VObj [])]].

Definition buffered_root : Tracer :=
  mkTracer None 0 (VBool true) [] (Some false) false FnPushString [].

Definition buffered_root_heap : heap :=
  Heap [buffered_root] [[("cat", VStr "default"); ("args", VObj [])]].

(** [begin({name:"x", cat:["a","b"]})], then [end("x")], and the events
    they construct. *)
Definition sample_calls : list method_call :=
  [MethodCall PhBegin
     (VObj [("name", VStr "x"); ("cat", VArr [VStr "a"; VStr "b"])])
     (Clock 1 1500 7);
   MethodCall PhEnd (VStr "x") (Clock 2 1499 7)].

Definition sample_begin : props :=
  [("ts", VNum 1000002); ("pid", VNum 7); ("tid", VNum 7); ("ph", VStr "B");
   ("name", VStr "x"); ("cat", VStr "a,b")].

Definition sample_end : props :=
  [("ts", VNum 2000001); ("pid", VNum 7); ("tid", VNum 7); ("ph", VStr "E");
   ("name", VStr "x")].

(** A buffered text root holding one event. *)
Definition buffered_event : props :=
  [("ts", VNum 5); ("pid", VNum 7); ("tid", VNum 7); ("ph", VStr "I");
   ("name", VStr "kept")].

Definition buffered_root_one : heap :=
  Heap [mkTracer None 0 (VBool true) [buffered_event] (Some false) false
                 FnPushString []]
       [[("cat", VStr "default"); ("args", VObj [])]].

(** The fields of the parent and of the child in the test of the
    inheritance rule, and three writes to a FieldSet. *)
Definition sample_parent_fields : value :=
  VObj [("cat", VArr [VStr "a"]); ("x", VNum 1)].

Definition sample_child_fields : value :=
  VObj [("cat", VArr [VStr "b"]); ("y", VNum 2)].

Definition sample_writes : list mutation :=
  [SetField "x" (VNum 9); DeleteField "cat"; SetField "z" VNull].

(** The store after [new Tracer({fields: {cat: ["a"], x: 1}})]. *)
Definition sample_parent_heap : heap :=
  Heap [mkTracer None 0 (VBool false) [] (Some false) false FnPushString []]
       [[("cat", VStr "a"); ("x", VNum 1); ("args", VObj [])]].

(** *** Calls made on several Tracers of one family *)

(** Phase-method calls, each on the Tracer named with it. *)
Definition run_family (calls : list (addr * method_call)) (h : heap) : heap :=
  fold_left (fun h' c => step (fst c) h' (snd c)) calls h.

(** Tracer [c] streams to the root [r]: it does not buffer, and a call
    of its [_push] ends at the root's function with the root as
    receiver. *)
Definition streams_to (h : heap) (r c : addr) : Prop :=
  exists tr tc,
    tracers h !! r = Some tr /\ tracers h !! c = Some tc
    /\ truthy (noStream tc) = false
    /\ receiver_of (_push tc) c = r
    /\ target_of (_push tc) = target_of (_push tr).

(** The argument of [child] says nothing about key [k]: it is left out,
    or it is a mapping (each key once) without that key. *)
Definition silent_on (k : string) (f : value) : Prop :=
  match f with
  | VUndef | VNull => True
  | VObj fo => NoDup (map fst fo) /\ lookup_prop k fo = None
  | _ => False
  end.

(** When a phase method throws: the argument is a mapping with a [cat]
    that has no [join]. *)
Definition cat_unjoinable (f : value) : bool :=
  truthy f && negb (String.eqb (typeof f) "string")
  && (if in_dec string_dec "cat" (keys f) then true else false)
  && negb (isArray (get_prop f "cat")).

End TraceEvent.

(** ** The Tracer of lib/trace-event.js *)

Module Legacy.
Import JS Host.

Definition addr := nat.

Record Tracer : Type := mkTracer {
  parent : option addr;
  fields : addr;
  _objectMode : option bool;
  firstPush : bool;
  _push : fn;
  buffer : list chunk
}.

Record heap : Type := Heap {
  tracers : list Tracer;
  objects : list props
}.

Definition empty_heap : heap := Heap [] [].

Definition update_tracer (a : addr) (f : Tracer -> Tracer) (h : heap) : heap :=
  match tracers h !! a with
  | Some t => Heap (<[a := f t]> (tracers h)) (objects h)
  | None => h
  end.

Definition fields_of (h : heap) (a : addr) : props :=
  match tracers h !! a with
  | Some t => match objects h !! fields t with
              | Some o => o
              | None => []
              end
  | None => []
  end.

Definition set_field (a : addr) (k : string) (v : value) (h : heap) : heap :=
  match tracers h !! a with
  | Some t =>
      match objects h !! fields t with
      | Some o => Heap (tracers h) (<[fields t := put o k v]> (objects h))
      | None => h
      end
  | None => h
  end.

Definition delete_field (a : addr) (k : string) (h : heap) : heap :=
  match tracers h !! a with
  | Some t =>
      match objects h !! fields t with
      | Some o =>
          Heap (tracers h)
               (<[fields t := filter (fun kv => negb (String.eqb k (fst kv))) o]>
                  (objects h))
      | None => h
      end
  | None => h
  end.

Inductive parent_arg : Type :=
| PTracer (a : addr)
| PValue (v : value).

Record TracerOptions : Type := mkOptions {
  opt_parent : parent_arg;
  opt_fields : value;
  opt_objectMode : value
}.

Inductive ctor_arg : Type :=
| ArgOptions (o : TracerOptions)
| ArgValue (v : value).

Definition no_options : TracerOptions := mkOptions (PValue VUndef) VUndef VUndef.

Definition options_in (v : value) : TracerOptions :=
  mkOptions (PValue (get_prop v "parent")) (get_prop v "fields")
            (get_prop v "objectMode").

(** The checks of assert-plus the constructor calls (the library is a
    dependency, not part of the repository): [object] wants an object
    that is not [null], [bool] a boolean, and the [optional] forms let
    [undefined] and [null] through. *)
Definition assert_object (v : value) (name : string) : result unit :=
  match v with
  | VArr _ | VObj _ => Ok tt
  | _ => Throw (AssertionError name)
  end.

Definition assert_optionalObject (v : value) (name : string) : result unit :=
  if not_nullish v then assert_object v name else Ok tt.

Definition assert_optionalBool (v : value) (name : string) : result unit :=
  match v with
  | VUndef | VNull | VBool _ => Ok tt
  | _ => Throw (AssertionError name)
  end.

Definition validate (arg : ctor_arg) : result TracerOptions :=
  opts ← match arg with
         | ArgOptions o => Ok o
         | ArgValue VUndef => Ok no_options
         | ArgValue v => _ ← assert_object v "opts"; Ok (options_in v)
         end;
  _ ← match opt_parent opts with
      | PValue v => assert_optionalObject v "opts.parent"
      | PTracer _ => Ok tt
      end;
  _ ← assert_optionalObject (opt_fields opts) "opts.fields";
  _ ← assert_optionalBool (opt_objectMode opts) "opts.objectMode";
  Ok opts.

Definition overlay (base : props) (f : value) : props :=
  let o1 := if truthy f then assign base f else base in
  let cat := get o1 "cat" in
  let o2 :=
    if negb (truthy cat) then set o1 "cat" (VStr "default")
    else match cat with
         | VArr l => set o1 "cat" (VStr (array_join l ","))
         | _ => o1
         end in
  if negb (truthy (get o2 "args")) then set o2 "args" (VObj []) else o2.

Definition new_Tracer (arg : ctor_arg) (h : heap) : result (addr * heap) :=
  opts ← validate arg;
  let fs := length (objects h) in
  let me := length (tracers h) in
  match opt_parent opts with
  | PTracer p =>
      match tracers h !! p with
      | Some pt =>
          let fset := overlay (assign [] (VObj (fields_of h p))) (opt_fields opts) in
          let t := mkTracer (Some p) fs None false (FnBound (_push pt) p) [] in
          Ok (me, Heap (tracers h ++ [t]) (objects h ++ [fset]))
      | None => Throw TypeError
      end
  | PValue v =>
      if truthy v then Throw TypeError
      else
        let fset := overlay [] (opt_fields opts) in
        let om := truthy (opt_objectMode opts) in
        let t := mkTracer None fs (Some om) false
                          (if om then FnPush else FnPushString) [] in
        Ok (me, Heap (tracers h ++ [t]) (objects h ++ [fset]))
  end.

Definition child (this : addr) (f : value) (h : heap) : result (addr * heap) :=
  new_Tracer (ArgOptions (mkOptions (PTracer this) f VUndef)) h.

Definition push (this : addr) (c : chunk) (h : heap) : heap :=
  update_tracer this
    (fun t => mkTracer (parent t) (fields t) (_objectMode t) (firstPush t)
                       (_push t) (buffer t ++ [c])) h.

Definition set_firstPush (this : addr) (h : heap) : heap :=
  update_tracer this
    (fun t => mkTracer (parent t) (fields t) (_objectMode t) true
                       (_push t) (buffer t)) h.

Definition first_pushed (h : heap) (a : addr) : bool :=
  match tracers h !! a with
  | Some t => firstPush t
  | None => false
  end.

(** The separator follows every event; nothing closes the array. *)
Definition _pushString (this : addr) (ev : props) (h : heap) : heap :=
  let h1 :=
    if negb (first_pushed h this) then
      set_firstPush this (push this (ChunkStr "[") h)
    else h in
  push this (ChunkStr (Json.stringify ev +:+ ",
")) h1.

Fixpoint call (f : fn) (this : addr) (ev : props) (h : heap) : heap :=
  match f with
  | FnPush => push this (ChunkObj ev) h
  | FnPushString => _pushString this ev h
  | FnBound g receiver => call g receiver ev h
  end.

Definition call_push (this : addr) (ev : props) (h : heap) : heap :=
  match tracers h !! this with
  | Some t => call (_push t) this ev h
  | None => h
  end.

(** The event record: the stamp, the phase, the Tracer's whole FieldSet,
    then the argument over it; a truthy [fields.cat] is joined last. *)
Definition make_event (ph : string) (own : props) (f : value) (now : clock)
    : result props :=
  let ev := set (evCommon now) "ph" (VStr ph) in
  let ev := fold_left (fun e k => put e k (get own k)) (map fst own) ev in
  if truthy f then
    if String.eqb (typeof f) "string" then Ok (set ev "name" f)
    else
      let ev := fold_left (fun e k => put e k (get_prop f k)) (keys f) ev in
      if truthy (get_prop f "cat") then
        c ← join (get_prop f "cat") ",";
        Ok (set ev "cat" c)
      else Ok ev
  else Ok ev.

Definition mkEventFunc (ph : string) (this : addr) (f : value) (now : clock)
    (h : heap) : result heap :=
  ev ← make_event ph (fields_of h this) f now;
  Ok (call_push this ev h).

Definition begin := mkEventFunc "b".
Definition instant := mkEventFunc "n".
Definition end_ := mkEventFunc "e".

Definition buffer_of (h : heap) (a : addr) : list chunk :=
  match tracers h !! a with
  | Some t => buffer t
  | None => []
  end.

Definition heap_ok (h : heap) : Prop :=
  forall (a : addr) (t : Tracer),
    tracers h !! a = Some t -> fields t < length (objects h).

(** Writes to the FieldSet of a Tracer from outside: an entry set or
    deleted. *)
Inductive mutation : Type :=
| SetField (k : string) (v : value)
| DeleteField (k : string).

Definition mutate (a : addr) (h : heap) (m : mutation) : heap :=
  match m with
  | SetField k v => set_field a k v h
  | DeleteField k => delete_field a k h
  end.

Definition mutate_all (a : addr) (ms : list mutation) (h : heap) : heap :=
  fold_left (mutate a) ms h.

Definition sample_writes : list mutation :=
  [SetField "x" (VNum 9); DeleteField "cat"; SetField "z" VNull].

(** Sample store: a root built with the fields [{cat:["a"],x:1}]. *)
Definition parent_heap : heap :=
  Heap [mkTracer None 0 (Some false) false FnPushString []]
       [[("cat", VStr "a"); ("x", VNum 1); ("args", VObj [])]].

(** [this.child(f1).child(f2)...]: the last Tracer of the chain. *)
Fixpoint descend (this : addr) (fs : list value) (h : heap) : result (addr * heap) :=
  match fs with
  | [] => Ok (this, h)
  | f :: r =>
      match child this f h with
      | Ok (c, h') => descend c r h'
      | Throw e => Throw e
      end
  end.

(** Options one of the three checks of the constructor refuses. *)
Definition refused (o : TracerOptions) : bool :=
  match opt_parent o with
  | PValue v => not_nullish v && negb (String.eqb (typeof v) "object")
  | PTracer _ => false
  end
  || not_nullish (opt_fields o) && negb (String.eqb (typeof (opt_fields o)) "object")
  || match opt_objectMode o with
     | VUndef | VNull | VBool _ => false
     | _ => true
     end.

(** *** Runs of calls *)

Inductive phase : Type := PhBegin | PhInstant | PhEnd.

Definition phase_method (p : phase) :=
  match p with
  | PhBegin => begin
  | PhInstant => instant
  | PhEnd => end_
  end.

Definition phase_code (p : phase) : string :=
  match p with
  | PhBegin => "b"
  | PhInstant => "n"
  | PhEnd => "e"
  end.

Record method_call : Type := MethodCall {
  call_phase : phase;
  call_fields : value;
  call_now : clock
}.

(** A call that throws leaves the store as it was. *)
Definition step (this : addr) (h : heap) (c : method_call) : heap :=
  match phase_method (call_phase c) this (call_fields c) (call_now c) h with
  | Ok h' => h'
  | Throw _ => h
  end.

Definition run (this : addr) (calls : list method_call) (h : heap) : heap :=
  fold_left (step this) calls h.

(** The events the calls construct on a Tracer whose FieldSet is [own]. *)
Fixpoint constructed (own : props) (calls : list method_call) : list props :=
  match calls with
  | [] => []
  | c :: r =>
      match make_event (phase_code (call_phase c)) own (call_fields c) (call_now c) with
      | Ok ev => ev :: constructed own r
      | Throw _ => constructed own r
      end
  end.

(** What [_pushString] does to the record of its Tracer, and the chunks
    a text-mode stream gets for the events [evs]. *)
Definition string_pushed (ev : props) (t : Tracer) : Tracer :=
  mkTracer (parent t) (fields t) (_objectMode t) true (_push t)
           (buffer t ++
            (if firstPush t then [] else [ChunkStr "["]) ++
            [ChunkStr (Json.stringify ev +:+ ",
")]).

Fixpoint frame_chunks (started : bool) (evs : list props) : list chunk :=
  match evs with
  | [] => []
  | e :: r =>
      (if started then [] else [ChunkStr "["]) ++
      [ChunkStr (Json.stringify e +:+ ",
")] ++ frame_chunks true r
  end.

(** When a phase method throws: the argument is a mapping with a truthy
    [cat] that has no [join]. *)
Definition cat_unjoinable (f : value) : bool :=
  truthy f && negb (String.eqb (typeof f) "string")
  && truthy (get_prop f "cat") && negb (isArray (get_prop f "cat")).

End Legacy.

(** ** FieldSets whose entries refer to shared objects

    [Object.assign] copies one level: an entry that holds an object is
    copied as a reference to that object.  The stores above keep the
    entries of a FieldSet as values, which is what they are as long as
    nobody writes inside such an object.  Here an entry is a value or a
    reference into a store of objects, so that a write inside an object is
    seen through every entry that refers to it.  The merge is the
    constructor's, the same lines in both variants; a Tracer is named by
    its FieldSet. *)

Module Nested.
Import JS Host.

Inductive slot : Type :=
| Held (v : value)   (* a value nobody else writes into *)
| Ref (a : nat).     (* an object of the store *)

Definition entries := list (string * slot).

(** FieldSet objects, and the objects their entries refer to. *)
Record store : Type := Store {
  fieldsets : list entries;
  shared : list props
}.

Definition empty_store : store := Store [] [].

Fixpoint lookup_slot (k : string) (es : entries) : option slot :=
  match es with
  | [] => None
  | (k', s) :: r => if String.eqb k k' then Some s else lookup_slot k r
  end.

Definition get_slot (es : entries) (k : string) : slot :=
  match lookup_slot k es with
  | Some s => s
  | None => Held VUndef
  end.

Fixpoint set_slot (es : entries) (k : string) (s : slot) : entries :=
  match es with
  | [] => [(k, s)]
  | (k', s') :: r =>
      if String.eqb k k' then (k', s) :: r else (k', s') :: set_slot r k s
  end.

(** [!x] is false for every object. *)
Definition truthy_slot (s : slot) : bool :=
  match s with
  | Held v => truthy v
  | Ref _ => true
  end.

(** [Object.assign(target, source)], entry by entry (as [JS.assign]). *)
Definition assign_slots (target source : entries) : entries :=
  fold_left (fun t kv => set_slot t (fst kv) (snd kv)) source target.

(** The FieldSet of a new Tracer: the copy of the parent's, the given
    fields over it ([None]: no fields given), the [cat] fallback or join,
    the [args] fallback, whose [{}] is a new object of the store. *)
Definition merge (parent_fields given : option entries) (st : store)
    : entries * store :=
  let f0 := match parent_fields with
            | Some pf => assign_slots [] pf
            | None => []
            end in
  let f1 := match given with
            | Some g => assign_slots f0 g
            | None => f0
            end in
  let f2 :=
    if negb (truthy_slot (get_slot f1 "cat")) then
      set_slot f1 "cat" (Held (VStr "default"))
    else match get_slot f1 "cat" with
         | Held (VArr l) => set_slot f1 "cat" (Held (VStr (array_join l ",")))
         | _ => f1
         end in
  if negb (truthy_slot (get_slot f2 "args")) then
    (set_slot f2 "args" (Ref (length (shared st))),
     Store (fieldsets st) (shared st ++ [[]]))
  else (f2, st).

Definition new_fieldset (parent : option nat) (given : option entries) (st : store)
    : option (nat * store) :=
  match parent with
  | Some p =>
      match fieldsets st !! p with
      | Some pf =>
          let '(f, st') := merge (Some pf) given st in
          Some (length (fieldsets st'), Store (fieldsets st' ++ [f]) (shared st'))
      | None => None
      end
  | None =>
      let '(f, st') := merge None given st in
      Some (length (fieldsets st'), Store (fieldsets st' ++ [f]) (shared st'))
  end.

(** [this.child(fields)] *)
Definition child (this : nat) (given : option entries) (st : store)
    : option (nat * store) :=
  new_fieldset (Some this) given st.

(** What an entry stands for now: a reference is the object it refers
    to, as it is in the store. *)
Definition resolve_slot (st : store) (s : slot) : value :=
  match s with
  | Held v => v
  | Ref a => match shared st !! a with
             | Some o => VObj o
             | None => VUndef
             end
  end.

Definition resolve (st : store) (es : entries) : props :=
  map (fun kv => (fst kv, resolve_slot st (snd kv))) es.

Definition fields_now (st : store) (a : nat) : props :=
  match fieldsets st !! a with
  | Some es => resolve st es
  | None => []
  end.

(** The event [mkEventFunc] of lib/trace-event.js builds: it is built
    and pushed (as text) within one call, so every entry copied from the
    FieldSet stands for what it refers to at that moment. *)
Definition emit (ph : string) (this : nat) (f : value) (now : clock) (st : store)
    : result props :=
  Legacy.make_event ph (fields_now st this) f now.

(** Writes to the FieldSet of a Tracer from outside: an entry set
    ([tracer.fields[k] = x]) or deleted. *)
Inductive write : Type :=
| SetEntry (k : string) (s : slot)
| DeleteEntry (k : string).

Definition apply_write (a : nat) (st : store) (w : write) : store :=
  match fieldsets st !! a with
  | Some es =>
      let es' :=
        match w with
        | SetEntry k s => if String.eqb k "__proto__" then es else set_slot es k s
        | DeleteEntry k => filter (fun kv => negb (String.eqb k (fst kv))) es
        end in
      Store (<[a := es']> (fieldsets st)) (shared st)
  | None => st
  end.

Definition write_all (a : nat) (ws : list write) (st : store) : store :=
  fold_left (apply_write a) ws st.

(** A write inside the object an entry refers to:
    [tracer.fields[k][k'] = v].  Only the objects of the store are
    written into: for an entry that holds a value there is no answer. *)
Definition write_inside (a : nat) (k k' : string) (v : value) (st : store)
    : option store :=
  match fieldsets st !! a with
  | Some es =>
      match get_slot es k with
      | Ref r =>
          match shared st !! r with
          | Some o => Some (Store (fieldsets st) (<[r := put o k' v]> (shared st)))
          | None => None
          end
      | Held _ => None
      end
  | None => None
  end.

(** Every reference of the entries is to an object of the store. *)
Definition slot_ok (st : store) (s : slot) : Prop :=
  match s with
  | Ref a => a < length (shared st)
  | Held _ => True
  end.

Definition valid (st : store) (es : entries) : Prop :=
  Forall (fun kv => slot_ok st (snd kv)) es.

(** Sample stores: after [p = new Tracer()], and after [c = p.child({})]
    on it; three writes to entries of a FieldSet. *)
Definition parent_store : store :=
  Store [[("cat", Held (VStr "default")); ("args", Ref 0)]] [[]].

Definition family_store : store :=
  Store [[("cat", Held (VStr "default")); ("args", Ref 0)];
         [("cat", Held (VStr "default")); ("args", Ref 0)]] [[]].

Definition sample_writes : list write :=
  [SetEntry "x" (Held (VNum 9)); DeleteEntry "cat"; SetEntry "args" (Held VNull)].

End Nested.

(** * Properties *)

Import JS Host.

(** ** Strings *)

#[local] Arguments String.append !_ _ / : simpl nomatch.

Lemma append_assoc (a b c : string) : (a +:+ b) +:+ c = a +:+ (b +:+ c).
Proof. induction a as [|x a IH]; simpl; [reflexivity | f_equal; exact IH]. Qed.

Lemma append_nil_r (a : string) : a +:+ "" = a.
Proof. induction a as [|x a IH]; simpl; [reflexivity | f_equal; exact IH]. Qed.

Lemma length_append (a b : string) :
  String.length (a +:+ b) = (String.length a + String.length b)%nat.
Proof. induction a as [|x a IH]; simpl; [reflexivity | f_equal; exact IH]. Qed.

(** ** Reading back what [serialize] writes *)

Section reader.
Import Json.

Lemma span_digits_uint (d : Decimal.uint) (rest : string) :
  no_digit_head rest ->
  span_digits (NilEmpty.string_of_uint d +:+ rest) =
    (NilEmpty.string_of_uint d, rest).
Proof.
  intros Hrest. induction d; simpl; try (rewrite IHd; reflexivity).
  destruct rest as [|c r]; simpl in *; [reflexivity | now rewrite Hrest].
Qed.

Lemma string_of_uint_head (d : Decimal.uint) :
  d <> Decimal.Nil ->
  exists c r, NilEmpty.string_of_uint d = String c r /\ is_digit c = true.
Proof.
  intros Hd. destruct d; try congruence; simpl; eauto.
Qed.

Lemma digit_not_minus (c : ascii) : is_digit c = true -> Ascii.eqb c minus = false.
Proof.
  destruct c as [[] [] [] [] [] [] [] []]; vm_compute; intros H;
    first [reflexivity | discriminate H].
Qed.

Lemma int_of_string_of_Z (n : Z) :
  NilZero.int_of_string (string_of_Z n) = Some (Z.to_int n).
Proof.
  unfold string_of_Z. apply NilZero.isi; destruct n; simpl; try discriminate;
    intros H; inversion H as [H1]; now apply DecimalPos.Unsigned.to_uint_nonnil in H1.
Qed.

Lemma number_of_token_string_of_Z (n : Z) :
  number_of_token (string_of_Z n) = Some n.
Proof.
  unfold number_of_token. rewrite int_of_string_of_Z. cbv zeta.
  rewrite DecimalZ.of_to, String.eqb_refl. reflexivity.
Qed.

Lemma read_number_unsigned (d : Decimal.uint) (rest : string) :
  d <> Decimal.Nil -> no_digit_head rest ->
  read_number (NilEmpty.string_of_uint d +:+ rest) =
    match number_of_token (NilEmpty.string_of_uint d) with
    | Some z => Some (z, rest)
    | None => None
    end.
Proof.
  intros Hd Hrest.
  destruct (string_of_uint_head d Hd) as (c & r & Hs & Hc).
  unfold read_number.
  assert (Hsplit : match NilEmpty.string_of_uint d +:+ rest with
                   | String c r =>
                       if Ascii.eqb c minus then (String minus "", r)
                       else ("", NilEmpty.string_of_uint d +:+ rest)
                   | EmptyString => ("", NilEmpty.string_of_uint d +:+ rest)
                   end = ("", NilEmpty.string_of_uint d +:+ rest)).
  { rewrite Hs. simpl. now rewrite (digit_not_minus c Hc). }
  rewrite Hsplit, span_digits_uint by assumption. reflexivity.
Qed.

Lemma read_number_string_of_Z (n : Z) (rest : string) :
  no_digit_head rest ->
  read_number (string_of_Z n +:+ rest) = Some (n, rest).
Proof.
  intros Hrest.
  pose proof (number_of_token_string_of_Z n) as Htok.
  destruct n as [|p|p].
  - change (string_of_Z 0) with (NilEmpty.string_of_uint (Decimal.D0 Decimal.Nil)) in *.
    rewrite read_number_unsigned, Htok by (assumption || discriminate). reflexivity.
  - assert (Hs : string_of_Z (Z.pos p) = NilEmpty.string_of_uint (Pos.to_uint p)).
    { unfold string_of_Z. simpl. unfold NilZero.string_of_uint.
      destruct (Pos.to_uint p) eqn:Hp; try reflexivity.
      now apply DecimalPos.Unsigned.to_uint_nonnil in Hp. }
    rewrite Hs in *.
    rewrite read_number_unsigned, Htok
      by (assumption || apply DecimalPos.Unsigned.to_uint_nonnil). reflexivity.
  - assert (Hs : string_of_Z (Z.neg p) =
                 String minus (NilEmpty.string_of_uint (Pos.to_uint p))).
    { unfold string_of_Z. simpl. unfold NilZero.string_of_uint.
      destruct (Pos.to_uint p) eqn:Hp; try reflexivity.
      now apply DecimalPos.Unsigned.to_uint_nonnil in Hp. }
    rewrite Hs in *. unfold read_number. simpl.
    rewrite span_digits_uint by assumption. simpl in Htok |- *.
    now rewrite Htok.
Qed.

Lemma read_string_quote_char (c : ascii) (tail : string) :
  read_string (quote_char c +:+ tail) =
    match read_string tail with
    | Some (body, rest) => Some (String c body, rest)
    | None => None
    end.
Proof.
  destruct c as [[] [] [] [] [] [] [] []]; reflexivity.
Qed.

Lemma read_string_quote_body (s rest : string) :
  read_string (quote_body s +:+ String dquote rest) = Some (s, rest).
Proof.
  induction s as [|c s IH]; simpl.
  - reflexivity.
  - rewrite append_assoc, read_string_quote_char, IH. reflexivity.
Qed.

Lemma serialize_array (l : list value) :
  serialize (VArr l) =
    Some ("[" +:+ concat_sep "," (map element_text l) +:+ "]").
Proof.
  reflexivity.
Qed.

Lemma clean_array (l : list value) :
  clean (VArr l) = forallb clean l.
Proof. reflexivity. Qed.

Lemma clean_object (o : props) :
  clean (VObj o) = forallb (fun kv => clean (snd kv)) o.
Proof.
  cbn [clean]. induction o as [|[k x] r IH]; [reflexivity|].
  cbn [forallb snd]. now rewrite <- IH.
Qed.

Lemma clean_serialize (v : value) :
  clean v = true -> serialize v = Some (element_text v).
Proof.
  unfold element_text. destruct v as [| |[]| | | |]; simpl; try reflexivity.
  discriminate.
Qed.

Lemma serialize_object (o : props) :
  clean (VObj o) = true ->
  serialize (VObj o) =
    Some ("{" +:+ concat_sep "," (map member_text o) +:+ "}").
Proof.
  rewrite clean_object. intros Hc. cbn [serialize].
  assert (Hm : (fix members (o : props) : list string :=
                  match o with
                  | [] => []
                  | (k, x) :: r =>
                      match serialize x with
                      | Some s => (quote k +:+ ":" +:+ s) :: members r
                      | None => members r
                      end
                  end) o = map member_text o); [|now rewrite Hm].
  induction o as [|[k x] r IH]; [reflexivity|].
  cbn [forallb snd] in Hc. apply andb_prop in Hc as [Hx Hr].
  rewrite (clean_serialize x Hx). cbn [map]. unfold member_text at 1.
  cbn [fst snd]. unfold element_text at 1. rewrite (clean_serialize x Hx).
  now rewrite IH.
Qed.

Lemma depth_array (l : list value) : depth (VArr l) = S (chain_elements l).
Proof. reflexivity. Qed.

Lemma depth_object (o : props) : depth (VObj o) = S (chain_members o).
Proof. reflexivity. Qed.

Lemma concat_sep_cons (sep a : string) (l : list string) :
  concat_sep sep (a :: l) = a +:+ sep_tail sep l.
Proof.
  revert a. induction l as [|b r IH]; intros a.
  - simpl. now rewrite append_nil_r.
  - change (concat_sep sep (a :: b :: r)) with (a +:+ sep +:+ concat_sep sep (b :: r)).
    rewrite IH. reflexivity.
Qed.

Lemma skip_ws_append (w s : string) :
  all_ws w = true -> skip_ws (w +:+ s) = skip_ws s.
Proof.
  induction w as [|c w IH]; simpl; [reflexivity|].
  intros H. apply andb_prop in H as [Hc Hw]. rewrite Hc. auto.
Qed.

Lemma read_value_skip (fuel : nat) (w s : string) :
  all_ws w = true -> read_value fuel (w +:+ s) = read_value fuel s.
Proof.
  intros Hw. destruct fuel; [reflexivity|].
  cbn [read_value]. now rewrite (skip_ws_append w s Hw).
Qed.

Lemma read_elements_S (fuel : nat) (s : string) :
  read_elements (S fuel) s =
    match skip_ws s with
    | String c r =>
        if Nat.eqb (nat_of_ascii c) 93 then Some ([], r)
        else if Nat.eqb (nat_of_ascii c) 44 then
          match read_value fuel r with
          | Some (v, r1) =>
              match read_elements fuel r1 with
              | Some (vs, rest) => Some (v :: vs, rest)
              | None => None
              end
          | None => None
          end
        else None
    | EmptyString => None
    end.
Proof. reflexivity. Qed.

Lemma read_members_S (fuel : nat) (s : string) :
  read_members (S fuel) s =
    match skip_ws s with
    | String c r =>
        if Nat.eqb (nat_of_ascii c) 125 then Some ([], r)
        else if Nat.eqb (nat_of_ascii c) 44 then
          match read_member fuel r with
          | Some (kv, r1) =>
              match read_members fuel r1 with
              | Some (kvs, rest) => Some (kv :: kvs, rest)
              | None => None
              end
          | None => None
          end
        else None
    | EmptyString => None
    end.
Proof. reflexivity. Qed.

Lemma read_member_S (fuel : nat) (s : string) :
  read_member (S fuel) (String dquote s) =
    match read_string s with
    | Some (k, r1) =>
        match skip_ws r1 with
        | String c' r2 =>
            if Nat.eqb (nat_of_ascii c') 58 then
              match read_value fuel r2 with
              | Some (v, rest) => Some ((k, v), rest)
              | None => None
              end
            else None
        | EmptyString => None
        end
    | None => None
    end.
Proof. reflexivity. Qed.

Lemma read_value_array (fuel : nat) (r : string) :
  read_value (S fuel) (String "[" r) =
    match skip_ws r with
    | String c' r' =>
        if Nat.eqb (nat_of_ascii c') 93 then Some (VArr [], r')
        else
          match read_value fuel r with
          | Some (v, r1) =>
              match read_elements fuel r1 with
              | Some (vs, rest) => Some (VArr (v :: vs), rest)
              | None => None
              end
          | None => None
          end
    | EmptyString => None
    end.
Proof. reflexivity. Qed.

Lemma read_value_object (fuel : nat) (r : string) :
  read_value (S fuel) (String "{" r) =
    match skip_ws r with
    | String c' r' =>
        if Nat.eqb (nat_of_ascii c') 125 then Some (VObj [], r')
        else
          match read_member fuel r with
          | Some (kv, r1) =>
              match read_members fuel r1 with
              | Some (kvs, rest) => Some (VObj (kv :: kvs), rest)
              | None => None
              end
          | None => None
          end
    | EmptyString => None
    end.
Proof. reflexivity. Qed.

Lemma read_value_number (fuel : nat) (c : ascii) (r : string) :
  is_digit c = true \/ c = minus ->
  read_value (S fuel) (String c r) =
    match read_number (String c r) with
    | Some (z, rest) => Some (VNum z, rest)
    | None => None
    end.
Proof.
  intros [H | ->]; [|reflexivity].
  destruct c as [[] [] [] [] [] [] [] []]; vm_compute in H;
    first [discriminate H | reflexivity].
Qed.

Lemma string_of_Z_head (n : Z) :
  exists c r, string_of_Z n = String c r /\ (is_digit c = true \/ c = minus).
Proof.
  destruct n as [|p|p].
  - exists "0"%char, "". split; [reflexivity | now left].
  - unfold string_of_Z. simpl. unfold NilZero.string_of_uint.
    destruct (string_of_uint_head (Pos.to_uint p)
                (DecimalPos.Unsigned.to_uint_nonnil p)) as (c & r & Hs & Hc).
    exists c, r. split; [|now left].
    destruct (Pos.to_uint p); try exact Hs. discriminate Hs.
  - unfold string_of_Z. simpl. eexists _, _. split; [reflexivity | now right].
Qed.

(** The first character of the text of a value: not white space, and
    neither of the closing brackets. *)
Lemma element_text_head (v : value) :
  exists c r, element_text v = String c r /\ is_ws c = false /\
              Nat.eqb (nat_of_ascii c) 93 = false /\
              Nat.eqb (nat_of_ascii c) 125 = false.
Proof.
  destruct v as [| |[]|n|s|l|o]; try (eexists _, _; split; [reflexivity|]; now vm_compute).
  destruct (string_of_Z_head n) as (c & r & Hs & Hc).
  exists c, r. split; [exact Hs|].
  destruct Hc as [Hc | ->]; [|now vm_compute].
  destruct c as [[] [] [] [] [] [] [] []]; vm_compute in Hc;
    first [discriminate Hc | now vm_compute].
Qed.

Lemma no_digit_head_element_tail (w rest : string) (l : list string) :
  no_digit_head (sep_tail (String "," w) l +:+ String "]" rest).
Proof. destruct l; reflexivity. Qed.

Lemma no_digit_head_member_tail (rest : string) (l : list string) :
  no_digit_head (sep_tail "," l +:+ String "}" rest).
Proof. destruct l; reflexivity. Qed.

(** The elements of an array after the first, each behind a comma and
    white space [w], up to the closing bracket. *)
Lemma read_elements_tail (w : string) (l : list value) :
  all_ws w = true ->
  Forall reads_back l ->
  forallb clean l = true ->
  forall (fuel : nat) (rest : string),
    S (chain_elements l) <= fuel ->
    read_elements fuel
      (sep_tail (String "," w) (map element_text l) +:+ String "]" rest)
    = Some (l, rest).
Proof.
  intros Hw Hall. induction Hall as [|x r Hx Hr IH]; intros Hc fuel rest Hfuel.
  - destruct fuel as [|fuel]; [lia|]. reflexivity.
  - cbn [forallb] in Hc. apply andb_prop in Hc as [Hcx Hcr].
    destruct fuel as [|fuel]; [lia|]. cbn [chain_elements] in Hfuel.
    cbn [map sep_tail]. rewrite read_elements_S.
    change (String "," w +:+ element_text x +:+ sep_tail (String "," w) (map element_text r))
      with (String "," (w +:+ element_text x +:+ sep_tail (String "," w) (map element_text r))).
    cbn [append skip_ws]. change (is_ws ",") with false. cbv iota.
    change (Nat.eqb (nat_of_ascii ",") 93) with false.
    change (Nat.eqb (nat_of_ascii ",") 44) with true. cbv iota.
    rewrite !append_assoc, read_value_skip by exact Hw.
    rewrite (Hx Hcx fuel) by (try lia; apply no_digit_head_element_tail).
    rewrite (IH Hcr fuel rest) by lia. reflexivity.
Qed.

Lemma read_members_tail (o : props) :
  Forall (fun kv => reads_back (snd kv)) o ->
  forallb (fun kv => clean (snd kv)) o = true ->
  forall (fuel : nat) (rest : string),
    S (chain_members o) <= fuel ->
    read_members fuel (sep_tail "," (map member_text o) +:+ String "}" rest)
    = Some (o, rest).
Proof.
  intros Hall. induction Hall as [|[k x] r Hx Hr IH]; intros Hc fuel rest Hfuel.
  - destruct fuel as [|fuel]; [lia|]. reflexivity.
  - cbn [forallb snd] in Hc, Hx. apply andb_prop in Hc as [Hcx Hcr].
    destruct fuel as [|fuel]; [lia|]. cbn [chain_members] in Hfuel.
    destruct fuel as [|fuel]; [lia|].
    cbn [map sep_tail]. rewrite read_members_S.
    unfold member_text at 1. cbn [fst snd]. unfold quote.
    cbn [append skip_ws]. change (is_ws ",") with false. cbv iota.
    change (Nat.eqb (nat_of_ascii ",") 125) with false.
    change (Nat.eqb (nat_of_ascii ",") 44) with true. cbv iota.
    rewrite read_member_S, !append_assoc. cbn [append].
    rewrite read_string_quote_body.
    cbn [append skip_ws]. change (is_ws ":") with false. cbv iota.
    change (Nat.eqb (nat_of_ascii ":") 58) with true. cbv iota.
    rewrite (Hx Hcx fuel) by (try lia; apply no_digit_head_member_tail).
    rewrite (IH Hcr (S fuel) rest) by lia. reflexivity.
Qed.

(** The reader gives back every value from its text. *)
Lemma read_value_element (v : value) : reads_back v.
Proof.
  induction v as [| |b|n|s|l IH|o IH] using value_ind';
    intros Hc fuel rest Hfuel Hrest.
  - discriminate Hc.
  - destruct fuel as [|fuel]; [cbn in Hfuel; lia | reflexivity].
  - destruct fuel as [|fuel]; [cbn in Hfuel; lia | destruct b; reflexivity].
  - destruct fuel as [|fuel]; [cbn in Hfuel; lia|].
    change (element_text (VNum n)) with (string_of_Z n).
    destruct (string_of_Z_head n) as (c & r & Hs & Hhead).
    pose proof (read_number_string_of_Z n rest Hrest) as Hnum.
    rewrite Hs in *. cbn [append] in *.
    now rewrite read_value_number, Hnum.
  - destruct fuel as [|fuel]; [cbn in Hfuel; lia|].
    change (element_text (VStr s)) with (quote s). unfold quote.
    cbn [append]. rewrite append_assoc. cbn [append].
    change (read_value (S fuel) (String dquote (quote_body s +:+ String dquote rest)))
      with (match read_string (quote_body s +:+ String dquote rest) with
            | Some (body, rest') => Some (VStr body, rest')
            | None => None
            end).
    now rewrite read_string_quote_body.
  - rewrite clean_array in Hc. rewrite depth_array in Hfuel.
    unfold element_text. rewrite serialize_array.
    destruct fuel as [|fuel]; [lia|].
    cbn [append]. rewrite read_value_array.
    destruct l as [|x r].
    + reflexivity.
    + cbn [map]. rewrite concat_sep_cons, !append_assoc.
      destruct (element_text_head x) as (c & t & Hx & Hws & Hb & _).
      rewrite Hx at 1. cbn [append skip_ws]. rewrite Hws, Hb.
      cbn [forallb] in Hc. apply andb_prop in Hc as [Hcx Hcr].
      cbn [chain_elements] in Hfuel.
      inversion IH as [|? ? IHx IHr]; subst.
      rewrite (IHx Hcx fuel)
        by (try lia; apply (no_digit_head_element_tail "")).
      rewrite (read_elements_tail "" r eq_refl IHr Hcr fuel rest) by lia.
      reflexivity.
  - pose proof Hc as Hc'. rewrite clean_object in Hc. rewrite depth_object in Hfuel.
    unfold element_text. rewrite (serialize_object o Hc').
    destruct fuel as [|fuel]; [lia|].
    cbn [append]. rewrite read_value_object.
    destruct o as [|[k x] r].
    + reflexivity.
    + cbn [map]. rewrite concat_sep_cons, !append_assoc.
      unfold member_text at 1 2. cbn [fst snd]. unfold quote.
      cbn [append skip_ws]. change (is_ws dquote) with false. cbv iota.
      change (Nat.eqb (nat_of_ascii dquote) 125) with false. cbv iota.
      cbn [forallb snd] in Hc. apply andb_prop in Hc as [Hcx Hcr].
      cbn [chain_members] in Hfuel.
      destruct fuel as [|fuel]; [lia|].
      inversion IH as [|? ? IHx IHr]; subst. cbn [snd] in IHx.
      unfold member_text at 1. cbn [fst snd]. unfold quote. cbn [append].
      rewrite read_member_S, !append_assoc. cbn [append].
      rewrite read_string_quote_body.
      cbn [append skip_ws]. change (is_ws ":") with false. cbv iota.
      change (Nat.eqb (nat_of_ascii ":") 58) with true. cbv iota.
      rewrite (IHx Hcx fuel) by (try lia; apply no_digit_head_member_tail).
      rewrite (read_members_tail r IHr Hcr (S fuel) rest) by lia.
      reflexivity.
Qed.

(** *** The fuel of [parse] is enough *)

Lemma length_quote (k : string) : 2 <= String.length (quote k).
Proof.
  unfold quote. cbn [String.length]. rewrite length_append. cbn [String.length]. lia.
Qed.

Lemma length_member_text (k : string) (x : value) :
  String.length (member_text (k, x)) =
    String.length (quote k) + 1 + String.length (element_text x).
Proof.
  unfold member_text. cbn [fst snd]. rewrite !length_append. cbn [String.length]. lia.
Qed.

Lemma length_sep_tail_cons (sep a : string) (l : list string) :
  String.length (sep_tail sep (a :: l)) =
    String.length sep + String.length a + String.length (sep_tail sep l).
Proof. cbn [sep_tail]. rewrite !length_append. lia. Qed.

Lemma chain_elements_length (sep : string) (l : list value) :
  1 <= String.length sep ->
  Forall (fun x => clean x = true -> depth x <= String.length (element_text x)) l ->
  forallb clean l = true ->
  chain_elements l <= String.length (sep_tail sep (map element_text l)).
Proof.
  intros Hsep Hall. induction Hall as [|x r Hx Hr IH]; intros Hc.
  - cbn. lia.
  - cbn [forallb] in Hc. apply andb_prop in Hc as [Hcx Hcr].
    cbn [map chain_elements]. rewrite length_sep_tail_cons.
    specialize (Hx Hcx). specialize (IH Hcr). lia.
Qed.

Lemma chain_members_length (sep : string) (o : props) :
  1 <= String.length sep ->
  Forall (fun kv => clean (snd kv) = true ->
                    depth (snd kv) <= String.length (element_text (snd kv))) o ->
  forallb (fun kv => clean (snd kv)) o = true ->
  chain_members o <= String.length (sep_tail sep (map member_text o)).
Proof.
  intros Hsep Hall. induction Hall as [|[k x] r Hx Hr IH]; intros Hc.
  - cbn. lia.
  - cbn [forallb snd] in Hc, Hx. apply andb_prop in Hc as [Hcx Hcr].
    cbn [map chain_members]. rewrite length_sep_tail_cons, length_member_text.
    specialize (Hx Hcx). specialize (IH Hcr). pose proof (length_quote k). lia.
Qed.

Lemma depth_le_length (v : value) :
  clean v = true -> depth v <= String.length (element_text v).
Proof.
  induction v as [| |b|n|s|l IH|o IH] using value_ind'; intros Hc.
  - discriminate Hc.
  - cbn. lia.
  - destruct b; cbn; lia.
  - change (element_text (VNum n)) with (string_of_Z n).
    destruct (string_of_Z_head n) as (c & r & Hs & _). rewrite Hs. cbn. lia.
  - change (element_text (VStr s)) with (quote s).
    pose proof (length_quote s). cbn [depth]. lia.
  - rewrite clean_array in Hc. rewrite depth_array.
    unfold element_text. rewrite serialize_array.
    cbn [append String.length]. rewrite length_append. cbn [String.length].
    destruct l as [|x r]; [cbn; lia|].
    cbn [map]. rewrite concat_sep_cons, length_append.
    cbn [forallb] in Hc. apply andb_prop in Hc as [Hcx Hcr].
    inversion IH as [|? ? IHx IHr]; subst.
    pose proof (chain_elements_length "," r (le_n 1) IHr Hcr).
    specialize (IHx Hcx). cbn [chain_elements]. lia.
  - pose proof Hc as Hc'. rewrite clean_object in Hc. rewrite depth_object.
    unfold element_text. rewrite (serialize_object o Hc').
    cbn [append String.length]. rewrite length_append. cbn [String.length].
    destruct o as [|[k x] r]; [cbn; lia|].
    cbn [map]. rewrite concat_sep_cons, length_append, length_member_text.
    cbn [forallb snd] in Hc. apply andb_prop in Hc as [Hcx Hcr].
    inversion IH as [|? ? IHx IHr]; subst. cbn [snd] in IHx.
    pose proof (chain_members_length "," r (le_n 1) IHr Hcr).
    specialize (IHx Hcx). pose proof (length_quote k). cbn [chain_members]. lia.
Qed.

(** *** An array of events, one per line *)

Lemma stringify_element_text (ev : props) :
  stringify ev = element_text (VObj ev).
Proof. reflexivity. Qed.

Lemma forallb_clean_events (evs : list props) :
  forallb clean_event evs = forallb clean (map VObj evs).
Proof. induction evs as [|e r IH]; [reflexivity|]. cbn. now rewrite IH. Qed.

(** The text [[e1,\ne2,...,\nen]] of one or more events parses as the
    array of these events, in order. *)
Lemma parse_event_lines (e : props) (r : list props) :
  forallb clean_event (e :: r) = true ->
  parses_as_events
    ("[" +:+ stringify e +:+ sep_tail ",
" (map stringify r) +:+ "]")
    (e :: r).
Proof.
  intros Hc. rewrite forallb_clean_events in Hc. cbn [map forallb] in Hc.
  apply andb_prop in Hc as [Hce Hcr].
  assert (Hall : forall l : list value, Forall reads_back l).
  { intros l. apply Forall_forall. intros x _. apply read_value_element. }
  assert (Hlen : forall l : list value,
             Forall (fun x => clean x = true ->
                              depth x <= String.length (element_text x)) l).
  { intros l. apply Forall_forall. intros x _. apply depth_le_length. }
  unfold parses_as_events, parse.
  replace (map stringify r) with (map element_text (map VObj r))
    by (rewrite map_map; reflexivity).
  rewrite stringify_element_text.
  pose proof (depth_le_length (VObj e) Hce) as Hde.
  pose proof (chain_elements_length (String "," (String "010" "")) (map VObj r)
                ltac:(cbn; lia) (Hlen _) Hcr) as Hdr.
  set (tail := sep_tail (String "," (String "010" "")) (map element_text (map VObj r))) in *.
  remember (String.length ("[" +:+ element_text (VObj e) +:+ tail +:+ "]")) as fuel eqn:Hfuel.
  cbn [append String.length] in Hfuel. rewrite !length_append in Hfuel.
  cbn [String.length] in Hfuel.
  cbn [append]. rewrite read_value_array.
  destruct (element_text_head (VObj e)) as (c & t & Hx & Hws & Hb & _).
  rewrite Hx at 1. cbn [append skip_ws]. rewrite Hws, Hb.
  change (tail +:+ "]") with (tail +:+ String "]" "").
  rewrite (read_value_element (VObj e) Hce)
    by (try apply (no_digit_head_element_tail (String "010" "")); lia).
  unfold tail.
  rewrite (read_elements_tail (String "010" "") (map VObj r) eq_refl (Hall _) Hcr)
    by (fold tail; lia).
  reflexivity.
Qed.

(** *** Events with [undefined] in them *)

Lemma scrub_array (l : list value) : scrub (VArr l) = VArr (map scrub_element l).
Proof. reflexivity. Qed.

Lemma scrub_object (o : props) : scrub (VObj o) = VObj (scrub_members o).
Proof. reflexivity. Qed.

Lemma serialize_members (o : props) :
  serialize (VObj o) = Some ("{" +:+ concat_sep "," (member_texts o) +:+ "}").
Proof. reflexivity. Qed.

Lemma serialize_defined (v : value) : v <> VUndef -> exists s, serialize v = Some s.
Proof. destruct v as [| |[]| | | |]; try congruence; intros _; cbn; eauto. Qed.

(** The text of a value is the text of what is kept of it, and what is
    kept has no [undefined] in it. *)
Lemma scrub_spec (v : value) :
  serialize (scrub v) = serialize v /\ (v <> VUndef -> clean (scrub v) = true).
Proof.
  induction v as [| |b|n|s|l IH|o IH] using value_ind';
    try (split; [reflexivity | intros _; reflexivity]).
  - split; [reflexivity | congruence].
  - rewrite scrub_array, !serialize_array, clean_array.
    assert (H : map element_text (map scrub_element l) = map element_text l
                /\ forallb clean (map scrub_element l) = true).
    { induction IH as [|x r (Hs & Hc) _ (Hm & Hcl)]; [split; reflexivity|].
      cbn [map forallb]. rewrite Hm, Hcl, andb_true_r. split.
      - f_equal. destruct x; try reflexivity; unfold element_text, scrub_element;
          now rewrite Hs.
      - destruct x; try reflexivity; apply Hc; discriminate. }
    destruct H as (Hm & Hcl). rewrite Hm. split; [reflexivity | now intros _].
  - rewrite scrub_object, !serialize_members, clean_object.
    assert (H : member_texts (scrub_members o) = member_texts o
                /\ forallb (fun kv => clean (snd kv)) (scrub_members o) = true).
    { induction IH as [|[k x] r (Hs & Hc) _ (Hm & Hcl)]; [split; reflexivity|].
      cbn [snd] in Hs, Hc.
      destruct x as [| |b|n|s|l|o0]; [exact (conj Hm Hcl)| | | | | |];
        match goal with
        | |- context [scrub_members ((_, ?x) :: _)] =>
            destruct (serialize_defined x ltac:(discriminate)) as (t & Ht);
            cbn [scrub_members member_texts forallb snd];
            rewrite Hs, Ht, Hm, Hcl, andb_true_r;
            split; [reflexivity | apply Hc; discriminate]
        end. }
    destruct H as (Hm & Hcl). rewrite Hm. split; [reflexivity | now intros _].
Qed.

Lemma stringify_scrub (ev : props) : stringify (scrub_event ev) = stringify ev.
Proof.
  unfold stringify, scrub_event. rewrite scrub_object.
  pose proof (proj1 (scrub_spec (VObj ev))) as H. rewrite scrub_object in H.
  now rewrite H.
Qed.

Lemma clean_scrub_event (ev : props) : clean_event (scrub_event ev) = true.
Proof.
  unfold clean_event, scrub_event. rewrite scrub_object.
  pose proof (proj2 (scrub_spec (VObj ev))) as H. rewrite scrub_object in H.
  apply H. discriminate.
Qed.

(** The same for events with [undefined] values in them: the text
    reads back as what [JSON.stringify] keeps of each event. *)
Lemma parse_event_lines_kept (e : props) (r : list props) :
  parses_as_events
    ("[" +:+ stringify e +:+ sep_tail ",
" (map stringify r) +:+ "]")
    (map scrub_event (e :: r)).
Proof.
  cbn [map]. rewrite <- (stringify_scrub e).
  replace (map stringify r) with (map stringify (map scrub_event r)).
  - apply parse_event_lines. cbn [forallb]. rewrite clean_scrub_event.
    cbn [andb]. induction r as [|x r IH]; [reflexivity|].
    cbn [map forallb]. now rewrite clean_scrub_event, IH.
  - rewrite map_map. apply map_ext. intros x. apply stringify_scrub.
Qed.

End reader.

(** ** Property lists *)

Lemma lookup_set (o : props) (k k' : string) (v : value) :
  lookup_prop k' (JS.set o k v) =
    if String.eqb k' k then Some v else lookup_prop k' o.
Proof.
  induction o as [|[k0 v0] r IH]; cbn [JS.set lookup_prop].
  - reflexivity.
  - destruct (String.eqb_spec k k0) as [->|Hk]; cbn [lookup_prop].
    + destruct (String.eqb_spec k' k0); reflexivity.
    + destruct (String.eqb_spec k' k0) as [->|Hk'].
      * destruct (String.eqb_spec k0 k); [congruence | reflexivity].
      * exact IH.
Qed.

Lemma get_set_eq (o : props) (k : string) (v : value) : get (JS.set o k v) k = v.
Proof. unfold get. now rewrite lookup_set, String.eqb_refl. Qed.

Lemma get_set_ne (o : props) (k k' : string) (v : value) :
  k' <> k -> get (JS.set o k v) k' = get o k'.
Proof.
  intros Hk. unfold get. rewrite lookup_set.
  destruct (String.eqb_spec k' k); [congruence | reflexivity].
Qed.

Lemma has_set (o : props) (k k' : string) (v : value) :
  has (JS.set o k v) k' = String.eqb k' k || has o k'.
Proof.
  unfold has. rewrite lookup_set. now destruct (String.eqb k' k).
Qed.

Lemma lookup_put (o : props) (k k' : string) (v : value) :
  lookup_prop k' (put o k v) =
    if String.eqb k "__proto__" then lookup_prop k' o
    else if String.eqb k' k then Some v else lookup_prop k' o.
Proof. unfold put. destruct (String.eqb k "__proto__"); [reflexivity | apply lookup_set]. Qed.

Lemma get_put_eq (o : props) (k : string) (v : value) :
  k <> "__proto__" -> get (put o k v) k = v.
Proof.
  intros Hk. unfold get. rewrite lookup_put, String.eqb_refl.
  now destruct (String.eqb_spec k "__proto__").
Qed.

Lemma get_put_ne (o : props) (k k' : string) (v : value) :
  k' <> k -> get (put o k v) k' = get o k'.
Proof.
  intros Hk. unfold get. rewrite lookup_put.
  destruct (String.eqb k "__proto__"); [reflexivity|].
  destruct (String.eqb_spec k' k); [congruence | reflexivity].
Qed.

(** An assignment never takes a property away, and never makes one
    named [__proto__]. *)
Lemma has_set_kept (o : props) (k k' : string) (v : value) :
  has o k' = true -> has (JS.set o k v) k' = true.
Proof. intros H. rewrite has_set, H. apply orb_true_r. Qed.

Lemma has_put_kept (o : props) (k k' : string) (v : value) :
  has o k' = true -> has (put o k v) k' = true.
Proof.
  intros H. unfold put. destruct (String.eqb k "__proto__"); [exact H|].
  now apply has_set_kept.
Qed.

Lemma lookup_put_proto (o : props) (k : string) (v : value) :
  lookup_prop "__proto__" (put o k v) = lookup_prop "__proto__" o.
Proof.
  rewrite lookup_put. destruct (String.eqb_spec k "__proto__") as [->|Hk]; [reflexivity|].
  destruct (String.eqb_spec "__proto__" k); [congruence | reflexivity].
Qed.

Lemma has_keys (o : props) (k : string) :
  has o k = true <-> In k (map fst o).
Proof.
  unfold has. induction o as [|[k0 v0] r IH]; cbn [lookup_prop map fst In].
  - split; [discriminate | contradiction].
  - destruct (String.eqb_spec k k0) as [->|Hk].
    + split; auto.
    + rewrite IH. split; [auto | intros [H|H]; [congruence | exact H]].
Qed.

Lemma lookup_prop_None (o : props) (k : string) :
  ~ In k (map fst o) -> lookup_prop k o = None.
Proof.
  intros Hk. pose proof (has_keys o k) as H. unfold has in H.
  destruct (lookup_prop k o); [|reflexivity].
  exfalso. apply Hk, H. reflexivity.
Qed.

(** [Object.assign]: a key of the source holds the source's value, any
    other key is left as it was. *)
Lemma lookup_assign (target o : props) (k : string) :
  NoDup (map fst o) ->
  lookup_prop k (assign target (VObj o)) =
    match lookup_prop k o with
    | Some v => Some v
    | None => lookup_prop k target
    end.
Proof.
  unfold assign. cbn [own_props]. revert target.
  induction o as [|[k0 v0] r IH]; intros target Hnd; [reflexivity|].
  cbn [map fst] in Hnd. apply NoDup_cons in Hnd as [Hk0 Hnd].
  cbn [fold_left fst snd lookup_prop]. rewrite (IH _ Hnd), lookup_set.
  destruct (String.eqb_spec k k0) as [->|Hk]; [|reflexivity].
  rewrite lookup_prop_None; [reflexivity|].
  intros Hin. apply Hk0. now apply list_elem_of_In.
Qed.

(** [join] on a list of strings: the strings in order, commas between. *)
Lemma array_join_strings (l : list string) (sep : string) :
  array_join (map VStr l) sep = concat_sep sep l.
Proof.
  unfold array_join. rewrite map_map. cbn [join_elem to_string].
  now rewrite map_id.
Qed.

(** ** The event record of a call (TypeScript variant) *)

Section event.
Import TraceEvent.

Lemma copy_key_thrown (f : value) (ks : list string) (e : error) :
  fold_left (copy_key f) ks (Throw e) = Throw e.
Proof. induction ks as [|k r IH]; [reflexivity | exact IH]. Qed.

(** The loop over the keys of the argument: a key it does not meet is
    left as it was, a key it meets holds the argument's value
    ([__proto__] apart, which makes no property), and [cat] the joined
    list. *)
Lemma copy_keys_spec (f : value) (ks : list string) (ev0 ev : props) :
  fold_left (copy_key f) ks (Ok ev0) = Ok ev ->
  (forall k, ~ In k ks -> lookup_prop k ev = lookup_prop k ev0)
  /\ (forall k, In k ks -> k <> "cat" -> k <> "__proto__" -> get ev k = get_prop f k)
  /\ (In "cat" ks ->
      exists l, get_prop f "cat" = VArr l /\ get ev "cat" = VStr (array_join l ",")).
Proof.
  revert ev0. induction ks as [|k0 r IH]; intros ev0 H.
  - cbn in H. injection H as <-. repeat split; try contradiction; auto.
  - cbn [fold_left] in H. unfold copy_key at 2 in H. cbn [mbind result_bind] in H.
    destruct (String.eqb_spec k0 "cat") as [->|Hk0].
    + destruct (get_prop f "cat") as [| | | | |l|] eqn:Hcat; cbn in H;
        try (rewrite copy_key_thrown in H; discriminate H).
      destruct (IH _ H) as (Ha & Hb & Hc). repeat split.
      * intros k Hk. rewrite (Ha k) by (intros ?; apply Hk; now right).
        rewrite lookup_set. destruct (String.eqb_spec k "cat") as [->|]; [|reflexivity].
        exfalso. apply Hk. now left.
      * intros k [<-|Hk] Hne Hnp; [congruence | now apply Hb].
      * intros _. exists l. split; [reflexivity|].
        destruct (in_dec string_dec "cat" r) as [Hin|Hin].
        -- destruct (Hc Hin) as (l' & Hl' & Hg). congruence.
        -- unfold get. rewrite (Ha "cat" Hin). fold (get (JS.set ev0 "cat" (VStr (array_join l ","))) "cat").
           apply get_set_eq.
    + cbv iota in H. destruct (IH _ H) as (Ha & Hb & Hc). repeat split.
      * intros k Hk. rewrite (Ha k) by (intros ?; apply Hk; now right).
        rewrite lookup_put. destruct (String.eqb k0 "__proto__"); [reflexivity|].
        destruct (String.eqb_spec k k0) as [->|]; [|reflexivity].
        exfalso. apply Hk. now left.
      * intros k Hk Hne Hnp. destruct (in_dec string_dec k r) as [Hin|Hin];
          [now apply Hb|].
        destruct Hk as [<-|Hk]; [|contradiction].
        unfold get at 1. rewrite (Ha k0 Hin).
        fold (get (put ev0 k0 (get_prop f k0)) k0). now apply get_put_eq.
      * intros [Heq|Hin]; [congruence | now apply Hc].
Qed.

(** The loop takes no property away and makes none named [__proto__]. *)
Lemma copy_keys_kept (f : value) (ks : list string) (ev0 ev : props) :
  fold_left (copy_key f) ks (Ok ev0) = Ok ev ->
  (forall k, has ev0 k = true -> has ev k = true)
  /\ lookup_prop "__proto__" ev = lookup_prop "__proto__" ev0.
Proof.
  revert ev0. induction ks as [|k0 r IH]; intros ev0 H.
  - cbn in H. injection H as <-. split; auto.
  - cbn [fold_left] in H. unfold copy_key at 2 in H. cbn [mbind result_bind] in H.
    destruct (String.eqb_spec k0 "cat") as [->|Hk0].
    + destruct (get_prop f "cat") as [| | | | |l|] eqn:Hcat; cbn in H;
        try (rewrite copy_key_thrown in H; discriminate H).
      destruct (IH _ H) as (Hh & Hp). split.
      * intros k Hk. apply Hh. now apply has_set_kept.
      * rewrite Hp. now rewrite lookup_set.
    + cbv iota in H. destruct (IH _ H) as (Hh & Hp). split.
      * intros k Hk. apply Hh. now apply has_put_kept.
      * rewrite Hp. apply lookup_put_proto.
Qed.

(** The loop ends without a throw when [cat], if it is a key at all,
    is an array. *)
Lemma copy_keys_ok (f : value) (ks : list string) (ev0 : props) :
  (In "cat" ks -> exists l, get_prop f "cat" = VArr l) ->
  exists ev, fold_left (copy_key f) ks (Ok ev0) = Ok ev.
Proof.
  revert ev0. induction ks as [|k0 r IH]; intros ev0 Hcat.
  - now exists ev0.
  - cbn [fold_left]. unfold copy_key at 2. cbn [mbind result_bind].
    destruct (String.eqb_spec k0 "cat") as [->|Hk0].
    + destruct Hcat as (l & Hl); [now left|]. rewrite Hl. cbn.
      apply IH. intros _. now exists l.
    + apply IH. intros Hin. apply Hcat. now right.
Qed.

(** And it throws when [cat] is a key and not an array. *)
Lemma copy_keys_throw (f : value) (ks : list string) (ev0 : props) :
  In "cat" ks -> isArray (get_prop f "cat") = false ->
  fold_left (copy_key f) ks (Ok ev0) = Throw TypeError.
Proof.
  revert ev0. induction ks as [|k0 r IH]; intros ev0 Hin Harr; [contradiction|].
  cbn [fold_left]. unfold copy_key at 2. cbn [mbind result_bind].
  destruct (String.eqb_spec k0 "cat") as [->|Hk0].
  - destruct (get_prop f "cat"); cbn in Harr |- *;
      try discriminate Harr; apply copy_key_thrown.
  - apply IH; [|exact Harr]. destruct Hin as [Heq|Hin]; [congruence | exact Hin].
Qed.

Lemma make_event_mapping (ph : string) (f : value) (now : clock) :
  truthy f = true -> String.eqb (typeof f) "string" = false ->
  make_event ph f now =
    fold_left (copy_key f) (keys f) (Ok (JS.set (evCommon now) "ph" (VStr ph))).
Proof. intros Ht Hs. unfold make_event. now rewrite Ht, Hs. Qed.

End event.

(** ** The event record of a call in lib/trace-event.js *)

Section legacy_event.

(** A loop that assigns every key of [ks] its value under [val]. *)
Lemma lookup_fold_put (val : string -> value) (ks : list string) (ev0 : props)
    (k : string) :
  lookup_prop k (fold_left (fun e k' => put e k' (val k')) ks ev0) =
    if String.eqb k "__proto__" then lookup_prop k ev0
    else if in_dec string_dec k ks then Some (val k) else lookup_prop k ev0.
Proof.
  revert ev0. induction ks as [|k0 r IH]; intros ev0.
  - cbn. now destruct (String.eqb k "__proto__").
  - cbn [fold_left]. rewrite IH. destruct (String.eqb k "__proto__") eqn:Ep.
    + apply String.eqb_eq in Ep. rewrite Ep. apply lookup_put_proto.
    + rewrite lookup_put.
      destruct (in_dec string_dec k r) as [Hr|Hr];
        destruct (in_dec string_dec k (k0 :: r)) as [Hk|Hk]; try reflexivity.
      * exfalso. apply Hk. now right.
      * destruct Hk as [E|Hk]; [|contradiction]. rewrite E, Ep.
        now rewrite String.eqb_refl.
      * destruct (String.eqb k0 "__proto__"); [reflexivity|].
        destruct (String.eqb_spec k k0) as [E|]; [|reflexivity].
        exfalso. apply Hk. left. congruence.
Qed.

Lemma has_fold_put (val : string -> value) (ks : list string) (ev0 : props)
    (k : string) :
  has ev0 k = true -> has (fold_left (fun e k' => put e k' (val k')) ks ev0) k = true.
Proof.
  revert ev0. induction ks as [|k0 r IH]; intros ev0 H; [exact H|].
  cbn [fold_left]. apply IH. now apply has_put_kept.
Qed.

(** The stamp with the Tracer's FieldSet over it. *)
Lemma legacy_defaults (ph : string) (own : props) (now : clock) (k : string) :
  k <> "__proto__" ->
  get (fold_left (fun e k' => put e k' (get own k')) (map fst own)
                 (JS.set (evCommon now) "ph" (VStr ph))) k =
    if has own k then get own k
    else get (JS.set (evCommon now) "ph" (VStr ph)) k.
Proof.
  intros Hp. unfold get at 1. rewrite lookup_fold_put.
  destruct (String.eqb_spec k "__proto__"); [congruence|].
  destruct (in_dec string_dec k (map fst own)) as [Hk|Hk].
  - apply has_keys in Hk. now rewrite Hk.
  - destruct (has own k) eqn:Hh; [|reflexivity].
    exfalso. apply Hk. now apply has_keys.
Qed.

(** A key the argument leaves alone holds the FieldSet's value, or the
    stamp when the FieldSet has no such key. *)
Lemma legacy_event_default (ph : string) (own : props) (g : value) (now : clock)
    (ev : props) (k : string) :
  Legacy.make_event ph own g now = Ok ev ->
  TraceEvent.untouched g k -> k <> "name" -> k <> "__proto__" ->
  get ev k = if has own k then get own k
             else get (JS.set (evCommon now) "ph" (VStr ph)) k.
Proof.
  unfold Legacy.make_event. intros H Hk Hname Hproto.
  rewrite <- (legacy_defaults ph own now k Hproto).
  set (ev1 := fold_left (fun e k' => put e k' (get own k')) (map fst own)
                        (JS.set (evCommon now) "ph" (VStr ph))) in *.
  destruct (truthy g) eqn:Ht; [|congruence].
  destruct (String.eqb (typeof g) "string") eqn:Hs.
  - replace ev with (JS.set ev1 "name" g) by congruence. now apply get_set_ne.
  - destruct Hk as [Hk|[Hk|Hk]]; try congruence.
    assert (Hcopy : get (fold_left (fun e k' => put e k' (get_prop g k')) (keys g) ev1) k
                    = get ev1 k).
    { unfold get. rewrite lookup_fold_put.
      destruct (String.eqb k "__proto__"); [reflexivity|].
      now destruct (in_dec string_dec k (keys g)). }
    destruct (truthy (get_prop g "cat")) eqn:Hcat.
    + destruct (get_prop g "cat") as [| | | | |l|] eqn:Hg; try discriminate H.
      cbn in H. injection H as <-.
      destruct (String.eqb_spec k "cat") as [->|Hne].
      * exfalso. unfold get_prop in Hg.
        assert (Hhas : has (own_props g) "cat" = false).
        { destruct (has (own_props g) "cat") eqn:E; [|reflexivity].
          exfalso. apply Hk. now apply has_keys. }
        unfold has in Hhas. unfold get in Hg.
        destruct (lookup_prop "cat" (own_props g)); discriminate.
      * now rewrite get_set_ne.
    + injection H as <-. exact Hcopy.
Qed.

(** The FieldSet the constructor stores has a [cat] and an [args], and
    neither is [null] or [undefined]. *)
Lemma overlay_cat_args (base : props) (f : value) :
  not_nullish (get (Legacy.overlay base f) "cat") = true
  /\ not_nullish (get (Legacy.overlay base f) "args") = true
  /\ has (Legacy.overlay base f) "cat" = true
  /\ has (Legacy.overlay base f) "args" = true.
Proof.
  unfold Legacy.overlay.
  set (o1 := if truthy f then assign base f else base).
  set (o2 := if negb (truthy (get o1 "cat")) then JS.set o1 "cat" (VStr "default")
             else match get o1 "cat" with
                  | VArr l => JS.set o1 "cat" (VStr (array_join l ","))
                  | _ => o1
                  end).
  assert (Hcat : not_nullish (get o2 "cat") = true /\ has o2 "cat" = true).
  { unfold o2. destruct (truthy (get o1 "cat")) eqn:Ht; cbn [negb].
    - unfold get, has in *. destruct (lookup_prop "cat" o1) as [v|] eqn:Hl;
        [|discriminate Ht].
      destruct v; try discriminate Ht; try (rewrite Hl; split; reflexivity).
      fold (get (JS.set o1 "cat" (VStr (array_join l ","))) "cat").
      fold (has (JS.set o1 "cat" (VStr (array_join l ","))) "cat").
      rewrite get_set_eq, has_set. split; reflexivity.
    - rewrite get_set_eq, has_set. split; reflexivity. }
  destruct Hcat as (Hc1 & Hc2).
  destruct (truthy (get o2 "args")) eqn:Ha; cbn [negb].
  - refine (conj Hc1 (conj _ (conj Hc2 _))).
    + destruct (get o2 "args"); try discriminate Ha; reflexivity.
    + unfold get, has in *. destruct (lookup_prop "args" o2); [reflexivity|discriminate Ha].
  - rewrite get_set_ne by discriminate. rewrite get_set_eq, !has_set, Hc2.
    split; [exact Hc1 | repeat split; reflexivity].
Qed.

(** A key of the argument holds the argument's value, [cat] and
    [__proto__] apart. *)
Lemma legacy_event_argument (ph : string) (own : props) (g : value) (now : clock)
    (ev : props) (k : string) :
  Legacy.make_event ph own g now = Ok ev ->
  truthy g = true -> String.eqb (typeof g) "string" = false ->
  In k (keys g) -> k <> "cat" -> k <> "__proto__" ->
  get ev k = get_prop g k.
Proof.
  unfold Legacy.make_event. intros H Ht Hs Hk Hne Hproto. rewrite Ht, Hs in H.
  set (ev1 := fold_left (fun e k' => put e k' (get own k')) (map fst own)
                        (JS.set (evCommon now) "ph" (VStr ph))) in *.
  assert (Hcopy : get (fold_left (fun e k' => put e k' (get_prop g k')) (keys g) ev1) k
                  = get_prop g k).
  { unfold get at 1. rewrite lookup_fold_put.
    destruct (String.eqb_spec k "__proto__"); [congruence|].
    now destruct (in_dec string_dec k (keys g)). }
  destruct (truthy (get_prop g "cat")).
  - destruct (get_prop g "cat"); try discriminate H.
    cbn in H. injection H as <-. now rewrite get_set_ne.
  - injection H as <-. exact Hcopy.
Qed.

(** An event has the four stamped members whatever the FieldSet and the
    argument are, and no member named [__proto__]. *)
Lemma legacy_event_members (ph : string) (own : props) (g : value) (now : clock)
    (ev : props) :
  Legacy.make_event ph own g now = Ok ev ->
  (forall k, has (JS.set (evCommon now) "ph" (VStr ph)) k = true -> has ev k = true)
  /\ has ev "__proto__" = false.
Proof.
  unfold Legacy.make_event. intros H.
  set (ev0 := JS.set (evCommon now) "ph" (VStr ph)) in *.
  set (ev1 := fold_left (fun e k' => put e k' (get own k')) (map fst own) ev0) in *.
  set (ev2 := fold_left (fun e k' => put e k' (get_prop g k')) (keys g) ev1) in *.
  assert (H1 : (forall k, has ev0 k = true -> has ev1 k = true)
               /\ has ev1 "__proto__" = false).
  { split; [intros k Hk; now apply has_fold_put|].
    unfold has, ev1. rewrite lookup_fold_put. reflexivity. }
  assert (H2 : (forall k, has ev0 k = true -> has ev2 k = true)
               /\ has ev2 "__proto__" = false).
  { destruct H1 as (Ha & Hb). split; [intros k Hk; now apply has_fold_put, Ha|].
    unfold has, ev2. rewrite lookup_fold_put. exact Hb. }
  destruct H1 as (H1a & H1b), H2 as (H2a & H2b).
  destruct (truthy g); [|injection H as <-; now split].
  destruct (String.eqb (typeof g) "string").
  - injection H as <-. split; [intros k Hk; now apply has_set_kept, H1a|].
    now rewrite has_set, H1b.
  - destruct (truthy (get_prop g "cat")); [|injection H as <-; now split].
    destruct (get_prop g "cat"); try discriminate H. cbn in H. injection H as <-.
    split; [intros k Hk; now apply has_set_kept, H2a|]. now rewrite has_set, H2b.
Qed.

Lemma overlay_other (base : props) (f : value) (k : string) :
  k <> "cat" -> k <> "args" ->
  lookup_prop k (Legacy.overlay base f) =
    lookup_prop k (if truthy f then assign base f else base).
Proof.
  intros Hc Ha. unfold Legacy.overlay.
  set (o1 := if truthy f then assign base f else base).
  assert (Hne : forall k', k <> k' -> String.eqb k k' = false).
  { intros k' Hk. now destruct (String.eqb_spec k k'). }
  assert (H2 : lookup_prop k
                 (if negb (truthy (get o1 "cat")) then JS.set o1 "cat" (VStr "default")
                  else match get o1 "cat" with
                       | VArr l => JS.set o1 "cat" (VStr (array_join l ","))
                       | _ => o1
                       end) = lookup_prop k o1).
  { destruct (negb (truthy (get o1 "cat"))).
    - now rewrite lookup_set, Hne.
    - destruct (get o1 "cat"); try reflexivity. now rewrite lookup_set, Hne. }
  destruct (negb (truthy (get _ "args"))); [|exact H2].
  now rewrite lookup_set, Hne.
Qed.

End legacy_event.

(** ** The store of the TypeScript Tracer *)

Section store.
Import TraceEvent.

Lemma update_tracer_lookup (a : addr) (f : Tracer -> Tracer) (h : heap) (t : Tracer) :
  tracers h !! a = Some t ->
  tracers (update_tracer a f h) !! a = Some (f t).
Proof.
  intros Ha. unfold update_tracer. rewrite Ha. cbn [tracers].
  apply list_lookup_insert_eq. now apply lookup_lt_Some in Ha.
Qed.

Lemma update_tracer_other (a b : addr) (f : Tracer -> Tracer) (h : heap) :
  a <> b -> tracers (update_tracer a f h) !! b = tracers h !! b.
Proof.
  intros Hab. unfold update_tracer. destruct (tracers h !! a); [|reflexivity].
  cbn [tracers]. now apply list_lookup_insert_ne.
Qed.

Lemma update_tracer_objects (a : addr) (f : Tracer -> Tracer) (h : heap) :
  objects (update_tracer a f h) = objects h.
Proof. unfold update_tracer. now destruct (tracers h !! a). Qed.

Lemma update_tracer_twice (a : addr) (f g : Tracer -> Tracer) (h : heap) :
  update_tracer a f (update_tracer a g h) = update_tracer a (fun t => f (g t)) h.
Proof.
  destruct (tracers h !! a) as [t|] eqn:Ha.
  - unfold update_tracer at 1. rewrite (update_tracer_lookup a g h t Ha).
    unfold update_tracer. rewrite Ha. cbn [tracers objects].
    now rewrite list_insert_insert_eq.
  - unfold update_tracer. rewrite Ha. now rewrite Ha.
Qed.

Lemma update_tracer_ext (a : addr) (f g : Tracer -> Tracer) (h : heap) :
  (forall t, tracers h !! a = Some t -> f t = g t) ->
  update_tracer a f h = update_tracer a g h.
Proof.
  intros Hfg. unfold update_tracer. destruct (tracers h !! a) as [t|] eqn:Ha;
    [|reflexivity]. now rewrite (Hfg t eq_refl).
Qed.

Lemma _pushString_update (a : addr) (ev : props) (h : heap) :
  _pushString a ev h = update_tracer a (string_pushed ev) h.
Proof.
  unfold _pushString, first_pushed.
  destruct (tracers h !! a) as [t|] eqn:Ha.
  - destruct (firstPush t) eqn:Hf; cbn [negb].
    + unfold push. apply update_tracer_ext. intros t' Ht'.
      assert (t' = t) as -> by congruence.
      destruct t; cbn in Hf; subst. reflexivity.
    + unfold push, set_firstPush. rewrite !update_tracer_twice.
      apply update_tracer_ext. intros t' Ht'.
      assert (t' = t) as -> by congruence.
      destruct t; cbn in Hf; subst. unfold string_pushed. cbn.
      now rewrite <- app_assoc.
  - cbn [negb]. unfold push, set_firstPush, update_tracer.
    rewrite Ha. cbn. rewrite Ha. cbn. now rewrite Ha.
Qed.

Lemma call_update (f : fn) (this : addr) (ev : props) (h : heap) :
  call f this ev h = update_tracer (receiver_of f this) (delivered f ev) h.
Proof.
  revert this. induction f as [| |g IH r]; intros this; cbn [call receiver_of].
  - reflexivity.
  - apply _pushString_update.
  - apply IH.
Qed.

Lemma phase_method_code (p : phase) : phase_method p = mkEventFunc (phase_code p).
Proof. destruct p; reflexivity. Qed.

Lemma step_deliver (this : addr) (h : heap) (c : method_call) :
  step this h c =
    match make_event (phase_code (call_phase c)) (call_fields c) (call_now c) with
    | Ok ev => deliver this ev h
    | Throw _ => h
    end.
Proof.
  unfold step. rewrite phase_method_code. unfold mkEventFunc.
  now destruct (make_event _ _ _).
Qed.

(** A run delivers the events its calls construct, in order. *)
Lemma run_constructed (this : addr) (calls : list method_call) (h : heap) :
  run this calls h =
    fold_left (fun h' ev => deliver this ev h') (constructed calls) h.
Proof.
  unfold run. revert h. induction calls as [|c r IH]; intros h; [reflexivity|].
  cbn [fold_left constructed]. rewrite step_deliver.
  destruct (make_event _ _ _); cbn [fold_left]; apply IH.
Qed.

Lemma string_pushed_all (evs : list props) (t : Tracer) :
  fold_left (fun t' ev => string_pushed ev t') evs t =
    mkTracer (parent t) (fields t) (noStream t) (events t) (_objectMode t)
             (firstPush t || match evs with [] => false | _ => true end)
             (_push t) (buffer t ++ frame_chunks (firstPush t) evs).
Proof.
  revert t. induction evs as [|e r IH]; intros t.
  - destruct t. cbn. now rewrite orb_false_r, app_nil_r.
  - cbn [fold_left]. rewrite IH. destruct t as [p f n es om [] pf b];
      unfold string_pushed; cbn; rewrite <- app_assoc; reflexivity.
Qed.

(** Delivery through a Tracer that streams, and through one that
    buffers. *)
Lemma deliver_stream (this : addr) (ev : props) (h : heap) (t : Tracer) :
  tracers h !! this = Some t -> truthy (noStream t) = false ->
  deliver this ev h =
    update_tracer (receiver_of (_push t) this) (delivered (_push t) ev) h.
Proof.
  intros Ht Hn. unfold deliver, call_push. rewrite Ht, Hn. cbn [negb].
  apply call_update.
Qed.

Lemma deliver_buffer (this : addr) (ev : props) (h : heap) (t : Tracer) :
  tracers h !! this = Some t -> truthy (noStream t) = true ->
  deliver this ev h = append_event this ev h.
Proof. intros Ht Hn. unfold deliver. now rewrite Ht, Hn. Qed.

Lemma call_push_all_text (r : addr) (evs : list props) (h : heap) (t : Tracer) :
  tracers h !! r = Some t -> _push t = FnPushString ->
  fold_left (fun h' ev => call_push r ev h') evs h =
    update_tracer r (fun t' => fold_left (fun t'' ev => string_pushed ev t'') evs t') h.
Proof.
  revert h t. induction evs as [|e l IH]; intros h t Ht Hp.
  - cbn [fold_left]. unfold update_tracer. rewrite Ht.
    destruct h as [ts os]. cbn in *. now rewrite list_insert_id.
  - cbn [fold_left]. unfold call_push at 2. rewrite Ht, Hp. cbn [call].
    rewrite _pushString_update.
    rewrite (IH _ (string_pushed e t)).
    + now rewrite update_tracer_twice.
    + now apply update_tracer_lookup.
    + unfold string_pushed. now destruct (firstPush t).
Qed.

Lemma deliver_all_text (r : addr) (evs : list props) (h : heap) (t : Tracer) :
  tracers h !! r = Some t -> _push t = FnPushString ->
  truthy (noStream t) = false ->
  fold_left (fun h' ev => deliver r ev h') evs h =
    update_tracer r (fun t' => fold_left (fun t'' ev => string_pushed ev t'') evs t') h.
Proof.
  revert h t. induction evs as [|e l IH]; intros h t Ht Hp Hn.
  - cbn [fold_left]. unfold update_tracer. rewrite Ht.
    destruct h as [ts os]. cbn in *. now rewrite list_insert_id.
  - cbn [fold_left]. rewrite (deliver_stream r e h t Ht Hn), Hp.
    cbn [receiver_of]. unfold delivered. cbn [target_of].
    rewrite (IH _ (string_pushed e t)).
    + now rewrite update_tracer_twice.
    + now apply update_tracer_lookup.
    + unfold string_pushed. now destruct (firstPush t).
    + unfold string_pushed. now destruct (firstPush t).
Qed.

Lemma text_of_app (a b : list chunk) : text_of (a ++ b) = text_of a +:+ text_of b.
Proof.
  induction a as [|[s|ev] a IH]; cbn [app text_of]; [reflexivity| |exact IH].
  now rewrite IH, append_assoc.
Qed.

Lemma text_of_frame_started (evs : list props) :
  text_of (frame_chunks true evs) = Json.sep_tail ",
" (map Json.stringify evs).
Proof.
  induction evs as [|e r IH]; [reflexivity|].
  cbn [frame_chunks map Json.sep_tail app text_of]. rewrite IH.
  now rewrite !append_assoc.
Qed.

Lemma text_of_frame (e : props) (evs : list props) :
  text_of (frame_chunks false (e :: evs)) =
    "[" +:+ Json.stringify e +:+ Json.sep_tail ",
" (map Json.stringify evs).
Proof.
  cbn [frame_chunks app text_of]. now rewrite text_of_frame_started.
Qed.

Lemma buffer_of_update (a : addr) (f : Tracer -> Tracer) (h : heap) (t : Tracer) :
  tracers h !! a = Some t -> buffer_of (update_tracer a f h) a = buffer (f t).
Proof.
  intros Ht. unfold buffer_of. now rewrite (update_tracer_lookup a f h t Ht).
Qed.

Lemma _flush_text (r : addr) (h : heap) (t : Tracer) :
  tracers h !! r = Some t -> _objectMode t <> Some true ->
  _flush r h = update_tracer r (pushed (ChunkStr "]")) h.
Proof.
  intros Ht Hom. unfold _flush. rewrite Ht.
  destruct (_objectMode t) as [[]|]; try reflexivity. congruence.
Qed.

Lemma deliver_all_buffer (r : addr) (evs : list props) (h : heap) (t : Tracer) :
  tracers h !! r = Some t -> truthy (noStream t) = true ->
  fold_left (fun h' ev => deliver r ev h') evs h = update_tracer r (buffered evs) h.
Proof.
  revert h t. induction evs as [|e l IH]; intros h t Ht Hn.
  - cbn [fold_left]. unfold update_tracer. rewrite Ht.
    destruct h as [ts os]. cbn in *. unfold buffered. rewrite app_nil_r.
    destruct t. cbn. now rewrite list_insert_id.
  - cbn [fold_left]. rewrite (deliver_buffer r e h t Ht Hn). unfold append_event.
    rewrite (IH _ (buffered [e] t)).
    + rewrite update_tracer_twice. apply update_tracer_ext. intros t0 _.
      unfold buffered. cbn. now rewrite <- app_assoc.
    + now apply (update_tracer_lookup r _ h t).
    + exact Hn.
Qed.

(** [flush] on a text-mode Tracer in buffered mode: every buffered event
    goes through [_pushString], then the closing bracket. *)
Lemma flush_buffered_text (r : addr) (h : heap) (t : Tracer) :
  tracers h !! r = Some t -> _push t = FnPushString ->
  _objectMode t = Some false -> noStream t = VBool true ->
  flush r h =
    update_tracer r
      (fun t' => pushed (ChunkStr "]")
                   (fold_left (fun t'' ev => string_pushed ev t'') (events t) t')) h.
Proof.
  intros Ht Hp Hom Hn. unfold flush. rewrite Ht, Hn.
  rewrite (call_push_all_text r (events t) h t Ht Hp).
  rewrite (_flush_text r _ (fold_left (fun t'' ev => string_pushed ev t'') (events t) t)).
  - now rewrite update_tracer_twice.
  - now apply (update_tracer_lookup r _ h t).
  - rewrite string_pushed_all. cbn. rewrite Hom. discriminate.
Qed.

(** *** What the constructor allocates *)

Lemma new_Tracer_alloc (arg : ctor_arg) (h : heap) (a : addr) (h' : heap) :
  new_Tracer arg h = Ok (a, h') ->
  exists (o : TracerOptions) (t : Tracer) (fset : props),
    validate arg = Ok o
    /\ a = length (tracers h)
    /\ tracers h' = tracers h ++ [t]
    /\ objects h' = objects h ++ [fset]
    /\ fields t = length (objects h)
    /\ events t = [] /\ buffer t = [] /\ firstPush t = false
    /\ noStream t = (if truthy (opt_noStream o) then opt_noStream o else VBool false)
    /\ match opt_parent o with
       | PTracer p =>
           exists pt, tracers h !! p = Some pt
             /\ parent t = Some p /\ _push t = FnBound (_push pt) p
             /\ _objectMode t = None
             /\ fset = overlay (assign [] (VObj (fields_of h p))) (opt_fields o)
       | PValue v =>
           truthy v = false /\ parent t = None
           /\ _objectMode t = Some (truthy (opt_objectMode o))
           /\ _push t = (if truthy (opt_objectMode o) then FnPush else FnPushString)
           /\ fset = overlay [] (opt_fields o)
       end.
Proof.
  unfold new_Tracer. destruct (validate arg) as [o|e] eqn:Hv; [|discriminate].
  cbn [mbind result_bind]. destruct (opt_parent o) as [p|v] eqn:Hpar.
  - destruct (tracers h !! p) as [pt|] eqn:Hp; [|discriminate].
    intros H. injection H as <- <-. eexists o, _, _. rewrite Hpar.
    repeat split; try reflexivity. exists pt. repeat split; reflexivity || exact Hp.
  - destruct (truthy v) eqn:Htv; [discriminate|].
    intros H. injection H as <- <-. eexists o, _, _. rewrite Hpar.
    repeat split; reflexivity || exact Htv.
Qed.

Lemma lookup_last {A : Type} (l : list A) (x : A) : (l ++ [x]) !! length l = Some x.
Proof. rewrite lookup_app_r by lia. now rewrite Nat.sub_diag. Qed.

Lemma new_Tracer_kept (arg : ctor_arg) (h : heap) (a : addr) (h' : heap) (b : addr) (t : Tracer) :
  new_Tracer arg h = Ok (a, h') -> tracers h !! b = Some t ->
  tracers h' !! b = Some t /\ b <> a.
Proof.
  intros H Hb. destruct (new_Tracer_alloc arg h a h' H) as (o & t' & fset & _ & -> & Ht & _).
  rewrite Ht. pose proof (lookup_lt_Some _ _ _ Hb) as Hlt. split; [|lia].
  now rewrite lookup_app_l.
Qed.

Lemma new_Tracer_objects_kept (arg : ctor_arg) (h : heap) (a : addr) (h' : heap)
    (b : nat) (o : props) :
  new_Tracer arg h = Ok (a, h') -> objects h !! b = Some o -> objects h' !! b = Some o.
Proof.
  intros H Hb. destruct (new_Tracer_alloc arg h a h' H) as (? & ? & fset & _ & _ & _ & Ho & _).
  rewrite Ho. apply lookup_app_l_Some. exact Hb.
Qed.

Lemma validate_options (o o' : TracerOptions) :
  validate (ArgOptions o) = Ok o' -> o' = o.
Proof.
  unfold validate. cbn [mbind result_bind]. intros Hv.
  destruct (opt_parent o) as [p|v]; cbn in Hv;
    repeat match type of Hv with
           | context [if ?c then _ else _] => destruct c; cbn in Hv
           end; congruence.
Qed.

Lemma fields_of_new (h h' : heap) (a : addr) (t : Tracer) (fset : props) :
  a = length (tracers h) ->
  tracers h' = tracers h ++ [t] -> objects h' = objects h ++ [fset] ->
  fields t = length (objects h) ->
  fields_of h' a = fset.
Proof.
  intros -> Ht Ho Hf. unfold fields_of.
  now rewrite Ht, lookup_last, Hf, Ho, lookup_last.
Qed.

(** The FieldSet the constructor stores when [opts.fields] is a mapping
    whose [cat] is a list. *)
Lemma overlay_cat_list (base fo : props) (l : list value) :
  NoDup (map fst fo) -> lookup_prop "cat" fo = Some (VArr l) ->
  get (overlay base (VObj fo)) "cat" = VStr (array_join l ",").
Proof.
  intros Hnd Hcat. unfold overlay. cbn [truthy].
  assert (Hg : get (assign base (VObj fo)) "cat" = VArr l).
  { unfold get. now rewrite (lookup_assign base fo "cat" Hnd), Hcat. }
  rewrite Hg. cbn [truthy negb].
  set (o2 := JS.set (assign base (VObj fo)) "cat" (VStr (array_join l ","))).
  assert (Ho2 : get o2 "cat" = VStr (array_join l ",")) by apply get_set_eq.
  destruct (negb (truthy (get o2 "args"))); [|exact Ho2].
  now rewrite get_set_ne by discriminate.
Qed.

(** *** Delivery to any root *)

Lemma pushed_all (evs : list props) (t : Tracer) :
  fold_left (fun t' ev => pushed (ChunkObj ev) t') evs t =
    mkTracer (parent t) (fields t) (noStream t) (events t) (_objectMode t)
             (firstPush t) (_push t) (buffer t ++ map ChunkObj evs).
Proof.
  revert t. induction evs as [|e r IH]; intros t.
  - destruct t. cbn. now rewrite app_nil_r.
  - cbn [fold_left]. rewrite IH. destruct t. cbn. now rewrite <- app_assoc.
Qed.

Lemma delivered_all (f : fn) (evs : list props) (t : Tracer) :
  fold_left (fun t' ev => delivered f ev t') evs t =
    mkTracer (parent t) (fields t) (noStream t) (events t) (_objectMode t)
             (match target_of f with
              | FnPushString =>
                  firstPush t || match evs with [] => false | _ => true end
              | _ => firstPush t
              end)
             (_push t) (buffer t ++ event_chunks f (firstPush t) evs).
Proof.
  unfold delivered, event_chunks.
  destruct (target_of f); [apply pushed_all | apply string_pushed_all | apply pushed_all].
Qed.

Lemma delivered_push (f : fn) (ev : props) (t : Tracer) :
  _push (delivered f ev t) = _push t.
Proof.
  unfold delivered, string_pushed, pushed.
  destruct (target_of f); try reflexivity. now destruct (firstPush t).
Qed.

Lemma update_tracer_id (a : addr) (h : heap) : update_tracer a (fun t => t) h = h.
Proof.
  unfold update_tracer. destruct (tracers h !! a) eqn:Ha; [|reflexivity].
  destruct h as [ts os]. cbn in *. now rewrite list_insert_id.
Qed.

Lemma call_push_update (c : addr) (ev : props) (h : heap) (t : Tracer) :
  tracers h !! c = Some t ->
  call_push c ev h =
    update_tracer (receiver_of (_push t) c) (delivered (_push t) ev) h.
Proof. intros Hc. unfold call_push. rewrite Hc. apply call_update. Qed.

Lemma call_push_all (r : addr) (evs : list props) (h : heap) (t : Tracer) :
  tracers h !! r = Some t -> receiver_of (_push t) r = r ->
  fold_left (fun h' ev => call_push r ev h') evs h =
    update_tracer r
      (fun t' => fold_left (fun t'' ev => delivered (_push t) ev t'') evs t') h.
Proof.
  revert h t. induction evs as [|e l IH]; intros h t Ht Hr.
  - cbn [fold_left]. now rewrite update_tracer_id.
  - cbn [fold_left]. rewrite (call_push_update r e h t Ht), Hr.
    rewrite (IH _ (delivered (_push t) e t)).
    + rewrite update_tracer_twice, delivered_push. reflexivity.
    + now apply update_tracer_lookup.
    + now rewrite delivered_push.
Qed.

Lemma _flush_closed (r : addr) (h : heap) : _flush r h = update_tracer r closed h.
Proof.
  unfold _flush, push. destruct (tracers h !! r) as [t|] eqn:Ht.
  - destruct (_objectMode t) as [[]|] eqn:Hom.
    + rewrite <- (update_tracer_id r h) at 1. apply update_tracer_ext.
      intros t' Ht'. assert (t' = t) as -> by congruence.
      destruct t; cbn in Hom; subst; reflexivity.
    + apply update_tracer_ext. intros t' Ht'. assert (t' = t) as -> by congruence.
      destruct t; cbn in Hom; subst; reflexivity.
    + apply update_tracer_ext. intros t' Ht'. assert (t' = t) as -> by congruence.
      destruct t; cbn in Hom; subst; reflexivity.
  - unfold update_tracer. now rewrite Ht.
Qed.

(** [flush] on a root in buffered mode, text or object. *)
Lemma flush_buffered (r : addr) (h : heap) (t : Tracer) :
  tracers h !! r = Some t -> receiver_of (_push t) r = r ->
  noStream t = VBool true ->
  flush r h =
    update_tracer r
      (fun t' => closed (fold_left (fun t'' ev => delivered (_push t) ev t'')
                                   (events t) t')) h
  /\ buffer_of (flush r h) r =
       buffer t ++ event_chunks (_push t) (firstPush t) (events t) ++
       closing_chunks (_objectMode t).
Proof.
  intros Ht Hr Hn.
  assert (E : flush r h =
    update_tracer r
      (fun t' => closed (fold_left (fun t'' ev => delivered (_push t) ev t'')
                                   (events t) t')) h).
  { unfold flush. rewrite Ht, Hn. rewrite (call_push_all r (events t) h t Ht Hr).
    now rewrite _flush_closed, update_tracer_twice. }
  split; [exact E|]. rewrite E, (buffer_of_update r _ h t Ht).
  rewrite delivered_all. unfold closed, closing_chunks. cbn [_objectMode].
  destruct (_objectMode t) as [[]|]; cbn [pushed buffer];
    now rewrite <- ?app_assoc, ?app_nil_r.
Qed.

End store.

(** ** Array framing in text mode *)

Section framing.
Import TraceEvent.

Example text_root_constructed :
  new_Tracer (ArgValue VUndef) empty_heap = Ok (0, text_root_heap).
Proof. reflexivity. Qed.

Example buffered_root_constructed :
  new_Tracer (ArgOptions (mkOptions (PValue VUndef) VUndef VUndef (VBool true)))
             empty_heap = Ok (0, buffered_root_heap).
Proof. reflexivity. Qed.

Example sample_calls_constructed :
  constructed sample_calls = [sample_begin; sample_end].
Proof. reflexivity. Qed.

(** C1, as the claim states it, fails: on a fresh text-mode streaming
    root, zero calls followed by the closing step [_flush] leave the lone
    fragment "]", which is no JSON text; and the public [flush] after
    two calls leaves the array unclosed, which is none either. *)
Lemma stream_text_not_always_array :
  text_of (buffer_of (_flush 0 (run 0 [] text_root_heap)) 0) = "]"
  /\ ~ Json.parses_as_events
        (text_of (buffer_of (_flush 0 (run 0 [] text_root_heap)) 0))
        (constructed [])
  /\ ~ Json.parses_as_events
        (text_of (buffer_of (flush 0 (run 0 sample_calls text_root_heap)) 0))
        (constructed sample_calls).
Proof.
  split; [reflexivity|]. split; intros H; vm_compute in H; discriminate H.
Qed.

(** C1, as amended: on a text-mode root that streams and has pushed
    nothing yet, the fragments pushed for one or more events are "[", the
    first event, and every later event behind ",\n"; the public [flush]
    adds nothing (it acts in buffered mode only); once the closing step
    [_flush] has pushed "]", the fragments in order are the text of a JSON
    array that reads back as the events constructed, in construction
    order (each as [JSON.stringify] keeps it: without the members whose
    value is [undefined]). *)
Theorem stream_text_event_array
    (h : heap) (r : addr) (t : Tracer) (calls : list method_call)
    (e : props) (evs : list props) :
  tracers h !! r = Some t ->
  _push t = FnPushString -> _objectMode t = Some false ->
  truthy (noStream t) = false ->
  firstPush t = false -> buffer t = [] ->
  constructed calls = e :: evs ->
  text_of (buffer_of (run r calls h) r) =
    "[" +:+ Json.stringify e +:+ Json.sep_tail ",
" (map Json.stringify evs)
  /\ flush r (run r calls h) = run r calls h
  /\ text_of (buffer_of (_flush r (run r calls h)) r) =
       "[" +:+ Json.stringify e +:+ Json.sep_tail ",
" (map Json.stringify evs) +:+ "]"
  /\ Json.parses_as_events
       (text_of (buffer_of (_flush r (run r calls h)) r))
       (map Json.scrub_event (e :: evs))
  /\ (forallb Json.clean_event (e :: evs) = true ->
      Json.parses_as_events
        (text_of (buffer_of (_flush r (run r calls h)) r)) (e :: evs)).
Proof.
  intros Ht Hp Hom Hn Hf Hb Hc.
  rewrite run_constructed, Hc, (deliver_all_text r (e :: evs) h t Ht Hp Hn).
  set (t' := fold_left (fun t'' ev => string_pushed ev t'') (e :: evs) t).
  assert (Ht' : tracers (update_tracer r (fun _ => t') h) !! r = Some t')
    by now apply (update_tracer_lookup r (fun _ => t') h t).
  assert (Hupd : update_tracer r
            (fun t0 => fold_left (fun t'' ev => string_pushed ev t'') (e :: evs) t0) h
          = update_tracer r (fun _ => t') h).
  { apply update_tracer_ext. intros t0 Ht0. unfold t'. congruence. }
  rewrite Hupd.
  assert (Hbuf : buffer t' = frame_chunks false (e :: evs)).
  { unfold t'. rewrite string_pushed_all. cbn [buffer]. now rewrite Hb, Hf. }
  assert (Hns : noStream t' = noStream t)
    by (unfold t'; now rewrite string_pushed_all).
  assert (Hom' : _objectMode t' = Some false)
    by (unfold t'; now rewrite string_pushed_all).
  assert (Htext : text_of (buffer_of (_flush r (update_tracer r (fun _ => t') h)) r) =
                  "[" +:+ Json.stringify e +:+ Json.sep_tail ",
" (map Json.stringify evs) +:+ "]").
  { rewrite (_flush_text r _ t' Ht') by (rewrite Hom'; discriminate).
    rewrite (buffer_of_update r _ _ t' Ht'). cbn [pushed buffer].
    rewrite text_of_app, Hbuf, text_of_frame. cbn [text_of].
    now rewrite !append_assoc. }
  refine (conj _ (conj _ (conj Htext (conj _ _)))).
  - unfold buffer_of. rewrite Ht', Hbuf. apply text_of_frame.
  - unfold flush. rewrite Ht', Hns.
    destruct (noStream t) as [| |[]| | | |]; try reflexivity. discriminate Hn.
  - rewrite Htext. apply parse_event_lines_kept.
  - intros Hclean. rewrite Htext. now apply parse_event_lines.
Qed.

(** The amended C1 at work on the two sample calls. *)
Lemma stream_text_event_array_witness :
  text_of (buffer_of (run 0 sample_calls text_root_heap) 0) =
    "[" +:+ Json.stringify sample_begin +:+ Json.sep_tail ",
" (map Json.stringify [sample_end])
  /\ flush 0 (run 0 sample_calls text_root_heap) = run 0 sample_calls text_root_heap
  /\ text_of (buffer_of (_flush 0 (run 0 sample_calls text_root_heap)) 0) =
       "[" +:+ Json.stringify sample_begin +:+ Json.sep_tail ",
" (map Json.stringify [sample_end]) +:+ "]"
  /\ Json.parses_as_events
       (text_of (buffer_of (_flush 0 (run 0 sample_calls text_root_heap)) 0))
       (map Json.scrub_event [sample_begin; sample_end])
  /\ (forallb Json.clean_event [sample_begin; sample_end] = true ->
      Json.parses_as_events
        (text_of (buffer_of (_flush 0 (run 0 sample_calls text_root_heap)) 0))
        [sample_begin; sample_end]).
Proof.
  apply (stream_text_event_array text_root_heap 0 text_root sample_calls
           sample_begin [sample_end]); reflexivity.
Defined.

(** C5, as the claim states it, fails: on a fresh buffered text-mode
    root, [flush] after zero events pushes the lone fragment "]", not an
    empty array; and a second [flush] after the two sample calls pushes
    both events and the closing bracket once more. *)
Lemma buffered_flush_not_idempotent :
  buffer_of (flush 0 buffered_root_heap) 0 = [ChunkStr "]"]
  /\ Json.parse (text_of (buffer_of (flush 0 buffered_root_heap) 0)) = None
  /\ buffer_of (flush 0 (flush 0 (run 0 sample_calls buffered_root_heap))) 0 =
       [ChunkStr "["; ChunkStr (Json.stringify sample_begin);
        ChunkStr (",
" +:+ Json.stringify sample_end); ChunkStr "]";
        ChunkStr (",
" +:+ Json.stringify sample_begin);
        ChunkStr (",
" +:+ Json.stringify sample_end); ChunkStr "]"]
  /\ flush 0 (flush 0 (run 0 sample_calls buffered_root_heap)) <>
       flush 0 (run 0 sample_calls buffered_root_heap).
Proof.
  repeat split; try reflexivity. intros H. vm_compute in H. discriminate H.
Qed.

(** C5, as amended: on a text-mode root in buffered mode that has
    pushed and buffered nothing yet, the calls push nothing and buffer
    their events; the first [flush] with one or more events buffered
    pushes "[", the events in order with ",\n" between them, and "]",
    which reads back as the array of these events (each as
    [JSON.stringify] keeps it); [flush] keeps the
    buffer and no closed state, so a second [flush] pushes every event
    again, each behind ",\n", and a second "]". *)
Theorem buffered_flush_frames
    (h : heap) (r : addr) (t : Tracer) (calls : list method_call)
    (e : props) (evs : list props) :
  tracers h !! r = Some t ->
  _push t = FnPushString -> _objectMode t = Some false ->
  noStream t = VBool true ->
  firstPush t = false -> buffer t = [] -> events t = [] ->
  constructed calls = e :: evs ->
  buffer_of (run r calls h) r = []
  /\ events_of (run r calls h) r = e :: evs
  /\ buffer_of (flush r (run r calls h)) r =
       frame_chunks false (e :: evs) ++ [ChunkStr "]"]
  /\ Json.parses_as_events
       (text_of (buffer_of (flush r (run r calls h)) r))
       (map Json.scrub_event (e :: evs))
  /\ (forallb Json.clean_event (e :: evs) = true ->
      Json.parses_as_events
        (text_of (buffer_of (flush r (run r calls h)) r)) (e :: evs))
  /\ buffer_of (flush r (flush r (run r calls h))) r =
       frame_chunks false (e :: evs) ++ [ChunkStr "]"] ++
       frame_chunks true (e :: evs) ++ [ChunkStr "]"].
Proof.
  intros Ht Hp Hom Hn Hf Hb He Hc.
  rewrite run_constructed, Hc.
  rewrite (deliver_all_buffer r (e :: evs) h t Ht) by now rewrite Hn.
  set (t1 := buffered (e :: evs) t).
  assert (Ht1 : tracers (update_tracer r (buffered (e :: evs)) h) !! r = Some t1)
    by now apply update_tracer_lookup.
  set (h1 := update_tracer r (buffered (e :: evs)) h) in *.
  assert (Hev1 : events t1 = e :: evs) by (unfold t1, buffered; cbn; now rewrite He).
  rewrite (flush_buffered_text r h1 t1 Ht1 Hp Hom Hn).
  set (t2 := pushed (ChunkStr "]")
               (fold_left (fun t'' ev => string_pushed ev t'') (events t1) t1)).
  assert (Ht2 : tracers (update_tracer r (fun _ => t2) h1) !! r = Some t2)
    by now apply (update_tracer_lookup r (fun _ => t2) h1 t1).
  assert (Hupd : update_tracer r
            (fun t' => pushed (ChunkStr "]")
               (fold_left (fun t'' ev => string_pushed ev t'') (events t1) t')) h1
          = update_tracer r (fun _ => t2) h1).
  { apply update_tracer_ext. intros t0 Ht0. unfold t2. congruence. }
  rewrite Hupd. set (h2 := update_tracer r (fun _ => t2) h1) in *.
  assert (Hbuf2 : buffer t2 = frame_chunks false (e :: evs) ++ [ChunkStr "]"]).
  { unfold t2. rewrite string_pushed_all, Hev1. cbn [pushed buffer].
    unfold t1, buffered. cbn [buffer firstPush]. now rewrite Hb, Hf. }
  assert (Hrec2 : events t2 = e :: evs /\ firstPush t2 = true /\
                  _push t2 = FnPushString /\ _objectMode t2 = Some false /\
                  noStream t2 = VBool true).
  { unfold t2. rewrite string_pushed_all, Hev1. cbn. now rewrite orb_true_r. }
  destruct Hrec2 as (Hev2 & Hf2 & Hp2 & Hom2 & Hn2).
  assert (Htext : text_of (buffer_of h2 r) =
                  "[" +:+ Json.stringify e +:+ Json.sep_tail ",
" (map Json.stringify evs) +:+ "]").
  { unfold buffer_of. rewrite Ht2, Hbuf2, text_of_app, text_of_frame.
    cbn [text_of]. now rewrite !append_assoc. }
  refine (conj _ (conj _ (conj _ (conj _ (conj _ _))))).
  - unfold buffer_of. rewrite Ht1. exact Hb.
  - unfold events_of. rewrite Ht1. exact Hev1.
  - unfold buffer_of. rewrite Ht2. exact Hbuf2.
  - rewrite Htext. apply parse_event_lines_kept.
  - intros Hclean. rewrite Htext. now apply parse_event_lines.
  - rewrite (flush_buffered_text r h2 t2 Ht2 Hp2 Hom2 Hn2).
    rewrite (buffer_of_update r _ h2 t2 Ht2).
    rewrite string_pushed_all, Hev2. cbn [pushed buffer].
    rewrite Hbuf2, Hf2. now rewrite <- !app_assoc.
Qed.

(** The amended C5 at work on the two sample calls. *)
Lemma buffered_flush_frames_witness :
  buffer_of (run 0 sample_calls buffered_root_heap) 0 = []
  /\ events_of (run 0 sample_calls buffered_root_heap) 0 = [sample_begin; sample_end]
  /\ buffer_of (flush 0 (run 0 sample_calls buffered_root_heap)) 0 =
       frame_chunks false [sample_begin; sample_end] ++ [ChunkStr "]"]
  /\ Json.parses_as_events
       (text_of (buffer_of (flush 0 (run 0 sample_calls buffered_root_heap)) 0))
       (map Json.scrub_event [sample_begin; sample_end])
  /\ (forallb Json.clean_event [sample_begin; sample_end] = true ->
      Json.parses_as_events
        (text_of (buffer_of (flush 0 (run 0 sample_calls buffered_root_heap)) 0))
        [sample_begin; sample_end])
  /\ buffer_of (flush 0 (flush 0 (run 0 sample_calls buffered_root_heap))) 0 =
       frame_chunks false [sample_begin; sample_end] ++ [ChunkStr "]"] ++
       frame_chunks true [sample_begin; sample_end] ++ [ChunkStr "]"].
Proof.
  apply (buffered_flush_frames buffered_root_heap 0 buffered_root sample_calls
           sample_begin [sample_end]); reflexivity.
Defined.

(** The reader on small texts: the empty array is an array, a comma
    before the closing bracket, a lone bracket and an unclosed array are
    not JSON. *)
Example reader_on_small_texts :
  Json.parse "[]" = Some (VArr [])
  /\ Json.parse " [ 1 , -20,
 {} ] " = Some (VArr [VNum 1; VNum (-20); VObj []])
  /\ Json.parse "[1,]" = None
  /\ Json.parse "]" = None
  /\ Json.parse "" = None
  /\ Json.parse "[1,2" = None
  /\ Json.parse "[01]" = None.
Proof. repeat split; reflexivity. Qed.

(** In lib/trace-event.js the separator follows every event and nothing
    closes the array: after two calls the text is the two events, each
    with ",\n" behind it, which is not JSON. *)
Example legacy_stream_never_closed :
  exists h1 h2,
    Legacy.begin 0 (VStr "x") sample_now Legacy.parent_heap = Ok h1
    /\ Legacy.end_ 0 (VStr "x") sample_now h1 = Ok h2
    /\ Json.parse (text_of (Legacy.buffer_of h2 0)) = None
    /\ exists e1 e2, Legacy.buffer_of h2 0 =
                       [ChunkStr "["; ChunkStr (Json.stringify e1 +:+ ",
");
                        ChunkStr (Json.stringify e2 +:+ ",
")].
Proof.
  eexists _, _. split; [reflexivity|]. split; [reflexivity|].
  split; [reflexivity|]. eexists _, _. reflexivity.
Qed.

End framing.

(** ** What a call puts in its event *)

Section emitted.
Import TraceEvent.





Lemma stamp_kept (ph : string) (f : value) (now : clock) (ev : props) (k : string) :
  make_event ph f now = Ok ev -> k <> "name" -> untouched f k ->
  get ev k = get (JS.set (evCommon now) "ph" (VStr ph)) k.
Proof.
  unfold make_event. intros H Hname Hk.
  destruct (truthy f) eqn:Ht; [|injection H as <-; reflexivity].
  destruct (String.eqb (typeof f) "string") eqn:Hs.
  - replace ev with (JS.set (JS.set (evCommon now) "ph" (VStr ph)) "name" f)
      by congruence.
    now apply get_set_ne.
  - destruct Hk as [Hk|[Hk|Hk]]; try congruence.
    destruct (copy_keys_spec f _ _ _ H) as (Ha & _ & _).
    unfold get. now rewrite (Ha k Hk).
Qed.

(** The members every event has, and the one it never has. *)
Lemma event_members (ph : string) (f : value) (now : clock) (ev : props) :
  make_event ph f now = Ok ev ->
  (forall k, has (JS.set (evCommon now) "ph" (VStr ph)) k = true -> has ev k = true)
  /\ has ev "__proto__" = false.
Proof.
  unfold make_event. intros H.
  destruct (truthy f); [|injection H as <-; now split].
  destruct (String.eqb (typeof f) "string").
  - assert (E : ev = JS.set (JS.set (evCommon now) "ph" (VStr ph)) "name" f)
      by congruence.
    rewrite E. split; [intros k Hk; now apply has_set_kept | reflexivity].
  - destruct (copy_keys_kept f _ _ _ H) as (Hh & Hp). split; [exact Hh|].
    unfold has. now rewrite Hp.
Qed.

(** C2, as the claim states it, fails: a key of the argument goes into
    the event with the argument's value, [null] included, in both
    variants. *)
Lemma null_argument_passes_through :
  (exists ev, make_event "B" (VObj [("name", VStr "x"); ("args", VNull)]) sample_now = Ok ev
              /\ get ev "args" = VNull)
  /\ (exists ev, make_event "B" (VObj [("ts", VNull)]) sample_now = Ok ev
                 /\ get ev "ts" = VNull)
  /\ (exists ev, Legacy.make_event "b" [("cat", VStr "default"); ("args", VObj [])]
                   (VObj [("name", VStr "x"); ("args", VNull)]) sample_now = Ok ev
                 /\ get ev "args" = VNull).
Proof. repeat split; eexists; split; reflexivity. Qed.

(** C2, as amended: every event a phase method builds has the members
    [ts], [pid], [tid] and [ph]; each holds what the Tracer stamps (the
    [ts] and the process id of [evCommon], the phase code), unless the
    argument is a mapping with that key.  Every key of such a mapping is
    in the event with the mapping's own value, whatever it is ([cat] and
    [__proto__] apart: [cat] is there as one string, the joined list when
    it was a list of strings, and no member [__proto__] is ever made).
    In lib/trace-event.js a key the argument leaves alone holds the value
    the FieldSet has for it, before the stamp; the constructor leaves no
    FieldSet (built from fields without a key [__proto__]) without a [cat]
    and an [args] that are not [null], so there the event has both. *)
Theorem event_stamp_and_argument
    (ph : string) (f : value) (now : clock) (ev : props) (own lev : props) :
  (make_event ph f now = Ok ev ->
     (has ev "ts" = true /\ has ev "pid" = true /\ has ev "tid" = true
      /\ has ev "ph" = true /\ has ev "__proto__" = false)
     /\ (untouched f "ts" -> get ev "ts" = get (evCommon now) "ts")
     /\ (untouched f "pid" -> get ev "pid" = get (evCommon now) "pid")
     /\ (untouched f "tid" -> get ev "tid" = get (evCommon now) "tid")
     /\ (untouched f "ph" -> get ev "ph" = VStr ph)
     /\ (truthy f = true -> String.eqb (typeof f) "string" = false ->
         (forall k, In k (keys f) -> k <> "cat" -> k <> "__proto__" ->
            get ev k = get_prop f k)
         /\ (In "cat" (keys f) ->
             exists l s, get_prop f "cat" = VArr l /\ get ev "cat" = VStr s
                         /\ forall ls, l = map VStr ls -> s = concat_sep "," ls)))
  /\ (Legacy.make_event ph own f now = Ok lev ->
       (has lev "ts" = true /\ has lev "pid" = true /\ has lev "tid" = true
        /\ has lev "ph" = true /\ has lev "__proto__" = false)
       /\ (forall k, untouched f k -> k <> "name" -> k <> "__proto__" ->
             get lev k = if has own k then get own k
                         else get (JS.set (evCommon now) "ph" (VStr ph)) k)
       /\ (truthy f = true -> String.eqb (typeof f) "string" = false ->
           forall k, In k (keys f) -> k <> "cat" -> k <> "__proto__" ->
             get lev k = get_prop f k)
       /\ (forall base f0, own = Legacy.overlay base f0 ->
             ~ In "__proto__" (keys f0) ->
             (untouched f "cat" -> not_nullish (get lev "cat") = true)
             /\ (untouched f "args" -> not_nullish (get lev "args") = true))).
Proof.
  split.
  - intros H. destruct (event_members ph f now ev H) as (Hh & Hp).
    refine (conj _ (conj _ (conj _ (conj _ (conj _ _))))).
    + repeat split; try exact Hp; apply Hh; reflexivity.
    + intros Hk. now rewrite (stamp_kept ph f now ev "ts" H) by (discriminate || exact Hk).
    + intros Hk. now rewrite (stamp_kept ph f now ev "pid" H) by (discriminate || exact Hk).
    + intros Hk. now rewrite (stamp_kept ph f now ev "tid" H) by (discriminate || exact Hk).
    + intros Hk. now rewrite (stamp_kept ph f now ev "ph" H) by (discriminate || exact Hk).
    + intros Ht Hs. rewrite (make_event_mapping ph f now Ht Hs) in H.
      destruct (copy_keys_spec f _ _ _ H) as (_ & Hb & Hc). split; [exact Hb|].
      intros Hin. destruct (Hc Hin) as (l & Hl & Hg).
      exists l, (array_join l ","). refine (conj Hl (conj Hg _)).
      intros ls ->. apply array_join_strings.
  - intros H. destruct (legacy_event_members ph own f now lev H) as (Hh & Hp).
    refine (conj _ (conj _ (conj _ _))).
    + repeat split; try exact Hp; apply Hh; reflexivity.
    + intros k Hk Hname Hproto. now apply (legacy_event_default ph own f now lev k).
    + intros Ht Hs k Hk Hne Hproto. now apply (legacy_event_argument ph own f now lev k).
    + intros base f0 -> _.
      destruct (overlay_cat_args base f0) as (Hc & Ha & Hhc & Hha).
      split; intros Hk.
      * rewrite (legacy_event_default ph _ f now lev "cat" H Hk) by discriminate.
        now rewrite Hhc.
      * rewrite (legacy_event_default ph _ f now lev "args" H Hk) by discriminate.
        now rewrite Hha.
Qed.

(** The amended C2 on the first sample call, and in lib/trace-event.js
    on the same call made on a Tracer built without fields. *)
Lemma event_stamp_and_argument_witness :
  (has sample_begin "ts" = true
   /\ get sample_begin "ts" = VNum 1000002
   /\ get sample_begin "ph" = VStr "B"
   /\ get sample_begin "name" = VStr "x"
   /\ get sample_begin "cat" = VStr "a,b")
  /\ forall lev,
       Legacy.make_event "b" (Legacy.overlay [] VUndef)
         (VObj [("name", VStr "x"); ("cat", VArr [VStr "a"; VStr "b"])])
         sample_now = Ok lev ->
       not_nullish (get lev "args") = true.
Proof.
  split.
  - pose proof (proj1 (event_stamp_and_argument "B"
                  (VObj [("name", VStr "x"); ("cat", VArr [VStr "a"; VStr "b"])])
                  sample_now sample_begin [] []) eq_refl)
      as ((Hhas & _) & Hts & _ & _ & Hph & Hmap).
    destruct (Hmap eq_refl eq_refl) as (Hkeys & Hcat).
    refine (conj Hhas (conj _ (conj _ (conj _ _)))).
    + apply Hts. right. right. cbn. intros [H|[H|[]]]; discriminate H.
    + apply Hph. right. right. cbn. intros [H|[H|[]]]; discriminate H.
    + apply Hkeys; [cbn; now left | discriminate | discriminate].
    + destruct Hcat as (l & s0 & Hl & Hg & Hs); [cbn; right; now left|].
      rewrite Hg. f_equal. apply (Hs ["a"; "b"]). cbn in Hl |- *. congruence.
  - intros lev H.
    apply (proj2 (proj2 (proj2 (proj2 (event_stamp_and_argument "b"
                    (VObj [("name", VStr "x"); ("cat", VArr [VStr "a"; VStr "b"])])
                    sample_now [] (Legacy.overlay [] VUndef) lev) H)))
                 [] VUndef eq_refl).
    + cbn. intros [].
    + right. right. cbn. intros [E|[E|[]]]; discriminate E.
Defined.

(** C4, as the claim states it, fails: a [cat] given as a string at a
    phase-method call is not passed through, the call throws and no
    event is pushed. *)
Lemma string_cat_throws :
  begin 0 (VObj [("name", VStr "x"); ("cat", VStr "a")]) sample_now text_root_heap
    = Throw TypeError.
Proof. reflexivity. Qed.

Lemma stamp_has_no_cat (ph : string) (now : clock) (o : props) :
  lookup_prop "cat" o = lookup_prop "cat" (JS.set (evCommon now) "ph" (VStr ph)) ->
  has o "cat" = false.
Proof. unfold has. intros ->. reflexivity. Qed.

(** C4, as amended: a [cat] given as a list of strings at a phase-method
    call is in the event as one string, the strings in order with ","
    between them; whenever an event has a [cat] at all it is a string; a
    list given at construction or at child creation is joined the same way
    into the FieldSet of the new Tracer; a [cat] given as a string at a
    phase-method call makes the call throw, and nothing is emitted. *)
Theorem cat_joined_or_thrown :
  (forall (ph : string) (o : props) (l : list string) (now : clock),
     lookup_prop "cat" o = Some (VArr (map VStr l)) ->
     exists ev, make_event ph (VObj o) now = Ok ev
                /\ get ev "cat" = VStr (concat_sep "," l))
  /\ (forall (ph : string) (f : value) (now : clock) (ev : props),
        make_event ph f now = Ok ev -> has ev "cat" = true ->
        exists s, get ev "cat" = VStr s)
  /\ (forall (o : TracerOptions) (fo : props) (l : list string)
             (h : heap) (a : addr) (h' : heap),
        opt_fields o = VObj fo -> NoDup (map fst fo) ->
        lookup_prop "cat" fo = Some (VArr (map VStr l)) ->
        new_Tracer (ArgOptions o) h = Ok (a, h') ->
        get (fields_of h' a) "cat" = VStr (concat_sep "," l))
  /\ (forall (ph : string) (o : props) (s : string) (now : clock)
             (this : addr) (h : heap),
        lookup_prop "cat" o = Some (VStr s) ->
        mkEventFunc ph this (VObj o) now h = Throw TypeError).
Proof.
  split; [|split; [|split]].
  - intros ph o l now Hcat.
    assert (Hin : In "cat" (keys (VObj o))).
    { apply (has_keys o). unfold has. now rewrite Hcat. }
    assert (Hg : get_prop (VObj o) "cat" = VArr (map VStr l)).
    { unfold get_prop, get. cbn [own_props]. now rewrite Hcat. }
    destruct (copy_keys_ok (VObj o) (keys (VObj o))
                (JS.set (evCommon now) "ph" (VStr ph))) as (ev & Hev).
    { intros _. eauto. }
    exists ev. rewrite make_event_mapping by reflexivity. split; [exact Hev|].
    destruct (copy_keys_spec _ _ _ _ Hev) as (_ & _ & Hc).
    destruct (Hc Hin) as (l' & Hl' & Hget).
    rewrite Hget. rewrite Hg in Hl'. injection Hl' as <-.
    now rewrite array_join_strings.
  - intros ph f now ev H Hhas. unfold make_event in H.
    destruct (truthy f) eqn:Ht.
    + destruct (String.eqb (typeof f) "string") eqn:Hs.
      * replace ev with (JS.set (JS.set (evCommon now) "ph" (VStr ph)) "name" f) in Hhas
          by congruence.
        discriminate Hhas.
      * destruct (copy_keys_spec _ _ _ _ H) as (Ha & _ & Hc).
        destruct (in_dec string_dec "cat" (keys f)) as [Hin|Hin].
        -- destruct (Hc Hin) as (l & _ & Hget). eauto.
        -- rewrite (stamp_has_no_cat ph now ev (Ha "cat" Hin)) in Hhas.
           discriminate Hhas.
    + replace ev with (JS.set (evCommon now) "ph" (VStr ph)) in Hhas by congruence.
      discriminate Hhas.
  - intros o fo l h a h' Hf Hnd Hcat H.
    destruct (new_Tracer_alloc _ _ _ _ H)
      as (o' & t & fset & Hv & Ha & Ht & Ho & Hft & _ & _ & _ & _ & Hpar).
    assert (o' = o) as -> by now apply validate_options.
    rewrite (fields_of_new h h' a t fset Ha Ht Ho Hft).
    destruct (opt_parent o) as [p|v].
    + destruct Hpar as (pt & _ & _ & _ & _ & ->). rewrite Hf.
      rewrite (overlay_cat_list _ fo (map VStr l) Hnd Hcat).
      now rewrite array_join_strings.
    + destruct Hpar as (_ & _ & _ & _ & ->). rewrite Hf.
      rewrite (overlay_cat_list _ fo (map VStr l) Hnd Hcat).
      now rewrite array_join_strings.
  - intros ph o s now this h Hcat. unfold mkEventFunc.
    rewrite make_event_mapping by reflexivity.
    rewrite copy_keys_throw; [reflexivity| |].
    + apply (has_keys o). unfold has. now rewrite Hcat.
    + unfold get_prop, get. cbn [own_props]. now rewrite Hcat.
Qed.

(** The amended C4 on the first sample call. *)
Lemma cat_joined_or_thrown_witness :
  exists ev,
    make_event "B" (VObj [("name", VStr "x"); ("cat", VArr [VStr "a"; VStr "b"])])
               sample_now = Ok ev
    /\ get ev "cat" = VStr "a,b".
Proof.
  exact (proj1 cat_joined_or_thrown "B"
           [("name", VStr "x"); ("cat", VArr [VStr "a"; VStr "b"])]
           ["a"; "b"] sample_now eq_refl).
Defined.

(** C3 on the input the claim names: the parent is built with the
    fields [{cat:["a"],x:1}], the child with [{cat:["b"],y:2}].  The
    child's FieldSet is [{cat:"b",x:1,args:{},y:2}], but the event the
    TypeScript variant pushes for [child.begin("e")] has none of [cat],
    [x], [y]: [mkEventFunc] never reads the FieldSet.  On the same input
    lib/trace-event.js builds the event with [cat] "b", [x] 1 and [y] 2. *)
Theorem child_event_without_fieldset :
  exists h1 h2 h3,
    new_Tracer (ArgOptions (mkOptions (PValue VUndef) sample_parent_fields VUndef VUndef))
               empty_heap = Ok (0, h1)
    /\ child 0 sample_child_fields h1 = Ok (1, h2)
    /\ fields_of h2 1 =
         [("cat", VStr "b"); ("x", VNum 1); ("args", VObj []); ("y", VNum 2)]
    /\ begin 1 (VStr "e") sample_now h2 = Ok h3
    /\ buffer_of h3 0 =
         [ChunkStr "[";
          ChunkStr (Json.stringify
                      [("ts", VNum 1000002); ("pid", VNum 7); ("tid", VNum 7);
                       ("ph", VStr "B"); ("name", VStr "e")])]
    /\ exists l1 l2 l3,
         Legacy.new_Tracer
           (Legacy.ArgOptions (Legacy.mkOptions (Legacy.PValue VUndef)
                                                sample_parent_fields VUndef))
           Legacy.empty_heap = Ok (0, l1)
         /\ Legacy.child 0 sample_child_fields l1 = Ok (1, l2)
         /\ Legacy.fields_of l2 1 =
              [("cat", VStr "b"); ("x", VNum 1); ("args", VObj []); ("y", VNum 2)]
         /\ Legacy.begin 1 (VStr "e") sample_now l2 = Ok l3
         /\ Legacy.buffer_of l3 0 =
              [ChunkStr "[";
               ChunkStr (Json.stringify
                           [("ts", VNum 1000002); ("pid", VNum 7); ("tid", VNum 7);
                            ("ph", VStr "b"); ("cat", VStr "b"); ("x", VNum 1);
                            ("args", VObj []); ("y", VNum 2); ("name", VStr "e")]
                         +:+ ",
")].
Proof.
  eexists _, _, _. do 5 (split; [reflexivity|]).
  eexists _, _, _. repeat split; reflexivity.
Qed.

End emitted.

(** ** Construction *)

Section construction.
Import TraceEvent.










End construction.

(** ** The one-level copy of the FieldSet *)

Section shallow_copy.

Lemma resolve_set (st : Nested.store) (es : Nested.entries) (k : string) (x : Nested.slot) :
  Nested.resolve st (Nested.set_slot es k x) =
    JS.set (Nested.resolve st es) k (Nested.resolve_slot st x).
Proof.
  induction es as [|[k0 s0] r IH]; [reflexivity|].
  cbn [Nested.set_slot Nested.resolve map fst snd JS.set].
  destruct (String.eqb k k0); cbn [map fst snd]; [reflexivity|].
  f_equal. exact IH.
Qed.

Lemma get_resolve (st : Nested.store) (es : Nested.entries) (k : string) :
  get (Nested.resolve st es) k = Nested.resolve_slot st (Nested.get_slot es k).
Proof.
  unfold get, Nested.get_slot.
  induction es as [|[k0 s0] r IH]; [reflexivity|].
  cbn [Nested.resolve map fst snd lookup_prop Nested.lookup_slot].
  destruct (String.eqb k k0); [reflexivity | exact IH].
Qed.

Lemma resolve_assign (st : Nested.store) (src t : Nested.entries) :
  Nested.resolve st (Nested.assign_slots t src) =
    assign (Nested.resolve st t) (VObj (Nested.resolve st src)).
Proof.
  unfold Nested.assign_slots, assign. cbn [own_props]. revert t.
  induction src as [|[k x] r IH]; intros t; [reflexivity|].
  change (Nested.resolve st ((k, x) :: r))
    with ((k, Nested.resolve_slot st x) :: Nested.resolve st r).
  cbn [fold_left fst snd]. rewrite IH, resolve_set. reflexivity.
Qed.

Lemma lookup_slot_ok (st : Nested.store) (es : Nested.entries) (k : string) :
  Nested.valid st es -> Nested.slot_ok st (Nested.get_slot es k).
Proof.
  unfold Nested.get_slot. intros Hv.
  induction Hv as [|[k0 s0] r Hs Hr IH]; [exact I|].
  cbn [Nested.lookup_slot]. destruct (String.eqb k k0); [exact Hs | exact IH].
Qed.

Lemma valid_set (st : Nested.store) (es : Nested.entries) (k : string) (x : Nested.slot) :
  Nested.valid st es -> Nested.slot_ok st x -> Nested.valid st (Nested.set_slot es k x).
Proof.
  intros Hv Hx. induction Hv as [|[k0 s0] r Hs Hr IH]; cbn [Nested.set_slot].
  - now repeat constructor.
  - destruct (String.eqb k k0); now constructor.
Qed.

Lemma valid_assign (st : Nested.store) (src t : Nested.entries) :
  Nested.valid st t -> Nested.valid st src -> Nested.valid st (Nested.assign_slots t src).
Proof.
  unfold Nested.assign_slots. intros Ht Hs. revert t Ht.
  induction Hs as [|[k x] r Hx Hr IH]; intros t Ht; [exact Ht|].
  cbn [fold_left fst snd]. apply IH. now apply valid_set.
Qed.

Lemma truthy_resolve (st : Nested.store) (x : Nested.slot) :
  Nested.slot_ok st x -> truthy (Nested.resolve_slot st x) = Nested.truthy_slot x.
Proof.
  destruct x as [v|a]; [reflexivity|]. intros Ha.
  cbn [Nested.resolve_slot Nested.slot_ok] in *.
  destruct (Nested.shared st !! a) eqn:E; [reflexivity|].
  apply lookup_ge_None in E. unfold props in *. exfalso. lia.
Qed.

Lemma resolve_slot_grown (fs : list Nested.entries) (st : Nested.store) (more : list props)
    (x : Nested.slot) :
  Nested.slot_ok st x ->
  Nested.resolve_slot (Nested.Store fs (Nested.shared st ++ more)) x =
    Nested.resolve_slot st x.
Proof.
  destruct x as [v|a]; [reflexivity|]. intros Ha.
  cbn [Nested.resolve_slot Nested.slot_ok Nested.shared] in *.
  now rewrite lookup_app_l.
Qed.

Lemma resolve_grown (fs : list Nested.entries) (st : Nested.store) (more : list props)
    (es : Nested.entries) :
  Nested.valid st es ->
  Nested.resolve (Nested.Store fs (Nested.shared st ++ more)) es = Nested.resolve st es.
Proof.
  intros Hv. unfold Nested.resolve.
  induction Hv as [|[k0 s0] r Hs Hr IH]; [reflexivity|].
  cbn [map fst snd] in *. now rewrite IH, resolve_slot_grown.
Qed.

(** The merge on entries is the merge on what they stand for: it is
    [overlay], the merge of the stores that keep the entries as values. *)
Lemma merge_refines (pf : Nested.entries) (g : option Nested.entries)
    (st : Nested.store) (f : Nested.entries) (st' : Nested.store) :
  Nested.valid st pf ->
  match g with Some gs => Nested.valid st gs | None => True end ->
  Nested.merge (Some pf) g st = (f, st') ->
  Nested.resolve st' f =
    Legacy.overlay (assign [] (VObj (Nested.resolve st pf)))
      (match g with Some gs => VObj (Nested.resolve st gs) | None => VUndef end).
Proof.
  intros Hpf Hg. unfold Nested.merge, Legacy.overlay.
  set (f1 := match g with
             | Some gs => Nested.assign_slots (Nested.assign_slots [] pf) gs
             | None => Nested.assign_slots [] pf
             end).
  assert (H0 : Nested.valid st (Nested.assign_slots [] pf))
    by (apply valid_assign; [constructor | exact Hpf]).
  assert (H1 : Nested.valid st f1)
    by (unfold f1; destruct g; [now apply valid_assign | exact H0]).
  assert (R1 : Nested.resolve st f1 =
               (if truthy (match g with
                           | Some gs => VObj (Nested.resolve st gs)
                           | None => VUndef
                           end)
                then assign (assign [] (VObj (Nested.resolve st pf)))
                            (match g with
                             | Some gs => VObj (Nested.resolve st gs)
                             | None => VUndef
                             end)
                else assign [] (VObj (Nested.resolve st pf)))).
  { unfold f1. destruct g as [gs|]; cbn [truthy].
    - rewrite resolve_assign, resolve_assign. reflexivity.
    - rewrite resolve_assign. reflexivity. }
  rewrite <- R1. clearbody f1. clear R1.
  set (f2 := if negb (Nested.truthy_slot (Nested.get_slot f1 "cat"))
             then Nested.set_slot f1 "cat" (Nested.Held (VStr "default"))
             else match Nested.get_slot f1 "cat" with
                  | Nested.Held (VArr l) =>
                      Nested.set_slot f1 "cat" (Nested.Held (VStr (array_join l ",")))
                  | _ => f1
                  end).
  assert (H2 : Nested.valid st f2).
  { unfold f2. destruct (negb _); [now apply valid_set|].
    destruct (Nested.get_slot f1 "cat") as [[| | | | |l|]|a]; try exact H1.
    now apply valid_set. }
  assert (R2 : Nested.resolve st f2 =
               (if negb (truthy (get (Nested.resolve st f1) "cat"))
                then JS.set (Nested.resolve st f1) "cat" (VStr "default")
                else match get (Nested.resolve st f1) "cat" with
                     | VArr l => JS.set (Nested.resolve st f1) "cat" (VStr (array_join l ","))
                     | _ => Nested.resolve st f1
                     end)).
  { unfold f2. rewrite get_resolve, truthy_resolve by now apply lookup_slot_ok.
    destruct (negb _); [now rewrite resolve_set|].
    pose proof (lookup_slot_ok st f1 "cat" H1) as Hok.
    destruct (Nested.get_slot f1 "cat") as [[| | | | |l|]|a]; cbn [Nested.resolve_slot];
      try reflexivity; [now rewrite resolve_set|].
    cbn [Nested.slot_ok] in Hok.
    destruct (Nested.shared st !! a) eqn:E; [reflexivity|].
    apply lookup_ge_None in E. unfold props in *. exfalso. lia. }
  rewrite <- R2. clearbody f2. clear R2.
  rewrite get_resolve, truthy_resolve by now apply lookup_slot_ok.
  destruct (negb (Nested.truthy_slot (Nested.get_slot f2 "args"))).
  - intros H. injection H as <- <-. rewrite resolve_set.
    cbn [Nested.resolve_slot Nested.shared]. rewrite lookup_last.
    now rewrite (resolve_grown _ st [[]] f2 H2).
  - intros H. injection H as <- <-. reflexivity.
Qed.

Lemma apply_write_kept (a : nat) (st : Nested.store) (w : Nested.write) (b : nat) :
  b <> a ->
  Nested.fieldsets (Nested.apply_write a st w) !! b = Nested.fieldsets st !! b
  /\ Nested.shared (Nested.apply_write a st w) = Nested.shared st.
Proof.
  intros Hb. unfold Nested.apply_write.
  destruct (Nested.fieldsets st !! a); [|split; reflexivity].
  cbn [Nested.fieldsets Nested.shared]. split; [|reflexivity].
  apply list_lookup_insert_ne. congruence.
Qed.

Lemma write_all_kept (a : nat) (ws : list Nested.write) (st : Nested.store) (b : nat) :
  b <> a ->
  Nested.fieldsets (Nested.write_all a ws st) !! b = Nested.fieldsets st !! b
  /\ Nested.shared (Nested.write_all a ws st) = Nested.shared st.
Proof.
  intros Hb. unfold Nested.write_all. revert st.
  induction ws as [|w r IH]; intros st; [split; reflexivity|].
  cbn [fold_left]. destruct (IH (Nested.apply_write a st w)) as (Hf & Hs).
  destruct (apply_write_kept a st w b Hb) as (Hf' & Hs').
  rewrite Hf, Hs, Hf', Hs'. split; reflexivity.
Qed.

Lemma nested_child_fresh (p : nat) (g : option Nested.entries) (st : Nested.store)
    (c : nat) (st1 : Nested.store) :
  Nested.child p g st = Some (c, st1) ->
  c <> p /\ exists es, Nested.fieldsets st1 !! c = Some es.
Proof.
  unfold Nested.child, Nested.new_fieldset.
  destruct (Nested.fieldsets st !! p) as [pf|] eqn:Hp; [|discriminate].
  destruct (Nested.merge (Some pf) g st) as [f st'] eqn:Hm.
  assert (Hfs : Nested.fieldsets st' = Nested.fieldsets st).
  { unfold Nested.merge in Hm. destruct (negb _) in Hm; injection Hm as <- <-; reflexivity. }
  intros H. injection H as <- <-. rewrite Hfs. apply lookup_lt_Some in Hp.
  split; [lia|]. exists f. cbn [Nested.fieldsets]. apply lookup_last.
Qed.

(** An entry of the parent's FieldSet set or deleted after the child
    was made: the child's FieldSet stands for what it stood for. *)
Lemma nested_entry_writes_kept (p : nat) (g : option Nested.entries) (st : Nested.store)
    (c : nat) (st1 : Nested.store) (ws : list Nested.write) :
  Nested.child p g st = Some (c, st1) ->
  Nested.fields_now (Nested.write_all p ws st1) c = Nested.fields_now st1 c.
Proof.
  intros H. destruct (nested_child_fresh p g st c st1 H) as (Hne & _).
  destruct (write_all_kept p ws st1 c Hne) as (Hf & Hs).
  unfold Nested.fields_now. rewrite Hf.
  destruct (Nested.fieldsets st1 !! c) as [es|]; [|reflexivity].
  unfold Nested.resolve. apply map_ext. intros [k x]. cbn [fst snd]. f_equal.
  destruct x as [v|a]; [reflexivity|]. cbn. now rewrite Hs.
Qed.

End shallow_copy.

(** ** Parent and child in lib/trace-event.js *)

Section legacy_family.

Lemma legacy_child_alloc (h : Legacy.heap) (p : Legacy.addr) (f : value)
    (c : Legacy.addr) (h1 : Legacy.heap) :
  Legacy.child p f h = Ok (c, h1) ->
  exists (pt t : Legacy.Tracer),
    Legacy.tracers h !! p = Some pt
    /\ c = length (Legacy.tracers h)
    /\ Legacy.tracers h1 = Legacy.tracers h ++ [t]
    /\ Legacy.objects h1 =
         Legacy.objects h ++
           [Legacy.overlay (assign [] (VObj (Legacy.fields_of h p))) f]
    /\ Legacy.fields t = length (Legacy.objects h)
    /\ Legacy._push t = FnBound (Legacy._push pt) p.
Proof.
  unfold Legacy.child, Legacy.new_Tracer, Legacy.validate.
  cbn [mbind result_bind Legacy.opt_parent Legacy.opt_fields Legacy.opt_objectMode].
  destruct (Legacy.assert_optionalObject f "opts.fields"); [|discriminate].
  cbn [mbind result_bind Legacy.assert_optionalBool Legacy.opt_parent Legacy.opt_fields].
  destruct (Legacy.tracers h !! p) as [pt|] eqn:Hp; [|discriminate].
  intros H. injection H as <- <-. eexists pt, _. repeat split; reflexivity.
Qed.

Lemma legacy_mutate_tracers (a : Legacy.addr) (m : Legacy.mutation) (h : Legacy.heap) :
  Legacy.tracers (Legacy.mutate a h m) = Legacy.tracers h.
Proof.
  destruct m; cbn [Legacy.mutate]; unfold Legacy.set_field, Legacy.delete_field;
    destruct (Legacy.tracers h !! a) as [t|]; try reflexivity;
    destruct (Legacy.objects h !! Legacy.fields t); reflexivity.
Qed.

Lemma legacy_mutate_other_object (a : Legacy.addr) (m : Legacy.mutation)
    (h : Legacy.heap) (t : Legacy.Tracer) (i : nat) :
  Legacy.tracers h !! a = Some t -> Legacy.fields t <> i ->
  Legacy.objects (Legacy.mutate a h m) !! i = Legacy.objects h !! i.
Proof.
  intros Ha Hi.
  destruct m; cbn [Legacy.mutate]; unfold Legacy.set_field, Legacy.delete_field;
    rewrite Ha; destruct (Legacy.objects h !! Legacy.fields t); try reflexivity;
    cbn [Legacy.objects]; now apply list_lookup_insert_ne.
Qed.

Lemma legacy_mutate_all_other (a : Legacy.addr) (ms : list Legacy.mutation)
    (h : Legacy.heap) (t : Legacy.Tracer) (i : nat) :
  Legacy.tracers h !! a = Some t -> Legacy.fields t <> i ->
  Legacy.tracers (Legacy.mutate_all a ms h) = Legacy.tracers h
  /\ Legacy.objects (Legacy.mutate_all a ms h) !! i = Legacy.objects h !! i.
Proof.
  intros Ha Hi. unfold Legacy.mutate_all. revert h Ha.
  induction ms as [|m r IH]; intros h Ha; [split; reflexivity|].
  cbn [fold_left].
  destruct (IH (Legacy.mutate a h m)) as (Ht & Ho).
  { now rewrite legacy_mutate_tracers. }
  rewrite Ht, Ho, legacy_mutate_tracers. split; [reflexivity|].
  now apply (legacy_mutate_other_object a m h t).
Qed.

Lemma legacy_child_fields_kept (h : Legacy.heap) (p : Legacy.addr) (f : value)
    (c : Legacy.addr) (h1 : Legacy.heap) (ms : list Legacy.mutation) :
  Legacy.heap_ok h -> Legacy.child p f h = Ok (c, h1) ->
  Legacy.fields_of (Legacy.mutate_all p ms h1) c = Legacy.fields_of h1 c.
Proof.
  intros Hok H.
  destruct (legacy_child_alloc _ _ _ _ _ H) as (pt & t & Hp & Hc & Ht & Ho & Hf & _).
  pose proof (Hok p pt Hp) as Hlt.
  assert (Hp1 : Legacy.tracers h1 !! p = Some pt).
  { rewrite Ht. now apply lookup_app_l_Some. }
  destruct (legacy_mutate_all_other p ms h1 pt (length (Legacy.objects h)) Hp1
              ltac:(lia)) as (Hts & Hos).
  unfold Legacy.fields_of. rewrite Hts, Hc, Ht, lookup_last, Hf.
  exact (f_equal (fun x : option props => match x with Some o => o | None => [] end) Hos).
Qed.

(** X15.  What C3 asks for holds in lib/trace-event.js, for a parent's
    FieldSet and child's fields that give each key once and have no key
    [__proto__]: an event of a child has, for every key its call leaves
    alone ([cat], [args], [name] and [__proto__] apart), the value the
    child was created with, or else the value of the parent's FieldSet. *)
Lemma legacy_child_event_inherits
    (h : Legacy.heap) (p : Legacy.addr) (fo : props) (c : Legacy.addr)
    (h1 : Legacy.heap) (ph : string) (g : value) (now : clock) (ev : props)
    (k : string) :
  Legacy.child p (VObj fo) h = Ok (c, h1) ->
  NoDup (map fst fo) -> NoDup (map fst (Legacy.fields_of h p)) ->
  ~ In "__proto__" (map fst fo) ->
  ~ In "__proto__" (map fst (Legacy.fields_of h p)) ->
  Legacy.make_event ph (Legacy.fields_of h1 c) g now = Ok ev ->
  TraceEvent.untouched g k ->
  k <> "name" -> k <> "cat" -> k <> "args" -> k <> "__proto__" ->
  match lookup_prop k fo with
  | Some v => get ev k = v
  | None =>
      has (Legacy.fields_of h p) k = true -> get ev k = get (Legacy.fields_of h p) k
  end.
Proof.
  intros Hch Hfo Hpf _ _ Hev Hk Hname Hcat Hargs Hproto.
  destruct (legacy_child_alloc _ _ _ _ _ Hch) as (pt & t & Hp & Hc & Ht & Ho & Hf & _).
  assert (Hown : Legacy.fields_of h1 c =
                 Legacy.overlay (assign [] (VObj (Legacy.fields_of h p))) (VObj fo)).
  { unfold Legacy.fields_of at 1. now rewrite Hc, Ht, lookup_last, Hf, Ho, lookup_last. }
  rewrite Hown in Hev.
  rewrite (legacy_event_default ph _ g now ev k Hev Hk Hname Hproto).
  assert (Hlook : lookup_prop k (Legacy.overlay (assign [] (VObj (Legacy.fields_of h p)))
                                                (VObj fo)) =
                  match lookup_prop k fo with
                  | Some v => Some v
                  | None => lookup_prop k (Legacy.fields_of h p)
                  end).
  { rewrite (overlay_other _ (VObj fo) k Hcat Hargs). cbn [truthy].
    rewrite (lookup_assign _ fo k Hfo), (lookup_assign [] _ k Hpf). cbn [lookup_prop].
    destruct (lookup_prop k fo); [reflexivity|].
    now destruct (lookup_prop k (Legacy.fields_of h p)). }
  unfold has, get. rewrite Hlook.
  destruct (lookup_prop k fo) as [v|]; [reflexivity|].
  destruct (lookup_prop k (Legacy.fields_of h p)); [reflexivity | discriminate].
Qed.

(** In lib/trace-event.js the same options are refused, by the checks
    of assert-plus; options that pass, with a parent that is a Tracer of
    the store or left out, give a Tracer. *)
Lemma legacy_invalid_options_throw (o : Legacy.TracerOptions) (h : Legacy.heap) :
  (Legacy.refused o = true ->
     exists name, Legacy.new_Tracer (Legacy.ArgOptions o) h = Throw (AssertionError name))
  /\ (Legacy.refused o = false ->
       match Legacy.opt_parent o with
       | Legacy.PTracer p => exists pt, Legacy.tracers h !! p = Some pt
       | Legacy.PValue v => not_nullish v = false
       end ->
       exists h', Legacy.new_Tracer (Legacy.ArgOptions o) h =
                    Ok (length (Legacy.tracers h), h')).
Proof.
  unfold Legacy.refused, Legacy.new_Tracer, Legacy.validate.
  cbn [mbind result_bind].
  destruct o as [par f om]. cbn [Legacy.opt_parent Legacy.opt_fields Legacy.opt_objectMode].
  split.
  - intros Href.
    destruct par as [p|v].
    + cbn [mbind result_bind orb] in *.
      destruct f; cbn in Href |- *; eauto; destruct om; cbn in Href |- *;
        eauto; discriminate Href.
    + destruct v; cbn in Href |- *; eauto;
        destruct f; cbn in Href |- *; eauto; destruct om; cbn in Href |- *;
        eauto; discriminate Href.
  - intros Href Hpar.
    destruct par as [p|v].
    + destruct Hpar as (pt & Hp).
      destruct f; cbn in Href |- *; try discriminate Href;
        destruct om; cbn in Href |- *; try discriminate Href; rewrite Hp; eauto.
    + destruct v; try discriminate Hpar;
        destruct f; cbn in Href |- *; try discriminate Href;
        destruct om; cbn in Href |- *; try discriminate Href; eauto.
Qed.

(** A call of a function value: the receiver and the function it ends
    at decide it. *)
Lemma legacy_call_resolved (f : fn) (this : Legacy.addr) (ev : props) (h : Legacy.heap) :
  Legacy.call f this ev h = Legacy.call (target_of f) (receiver_of f this) ev h.
Proof.
  revert this. induction f as [| |g IH r]; intros this; try reflexivity.
  cbn [Legacy.call target_of receiver_of]. apply IH.
Qed.

Lemma legacy_descend_invariant (r : Legacy.addr) (t : Legacy.Tracer) (fs : list value) :
  forall (cur : Legacy.addr) (tcur : Legacy.Tracer) (h : Legacy.heap)
         (c : Legacy.addr) (h' : Legacy.heap),
    Legacy.tracers h !! r = Some t -> Legacy.tracers h !! cur = Some tcur ->
    receiver_of (Legacy._push tcur) cur = r ->
    target_of (Legacy._push tcur) = target_of (Legacy._push t) ->
    Legacy.descend cur fs h = Ok (c, h') ->
    exists tc,
      Legacy.tracers h' !! c = Some tc /\ Legacy.tracers h' !! r = Some t
      /\ receiver_of (Legacy._push tc) c = r
      /\ target_of (Legacy._push tc) = target_of (Legacy._push t).
Proof.
  induction fs as [|f fs IH]; intros cur tcur h c h' Hr Hcur Hrec Htar H.
  - cbn in H. injection H as <- <-. exists tcur. repeat split; assumption.
  - cbn [Legacy.descend] in H.
    destruct (Legacy.child cur f h) as [[c1 h1]|e] eqn:Hch; [|discriminate].
    destruct (legacy_child_alloc _ _ _ _ _ Hch) as (pt & t1 & Hp & Hc1 & Ht1 & _ & _ & Hpu).
    assert (pt = tcur) as -> by congruence.
    apply (IH c1 t1 h1 c h').
    + rewrite Ht1. now apply lookup_app_l_Some.
    + rewrite Ht1, Hc1. apply lookup_last.
    + rewrite Hpu. exact Hrec.
    + rewrite Hpu. exact Htar.
    + exact H.
Qed.

(** X16.  The delegation of C9 in lib/trace-event.js: delivery from a
    descendant is delivery from the root. *)
Lemma legacy_descendants_deliver_to_root
    (h : Legacy.heap) (r : Legacy.addr) (t : Legacy.Tracer) (fs : list value)
    (c : Legacy.addr) (h' : Legacy.heap) (ev : props) :
  Legacy.tracers h !! r = Some t -> unbound (Legacy._push t) ->
  Legacy.descend r fs h = Ok (c, h') ->
  Legacy.call_push c ev h' = Legacy.call_push r ev h'.
Proof.
  intros Hr Hunb H.
  assert (Hself : receiver_of (Legacy._push t) r = r /\
                  target_of (Legacy._push t) = Legacy._push t)
    by (destruct Hunb as [-> | ->]; split; reflexivity).
  destruct Hself as (Hrec & Htar).
  destruct (legacy_descend_invariant r t fs r t h c h' Hr Hr Hrec eq_refl H)
    as (tc & Hc & Hr' & Hrec' & Htar').
  unfold Legacy.call_push. rewrite Hc, Hr'.
  rewrite (legacy_call_resolved (Legacy._push tc)), Hrec', Htar', Htar. reflexivity.
Qed.

End legacy_family.

(** ** Parent and child *)

Section family.
Import TraceEvent.

Lemma heap_ok_empty : heap_ok empty_heap.
Proof. intros a t H. destruct a; discriminate H. Qed.

Lemma heap_ok_new (arg : ctor_arg) (h : heap) (a : addr) (h' : heap) :
  heap_ok h -> new_Tracer arg h = Ok (a, h') -> heap_ok h'.
Proof.
  intros Hok H b t Hb.
  destruct (new_Tracer_alloc _ _ _ _ H) as (o & t' & fset & _ & -> & Ht & Ho & Hf & _).
  rewrite Ht in Hb. rewrite Ho, length_app. cbn [length].
  apply lookup_app_Some in Hb as [Hb | [Hlen Hb]].
  - specialize (Hok b t Hb). lia.
  - destruct (b - length (tracers h)) as [|n] eqn:E; [|destruct n; discriminate Hb].
    cbn in Hb. injection Hb as <-. lia.
Qed.

Lemma mutate_tracers (a : addr) (m : mutation) (h : heap) :
  tracers (mutate a h m) = tracers h.
Proof.
  destruct m; cbn [mutate]; unfold set_field, delete_field;
    destruct (tracers h !! a) as [t|]; try reflexivity;
    destruct (objects h !! fields t); reflexivity.
Qed.

Lemma mutate_other_object (a : addr) (m : mutation) (h : heap) (t : Tracer) (i : nat) :
  tracers h !! a = Some t -> fields t <> i ->
  objects (mutate a h m) !! i = objects h !! i.
Proof.
  intros Ha Hi.
  destruct m; cbn [mutate]; unfold set_field, delete_field; rewrite Ha;
    destruct (objects h !! fields t); try reflexivity;
    cbn [objects]; now apply list_lookup_insert_ne.
Qed.

Lemma mutate_all_other (a : addr) (ms : list mutation) (h : heap) (t : Tracer) (i : nat) :
  tracers h !! a = Some t -> fields t <> i ->
  tracers (mutate_all a ms h) = tracers h
  /\ objects (mutate_all a ms h) !! i = objects h !! i.
Proof.
  intros Ha Hi. unfold mutate_all. revert h Ha.
  induction ms as [|m r IH]; intros h Ha; [split; reflexivity|].
  cbn [fold_left].
  destruct (IH (mutate a h m)) as (Ht & Ho).
  { now rewrite mutate_tracers. }
  rewrite Ht, Ho, mutate_tracers. split; [reflexivity|].
  now apply (mutate_other_object a m h t).
Qed.

(** A write to the parent's FieldSet does not reach the child's. *)
Lemma child_fields_kept (h : heap) (p : addr) (f : value) (c : addr) (h1 : heap)
    (ms : list mutation) :
  heap_ok h -> child p f h = Ok (c, h1) ->
  fields_of (mutate_all p ms h1) c = fields_of h1 c.
Proof.
  intros Hok H. unfold child in H.
  destruct (new_Tracer_alloc _ _ _ _ H)
    as (o & t & fset & Hv & Hc & Ht & Ho & Hf & _ & _ & _ & _ & Hpar).
  apply validate_options in Hv. subst o. cbn [opt_parent] in Hpar.
  destruct Hpar as (pt & Hp & _).
  pose proof (Hok p pt Hp) as Hlt.
  destruct (new_Tracer_kept _ _ _ _ p pt H Hp) as (Hp1 & _).
  destruct (mutate_all_other p ms h1 pt (length (objects h)) Hp1 ltac:(lia))
    as (Hts & Hos).
  unfold fields_of. rewrite Hts, Hc, Ht, lookup_last, Hf.
  exact (f_equal (fun x : option props => match x with Some o => o | None => [] end) Hos).
Qed.

Lemma update_tracer_tracers (a : addr) (f : Tracer -> Tracer) (h h' : heap) :
  tracers h = tracers h' ->
  tracers (update_tracer a f h) = tracers (update_tracer a f h').
Proof.
  intros E. unfold update_tracer. rewrite <- E.
  destruct (tracers h !! a); [cbn [tracers]; now rewrite E | exact E].
Qed.

(** Delivery reads and writes Tracers only, never a FieldSet. *)
Lemma deliver_tracers (c : addr) (ev : props) (h h' : heap) :
  tracers h = tracers h' ->
  tracers (deliver c ev h) = tracers (deliver c ev h').
Proof.
  intros E. unfold deliver, call_push, append_event. rewrite <- E.
  destruct (tracers h !! c) as [t|]; [|exact E].
  destruct (negb (truthy (noStream t))).
  - rewrite !call_update. now apply update_tracer_tracers.
  - now apply update_tracer_tracers.
Qed.

Lemma heap_ok_text_root : heap_ok text_root_heap.
Proof.
  intros [|a] t H; [|destruct a; discriminate H].
  injection H as <-. cbn. lia.
Qed.

Lemma legacy_heap_ok_parent : Legacy.heap_ok Legacy.parent_heap.
Proof.
  intros [|a] t H; [|destruct a; discriminate H].
  injection H as <-. cbn. lia.
Qed.

Example nested_sample_stores :
  Nested.new_fieldset None None Nested.empty_store = Some (0, Nested.parent_store)
  /\ Nested.child 0 (Some []) Nested.parent_store = Some (1, Nested.family_store).
Proof. split; reflexivity. Qed.

(** C7, as the claim states it, fails: the copy is one level deep.  The
    [args] of the parent's FieldSet is an object, and the child's entry
    refers to the same object: after [p.fields.args.a = 2] the child's
    FieldSet reads [args: {a: 2}], and the events of the child, in
    lib/trace-event.js, have the [args] [{a: 2}]. *)
Lemma write_inside_reaches_child :
  Nested.child 0 (Some []) Nested.parent_store = Some (1, Nested.family_store)
  /\ exists st' ev ev',
       Nested.write_inside 0 "args" "a" (VNum 2) Nested.family_store = Some st'
       /\ Nested.emit "b" 1 (VStr "e") sample_now Nested.family_store = Ok ev
       /\ Nested.emit "b" 1 (VStr "e") sample_now st' = Ok ev'
       /\ get ev "args" = VObj []
       /\ get ev' "args" = VObj [("a", VNum 2)]
       /\ ev <> ev'
       /\ get (Nested.fields_now Nested.family_store 1) "args" = VObj []
       /\ get (Nested.fields_now st' 1) "args" = VObj [("a", VNum 2)].
Proof.
  split; [reflexivity|]. eexists _, _, _.
  split; [reflexivity|]. split; [reflexivity|]. split; [reflexivity|].
  split; [reflexivity|]. split; [reflexivity|]. split; [discriminate|].
  split; reflexivity.
Qed.

(** C7, as amended: the child's FieldSet is a new object, holding a
    one-level copy of the parent's entries with the child's fields over
    them.  Once the child is made, an entry of the parent's FieldSet set
    or deleted, any number of times, leaves the child's FieldSet as it
    was, and with it what the child emits afterwards: in the TypeScript
    variant a call leaves every Tracer and buffer in the same state with
    or without the writes; in lib/trace-event.js, where the FieldSet goes
    into the event, the event record is the same, also when entries refer
    to shared objects. *)
Theorem parent_writes_do_not_reach_child
    (h : heap) (p : addr) (f : value) (c : addr) (h1 : heap) (ms : list mutation)
    (lh : Legacy.heap) (lp : Legacy.addr) (lf : value) (lc : Legacy.addr)
    (lh1 : Legacy.heap) (lms : list Legacy.mutation)
    (st : Nested.store) (np : nat) (ng : option Nested.entries) (nc : nat)
    (st1 : Nested.store) (ws : list Nested.write) :
  heap_ok h -> child p f h = Ok (c, h1) ->
  Legacy.heap_ok lh -> Legacy.child lp lf lh = Ok (lc, lh1) ->
  Nested.child np ng st = Some (nc, st1) ->
  (fields_of h1 c = overlay (assign [] (VObj (fields_of h p))) f
   /\ exists tp tc, tracers h1 !! p = Some tp /\ tracers h1 !! c = Some tc
                    /\ fields tc <> fields tp)
  /\ fields_of (mutate_all p ms h1) c = fields_of h1 c
  /\ (forall (ph : string) (g : value) (now : clock),
        same_tracers (mkEventFunc ph c g now (mutate_all p ms h1))
                     (mkEventFunc ph c g now h1))
  /\ Legacy.fields_of lh1 lc =
       Legacy.overlay (assign [] (VObj (Legacy.fields_of lh lp))) lf
  /\ Legacy.fields_of (Legacy.mutate_all lp lms lh1) lc = Legacy.fields_of lh1 lc
  /\ (forall (ph : string) (g : value) (now : clock),
        Legacy.make_event ph (Legacy.fields_of (Legacy.mutate_all lp lms lh1) lc) g now =
        Legacy.make_event ph (Legacy.fields_of lh1 lc) g now)
  /\ Nested.fields_now (Nested.write_all np ws st1) nc = Nested.fields_now st1 nc
  /\ (forall (ph : string) (g : value) (now : clock),
        Nested.emit ph nc g now (Nested.write_all np ws st1) =
        Nested.emit ph nc g now st1).
Proof.
  intros Hok H Hlok Hl Hn.
  pose proof (legacy_child_fields_kept lh lp lf lc lh1 lms Hlok Hl) as Hlf.
  pose proof (nested_entry_writes_kept np ng st nc st1 ws Hn) as Hnf.
  pose proof H as H'. unfold child in H'.
  destruct (new_Tracer_alloc _ _ _ _ H')
    as (o & t & fset & Hv & Hc & Ht & Ho & Hf & _ & _ & _ & _ & Hpar).
  apply validate_options in Hv. subst o. cbn [opt_parent opt_fields] in Hpar.
  destruct Hpar as (pt & Hp & _ & _ & _ & Hfset).
  destruct (new_Tracer_kept _ _ _ _ p pt H' Hp) as (Hp1 & _).
  refine (conj _ (conj _ (conj _ (conj _ (conj Hlf (conj _ (conj Hnf _))))))).
  - split; [rewrite <- Hfset; now apply (fields_of_new h h1 c t fset)|].
    exists pt, t. refine (conj Hp1 (conj _ _)).
    + rewrite Ht, Hc. apply lookup_last.
    + pose proof (Hok p pt Hp). lia.
  - now apply (child_fields_kept h p f c h1 ms).
  - intros ph g now. unfold mkEventFunc, same_tracers.
    destruct (make_event ph g now) as [ev|e]; cbn [mbind result_bind]; [|reflexivity].
    apply deliver_tracers.
    exact (proj1 (mutate_all_other p ms h1 pt (S (fields pt)) Hp1 ltac:(lia))).
  - destruct (legacy_child_alloc _ _ _ _ _ Hl) as (lpt & lt & _ & Hlc & Hlt & Hlo & Hlfs & _).
    unfold Legacy.fields_of at 1. now rewrite Hlc, Hlt, lookup_last, Hlfs, Hlo, lookup_last.
  - intros ph g now. now rewrite Hlf.
  - intros ph g now. unfold Nested.emit. now rewrite Hnf.
Qed.

(** The amended C7 on the sample stores: the child of the text root, the
    child of the parent built with [{cat:["a"],x:1}], and the child of a
    root whose [args] is a shared object, each after three writes to
    entries of the parent's FieldSet. *)
Lemma parent_writes_do_not_reach_child_witness :
  exists (h1 : heap) (lh1 : Legacy.heap),
    child 0 sample_child_fields text_root_heap = Ok (1, h1)
    /\ Legacy.child 0 sample_child_fields Legacy.parent_heap = Ok (1, lh1)
    /\ Nested.child 0 (Some []) Nested.parent_store = Some (1, Nested.family_store)
    /\ fields_of (mutate_all 0 sample_writes h1) 1 = fields_of h1 1
    /\ (forall (ph : string) (g : value) (now : clock),
          same_tracers (mkEventFunc ph 1 g now (mutate_all 0 sample_writes h1))
                       (mkEventFunc ph 1 g now h1))
    /\ Legacy.fields_of (Legacy.mutate_all 0 Legacy.sample_writes lh1) 1 =
         Legacy.fields_of lh1 1
    /\ (forall (ph : string) (g : value) (now : clock),
          Legacy.make_event ph
            (Legacy.fields_of (Legacy.mutate_all 0 Legacy.sample_writes lh1) 1) g now =
          Legacy.make_event ph (Legacy.fields_of lh1 1) g now)
    /\ (forall (ph : string) (g : value) (now : clock),
          Nested.emit ph 1 g now
            (Nested.write_all 0 Nested.sample_writes Nested.family_store) =
          Nested.emit ph 1 g now Nested.family_store).
Proof.
  eexists _, _. split; [reflexivity|]. split; [reflexivity|]. split; [reflexivity|].
  destruct (parent_writes_do_not_reach_child
              text_root_heap 0 sample_child_fields 1 _ sample_writes
              Legacy.parent_heap 0 sample_child_fields 1 _ Legacy.sample_writes
              Nested.parent_store 0 (Some []) 1 Nested.family_store Nested.sample_writes
              heap_ok_text_root eq_refl legacy_heap_ok_parent eq_refl eq_refl)
    as (_ & Hf & Hs & _ & Hlf & Hle & _ & Hne).
  exact (conj Hf (conj Hs (conj Hlf (conj Hle Hne)))).
Defined.

(** *** Delivery from a descendant *)

Lemma child_alloc (h : heap) (p : addr) (f : value) (c : addr) (h1 : heap) :
  child p f h = Ok (c, h1) ->
  exists (pt t : Tracer),
    tracers h !! p = Some pt
    /\ c = length (tracers h)
    /\ tracers h1 = tracers h ++ [t]
    /\ objects h1 = objects h ++ [overlay (assign [] (VObj (fields_of h p))) f]
    /\ fields t = length (objects h)
    /\ _push t = FnBound (_push pt) p
    /\ noStream t = VBool false /\ events t = [] /\ buffer t = []
    /\ parent t = Some p.
Proof.
  intros H. unfold child in H.
  destruct (new_Tracer_alloc _ _ _ _ H)
    as (o & t & fset & Hv & Hc & Ht & Ho & Hf & He & Hb & _ & Hn & Hpar).
  apply validate_options in Hv. subst o. cbn in Hpar, Hn.
  destruct Hpar as (pt & Hp & Hpa & Hpu & _ & ->).
  exists pt, t. repeat split; assumption.
Qed.

(** Down a chain of [child] calls the [_push] of every Tracer is the
    root's function with the root as receiver. *)
Lemma descend_invariant (r : addr) (t : Tracer) (fs : list value) :
  forall (cur : addr) (tcur : Tracer) (h : heap) (c : addr) (h' : heap),
    tracers h !! r = Some t -> tracers h !! cur = Some tcur ->
    receiver_of (_push tcur) cur = r -> target_of (_push tcur) = target_of (_push t) ->
    descend cur fs h = Ok (c, h') ->
    exists tc,
      tracers h' !! c = Some tc /\ tracers h' !! r = Some t
      /\ receiver_of (_push tc) c = r /\ target_of (_push tc) = target_of (_push t)
      /\ (fs <> [] -> noStream tc = VBool false /\ events tc = [] /\ c <> r).
Proof.
  induction fs as [|f fs IH]; intros cur tcur h c h' Hr Hcur Hrec Htar H.
  - cbn in H. injection H as <- <-. exists tcur.
    refine (conj Hcur (conj Hr (conj Hrec (conj Htar _)))). intros Hne. congruence.
  - cbn [descend] in H. destruct (child cur f h) as [[c1 h1]|e] eqn:Hch; [|discriminate].
    destruct (child_alloc _ _ _ _ _ Hch)
      as (pt & t1 & Hp & Hc1 & Ht1 & _ & _ & Hpu & Hns & Hev & _ & _).
    assert (pt = tcur) as -> by congruence.
    assert (Hr1 : tracers h1 !! r = Some t).
    { rewrite Ht1. now apply lookup_app_l_Some. }
    assert (Hc1' : tracers h1 !! c1 = Some t1).
    { rewrite Ht1, Hc1. apply lookup_last. }
    assert (Hne : c1 <> r).
    { apply lookup_lt_Some in Hr. lia. }
    destruct (IH c1 t1 h1 c h' Hr1 Hc1') as (tc & Hc & Hr' & Hrec' & Htar' & Hchild).
    + rewrite Hpu. exact Hrec.
    + rewrite Hpu. exact Htar.
    + exact H.
    + exists tc. refine (conj Hc (conj Hr' (conj Hrec' (conj Htar' _)))).
      intros _. destruct fs as [|f' fs'].
      * cbn in H. injection H as <- <-.
        assert (tc = t1) as -> by congruence. repeat split; assumption.
      * apply Hchild. discriminate.
Qed.

Lemma unbound_self (f : fn) (r : addr) :
  unbound f -> receiver_of f r = r /\ target_of f = f.
Proof. intros [-> | ->]; split; reflexivity. Qed.

Lemma delivered_target (f g : fn) (ev : props) (t : Tracer) :
  target_of f = target_of g -> delivered f ev t = delivered g ev t.
Proof. unfold delivered. now intros ->. Qed.

Lemma event_chunks_target (f g : fn) (b : bool) (evs : list props) :
  target_of f = target_of g -> event_chunks f b evs = event_chunks g b evs.
Proof. unfold event_chunks. now intros ->. Qed.

Lemma delivered_record (f : fn) (ev : props) (t : Tracer) :
  events (delivered f ev t) = events t
  /\ noStream (delivered f ev t) = noStream t
  /\ _objectMode (delivered f ev t) = _objectMode t
  /\ parent (delivered f ev t) = parent t.
Proof.
  unfold delivered, string_pushed, pushed.
  destruct (target_of f); try (repeat split; reflexivity).
  destruct (firstPush t); repeat split; reflexivity.
Qed.

Lemma descend_delivery
    (h : heap) (r : addr) (t : Tracer) (fs : list value) (c : addr) (h' : heap) :
  tracers h !! r = Some t -> unbound (_push t) ->
  descend r fs h = Ok (c, h') ->
  exists tc,
    tracers h' !! c = Some tc /\ tracers h' !! r = Some t
    /\ receiver_of (_push tc) c = r /\ target_of (_push tc) = _push t
    /\ (forall ev, call_push c ev h' = update_tracer r (delivered (_push t) ev) h')
    /\ (fs <> [] -> noStream tc = VBool false /\ events tc = [] /\ c <> r).
Proof.
  intros Hr Hunb H.
  destruct (unbound_self (_push t) r Hunb) as (Hrec & Htar).
  destruct (descend_invariant r t fs r t h c h' Hr Hr Hrec eq_refl H)
    as (tc & Hc & Hr' & Hrec' & Htar' & Hchild).
  rewrite Htar in Htar'.
  exists tc. refine (conj Hc (conj Hr' (conj Hrec' (conj Htar' (conj _ Hchild))))).
  intros ev. rewrite (call_push_update c ev h' tc Hc), Hrec'.
  apply update_tracer_ext. intros t0 _. apply delivered_target.
  now rewrite Htar', Htar.
Qed.

(** C9: whatever chain of [child] calls leads from a root to a Tracer,
    that Tracer's [_push] is the root's own function with the root as
    receiver.  Delivery from it is delivery from the root: it changes the
    root's record only (the event goes on the root's stream, framed by the
    root's [firstPush]), no other Tracer and no FieldSet; and a phase
    method of a descendant that streams delivers that way. *)
Theorem descendants_deliver_to_root
    (h : heap) (r : addr) (t : Tracer) (fs : list value) (c : addr) (h' : heap) :
  tracers h !! r = Some t -> parent t = None -> unbound (_push t) ->
  descend r fs h = Ok (c, h') ->
  exists tc,
    tracers h' !! c = Some tc /\ tracers h' !! r = Some t
    /\ receiver_of (_push tc) c = r /\ target_of (_push tc) = _push t
    /\ (forall ev, call_push c ev h' = call_push r ev h')
    /\ (forall ev, call_push c ev h' = update_tracer r (delivered (_push t) ev) h')
    /\ (forall ev, buffer_of (call_push c ev h') r =
                   buffer t ++ event_chunks (_push t) (firstPush t) [ev])
    /\ (forall ev a, a <> r -> tracers (call_push c ev h') !! a = tracers h' !! a)
    /\ (forall ev, objects (call_push c ev h') = objects h')
    /\ (forall ph g now ev,
          truthy (noStream tc) = false -> make_event ph g now = Ok ev ->
          mkEventFunc ph c g now h' = Ok (update_tracer r (delivered (_push t) ev) h')).
Proof.
  intros Hr Hpar Hunb H.
  destruct (unbound_self (_push t) r Hunb) as (Hrec & Htar).
  destruct (descend_delivery h r t fs c h' Hr Hunb H)
    as (tc & Hc & Hr' & Hrec' & Htar' & Hcall & _).
  exists tc.
  refine (conj Hc (conj Hr' (conj Hrec' (conj Htar' (conj _ (conj Hcall
            (conj _ (conj _ (conj _ _))))))))).
  - intros ev. rewrite Hcall, (call_push_update r ev h' t Hr'), Hrec. reflexivity.
  - intros ev. rewrite Hcall, (buffer_of_update r _ h' t Hr').
    pose proof (delivered_all (_push t) [ev] t) as Hd. cbn [fold_left] in Hd.
    now rewrite Hd.
  - intros ev a Ha. rewrite Hcall. apply update_tracer_other. congruence.
  - intros ev. rewrite Hcall. apply update_tracer_objects.
  - intros ph g now ev Hn Hev. unfold mkEventFunc. rewrite Hev.
    cbn [mbind result_bind]. f_equal. unfold deliver. rewrite Hc, Hn. cbn [negb].
    apply Hcall.
Qed.

(** C9 on a grandchild of the sample text root. *)
Lemma descendants_deliver_to_root_witness :
  exists (h' : heap),
    descend 0 [sample_child_fields; VObj [("z", VNum 3)]] text_root_heap = Ok (2, h')
    /\ forall ev, call_push 2 ev h' = call_push 0 ev h'
                  /\ buffer_of (call_push 2 ev h') 0 =
                       [ChunkStr "["; ChunkStr (Json.stringify ev)].
Proof.
  eexists. split; [reflexivity|]. intros ev.
  destruct (descendants_deliver_to_root text_root_heap 0 text_root
              [sample_child_fields; VObj [("z", VNum 3)]] 2 _
              eq_refl eq_refl (or_intror eq_refl) eq_refl)
    as (tc & _ & _ & _ & _ & Hsame & _ & Hbuf & _).
  split; [apply Hsame | apply Hbuf].
Defined.

(** C10: a Tracer made by [child] has [noStream] false.  Under a root
    in buffered mode, an event built by a phase method of such a Tracer
    goes on the root's stream at once; no event buffer changes; and what
    the root's [flush] then pushes is the root's own buffered events and
    the closing bracket, the child's event not among them. *)
Theorem child_events_bypass_buffer
    (h : heap) (r : addr) (t : Tracer) (f : value) (fs : list value)
    (c : addr) (h' : heap) (ph : string) (g : value) (now : clock) (ev : props) :
  tracers h !! r = Some t -> parent t = None -> unbound (_push t) ->
  noStream t = VBool true ->
  descend r (f :: fs) h = Ok (c, h') ->
  make_event ph g now = Ok ev ->
  exists (tc : Tracer) (h'' : heap),
    tracers h' !! c = Some tc /\ noStream tc = VBool false
    /\ mkEventFunc ph c g now h' = Ok h''
    /\ buffer_of h'' r = buffer t ++ event_chunks (_push t) (firstPush t) [ev]
    /\ (forall a, events_of h'' a = events_of h' a)
    /\ events_of h'' r = events t
    /\ buffer_of (flush r h'') r =
         buffer_of h'' r ++
         event_chunks (_push t) (first_pushed h'' r) (events t) ++
         closing_chunks (_objectMode t).
Proof.
  intros Hr Hpar Hunb Hn H Hev.
  destruct (unbound_self (_push t) r Hunb) as (Hrec & Htar).
  destruct (descend_delivery h r t (f :: fs) c h' Hr Hunb H)
    as (tc & Hc & Hr' & Hrec' & Htar' & Hcall & Hchild).
  destruct (Hchild ltac:(discriminate)) as (Hns & Hevs & Hne).
  set (t2 := delivered (_push t) ev t).
  set (h2 := update_tracer r (delivered (_push t) ev) h').
  assert (Ht2 : tracers h2 !! r = Some t2) by now apply update_tracer_lookup.
  destruct (delivered_record (_push t) ev t) as (He2 & Hn2 & Hom2 & _).
  fold t2 in He2, Hn2, Hom2.
  pose proof (delivered_all (_push t) [ev] t) as Hd. cbn [fold_left] in Hd. fold t2 in Hd.
  exists tc, h2.
  refine (conj Hc (conj Hns (conj _ (conj _ (conj _ (conj _ _)))))).
  - unfold mkEventFunc. rewrite Hev. cbn [mbind result_bind]. f_equal.
    unfold deliver. rewrite Hc, Hns. cbn [truthy negb]. apply Hcall.
  - unfold buffer_of. rewrite Ht2, Hd. reflexivity.
  - intros a. unfold events_of. destruct (Nat.eq_dec a r) as [->|Ha].
    + now rewrite Ht2, Hr', He2.
    + unfold h2. rewrite update_tracer_other by congruence. reflexivity.
  - unfold events_of. now rewrite Ht2.
  - destruct (flush_buffered r h2 t2 Ht2) as (_ & Hflush).
    + unfold t2. rewrite delivered_push. exact Hrec.
    + now rewrite Hn2.
    + rewrite Hflush. unfold buffer_of, first_pushed. rewrite Ht2, He2, Hom2.
      unfold t2 at 2. rewrite delivered_push. reflexivity.
Qed.

(** C10 on the child of a buffered text root that holds one event. *)
Lemma child_events_bypass_buffer_witness :
  exists (h' : heap) (tc : Tracer) (h'' : heap),
    descend 0 [sample_child_fields] buffered_root_one = Ok (1, h')
    /\ tracers h' !! 1 = Some tc /\ noStream tc = VBool false
    /\ mkEventFunc "E" 1 (VStr "x") sample_now h' = Ok h''
    /\ buffer_of h'' 0 =
         [] ++ event_chunks FnPushString false
                 [[("ts", VNum 1000002); ("pid", VNum 7); ("tid", VNum 7);
                   ("ph", VStr "E"); ("name", VStr "x")]]
    /\ (forall a, events_of h'' a = events_of h' a)
    /\ events_of h'' 0 = [buffered_event]
    /\ buffer_of (flush 0 h'') 0 =
         buffer_of h'' 0 ++
         event_chunks FnPushString (first_pushed h'' 0) [buffered_event] ++
         closing_chunks (Some false).
Proof.
  eexists. 
  destruct (child_events_bypass_buffer buffered_root_one 0
              (mkTracer None 0 (VBool true) [buffered_event] (Some false) false
                        FnPushString [])
              sample_child_fields [] 1 _ "E" (VStr "x") sample_now
              [("ts", VNum 1000002); ("pid", VNum 7); ("tid", VNum 7);
               ("ph", VStr "E"); ("name", VStr "x")]
              eq_refl eq_refl (or_intror eq_refl) eq_refl eq_refl eq_refl)
    as (tc & h'' & H).
  exists tc, h''. split; [reflexivity | exact H].
Defined.

(** What the buffers hold in that run: the child's event is on the
    stream before [flush], and [flush] adds the buffered event only. *)
Example child_event_then_flush :
  exists h' h'',
    descend 0 [sample_child_fields] buffered_root_one = Ok (1, h')
    /\ end_ 1 (VStr "x") sample_now h' = Ok h''
    /\ buffer_of h'' 0 =
         [ChunkStr "[";
          ChunkStr (Json.stringify
                      [("ts", VNum 1000002); ("pid", VNum 7); ("tid", VNum 7);
                       ("ph", VStr "E"); ("name", VStr "x")])]
    /\ buffer_of (flush 0 h'') 0 =
         [ChunkStr "[";
          ChunkStr (Json.stringify
                      [("ts", VNum 1000002); ("pid", VNum 7); ("tid", VNum 7);
                       ("ph", VStr "E"); ("name", VStr "x")]);
          ChunkStr (",
" +:+ Json.stringify buffered_event);
          ChunkStr "]"].
Proof. eexists _, _. repeat split; reflexivity. Qed.

End family.


(** ** The time stamp *)

Section stamp.

(** X1: on readings in the range where the host's arithmetic is exact
    (a count of microseconds below 2^53), the [ts] of [evCommon] is the
    clock reading rounded to the nearest microsecond, at most half a
    microsecond off.  A reading that is not earlier gives a [ts] that is
    not smaller, and one at least a microsecond later gives a larger
    one. *)
Theorem evCommon_ts_order (a b : clock) :
  in_range a -> in_range b ->
  (nanos a <= nanos b)%Z ->
  exists x y : Z,
    get (evCommon a) "ts" = VNum x /\ get (evCommon b) "ts" = VNum y
    /\ (0 <= x <= 9007199254740992)%Z
    /\ (x <= y)%Z
    /\ (nanos a + 1000 <= nanos b -> x < y)%Z
    /\ (1000 * x - 500 <= nanos a < 1000 * x + 500)%Z.
Proof.
  intros (Hsa & Hna & Hra) (Hsb & Hnb & Hrb) Hab.
  eexists _, _. split; [reflexivity|]. split; [reflexivity|].
  assert (Hts : forall c : clock,
             (seconds c * 1000000 + round_div_1000 (nanoseconds c) =
              (nanos c + 500) / 1000)%Z).
  { intros c. unfold round_div_1000, nanos.
    replace (seconds c * 1000000000 + nanoseconds c + 500)%Z
      with (seconds c * 1000000 * 1000 + (nanoseconds c + 500))%Z by lia.
    rewrite Z.div_add_l by lia. reflexivity. }
  assert (Hround : (0 <= round_div_1000 (nanoseconds a) <= 1000000)%Z).
  { unfold round_div_1000.
    pose proof (Z.div_mod (nanoseconds a + 500) 1000 ltac:(lia)) as Hd.
    pose proof (Z.mod_pos_bound (nanoseconds a + 500) 1000 ltac:(lia)) as Hm.
    lia. }
  split; [lia|].
  rewrite !Hts.
  pose proof (Z.div_mod (nanos a + 500) 1000 ltac:(lia)) as Ha.
  pose proof (Z.mod_pos_bound (nanos a + 500) 1000 ltac:(lia)) as Ha'.
  pose proof (Z.div_mod (nanos b + 500) 1000 ltac:(lia)) as Hb.
  pose proof (Z.mod_pos_bound (nanos b + 500) 1000 ltac:(lia)) as Hb'.
  repeat split; try intros; lia.
Qed.

(** The order of two readings in one second, a microsecond and a half
    apart. *)
Lemma evCommon_ts_order_witness :
  exists x y : Z,
    get (evCommon (Clock 1 1500 7)) "ts" = VNum x
    /\ get (evCommon (Clock 1 3000 7)) "ts" = VNum y
    /\ (0 <= x <= 9007199254740992)%Z
    /\ (x <= y)%Z
    /\ (nanos (Clock 1 1500 7) + 1000 <= nanos (Clock 1 3000 7) -> x < y)%Z
    /\ (1000 * x - 500 <= nanos (Clock 1 1500 7) < 1000 * x + 500)%Z.
Proof.
  apply (evCommon_ts_order (Clock 1 1500 7) (Clock 1 3000 7)).
  - unfold in_range. cbn. lia.
  - unfold in_range. cbn. lia.
  - vm_compute. discriminate.
Defined.

End stamp.

(** ** When a phase method throws *)

Section throwing.
Import TraceEvent.




(** The two variants on the argument [{cat: null}]. *)
Example null_cat_in_both_variants :
  begin 0 (VObj [("cat", VNull)]) sample_now text_root_heap = Throw TypeError
  /\ Legacy.make_event "b" [("cat", VStr "default"); ("args", VObj [])]
       (VObj [("cat", VNull)]) sample_now =
     Ok [("ts", VNum 1000002); ("pid", VNum 7); ("tid", VNum 7); ("ph", VStr "b");
         ("cat", VNull); ("args", VObj [])].
Proof. split; reflexivity. Qed.

End throwing.

(** ** One stream for a family of Tracers *)

Section shared_stream.
Import TraceEvent.

Lemma streams_to_update (h : heap) (r c : addr) (f : fn) (ev : props) :
  streams_to h r c -> streams_to (update_tracer r (delivered f ev) h) r c.
Proof.
  intros (tr & tc & Hr & Hc & Hn & Hrec & Htar).
  destruct (delivered_record f ev tr) as (_ & Hns & _ & _).
  exists (delivered f ev tr).
  destruct (Nat.eq_dec c r) as [->|Hne].
  - assert (tc = tr) as -> by congruence.
    exists (delivered f ev tr).
    rewrite (update_tracer_lookup r _ h tr Hr), delivered_push, Hns.
    repeat split; assumption.
  - exists tc. rewrite (update_tracer_lookup r _ h tr Hr), delivered_push.
    rewrite update_tracer_other by congruence. repeat split; assumption.
Qed.

(** Calls on Tracers that stream to the root [r] are deliveries to the
    record of [r], in the order of the calls. *)
Lemma run_family_delivered (calls : list (addr * method_call)) :
  forall (h : heap) (r : addr) (t : Tracer),
    tracers h !! r = Some t ->
    Forall (fun c => streams_to h r (fst c)) calls ->
    run_family calls h =
      update_tracer r
        (fun t' => fold_left (fun t'' ev => delivered (_push t) ev t'')
                             (constructed (map snd calls)) t') h.
Proof.
  unfold run_family.
  induction calls as [|[c m] cs IH]; intros h r t Hr Hall.
  - cbn. now rewrite update_tracer_id.
  - apply Forall_cons in Hall as [Hc Hcs]. cbn [fst] in Hc.
    cbn [fold_left map snd fst constructed]. rewrite step_deliver.
    destruct (make_event _ _ _) as [ev|e]; [|now apply IH].
    destruct Hc as (tr & tc & Hr' & Hc & Hn & Hrec & Htar).
    assert (tr = t) as -> by congruence.
    rewrite (deliver_stream c ev h tc Hc Hn), Hrec.
    assert (Hd : update_tracer r (delivered (_push tc) ev) h =
                 update_tracer r (delivered (_push t) ev) h).
    { apply update_tracer_ext. intros t0 _. now apply delivered_target. }
    rewrite Hd.
    rewrite (IH _ r (delivered (_push t) ev t)).
    + rewrite update_tracer_twice, delivered_push. reflexivity.
    + now apply update_tracer_lookup.
    + eapply Forall_impl; [exact Hcs|]. intros [c' m'] Hc'. cbn [fst] in *.
      now apply streams_to_update.
Qed.

Lemma run_as_family (r : addr) (calls : list method_call) (h : heap) :
  run r calls h = run_family (map (fun c => (r, c)) calls) h.
Proof.
  unfold run, run_family. revert h.
  induction calls as [|c cs IH]; intros h; [reflexivity | apply IH].
Qed.

(** A run of calls on a root that streams. *)
Lemma run_stream (r : addr) (calls : list method_call) (h : heap) (t : Tracer) :
  tracers h !! r = Some t -> receiver_of (_push t) r = r ->
  truthy (noStream t) = false ->
  run r calls h =
    update_tracer r
      (fun t' => fold_left (fun t'' ev => delivered (_push t) ev t'')
                           (constructed calls) t') h.
Proof.
  intros Hr Hrec Hn. rewrite run_as_family.
  rewrite (run_family_delivered _ h r t Hr).
  - rewrite map_map. cbn [snd]. now rewrite map_id.
  - apply List.Forall_forall. intros [c m] Hin. apply in_map_iff in Hin as (m' & E & _).
    injection E as <- <-. cbn [fst]. exists t, t. repeat split; assumption.
Qed.

(** Every Tracer a chain of [child] calls reaches from a root that
    streams does stream to that root. *)
Lemma descend_streams_to
    (h : heap) (r : addr) (t : Tracer) (fs : list value) (c : addr) (h' : heap) :
  tracers h !! r = Some t -> unbound (_push t) -> truthy (noStream t) = false ->
  descend r fs h = Ok (c, h') ->
  streams_to h' r c.
Proof.
  intros Hr Hunb Hn H.
  destruct (descend_delivery h r t fs c h' Hr Hunb H)
    as (tc & Hc & Hr' & Hrec & Htar & _ & Hchild).
  destruct (unbound_self (_push t) r Hunb) as (_ & Htt).
  exists t, tc. refine (conj Hr' (conj Hc (conj _ (conj Hrec _)))).
  - destruct fs as [|f fs].
    + cbn in H. injection H as <- <-. assert (tc = t) as -> by congruence. exact Hn.
    + destruct (Hchild ltac:(discriminate)) as (-> & _). reflexivity.
  - now rewrite Htar, Htt.
Qed.

(** X4: the Tracers of one family share the root's stream.  Whatever
    Tracers the calls are made on, as long as each streams to the root
    (the root itself, or any Tracer made from it by [child] calls), the
    root's stream gets the events in the order of the calls, under one
    framing: in text mode one opening bracket before the first event and
    ",\n" before every later one, whichever Tracer it came from.  No
    other Tracer's stream gets anything, and no FieldSet changes. *)
Theorem family_shares_stream
    (h : heap) (r : addr) (t : Tracer) (calls : list (addr * method_call)) :
  tracers h !! r = Some t ->
  Forall (fun c => streams_to h r (fst c)) calls ->
  buffer_of (run_family calls h) r =
    buffer t ++ event_chunks (_push t) (firstPush t) (constructed (map snd calls))
  /\ (forall a, a <> r -> tracers (run_family calls h) !! a = tracers h !! a)
  /\ objects (run_family calls h) = objects h.
Proof.
  intros Hr Hall. rewrite (run_family_delivered calls h r t Hr Hall).
  refine (conj _ (conj _ _)).
  - rewrite (buffer_of_update r _ h t Hr), delivered_all. reflexivity.
  - intros a Ha. apply update_tracer_other. congruence.
  - apply update_tracer_objects.
Qed.

End shared_stream.

(** ** Text that never becomes an array *)

Section unclosed.
Import Json.

Lemma no_digit_head_stuck_tail (w stop : string) (l : list string) :
  no_digit_head stop -> no_digit_head (sep_tail (String "," w) l +:+ stop).
Proof. intros Hstop. destruct l; [exact Hstop | reflexivity]. Qed.

(** The elements of an array after the first, followed by a text [stop]
    the reader cannot go on from: nothing is read. *)
Lemma read_elements_stuck (w stop : string) (l : list value) :
  all_ws w = true ->
  Forall reads_back l ->
  forallb clean l = true ->
  no_digit_head stop ->
  (forall fuel, read_elements fuel stop = None) ->
  forall fuel : nat,
    S (chain_elements l) <= fuel ->
    read_elements fuel (sep_tail (String "," w) (map element_text l) +:+ stop) = None.
Proof.
  intros Hw Hall. induction Hall as [|x r Hx Hr IH]; intros Hc Hstop Hnone fuel Hfuel.
  - apply Hnone.
  - cbn [forallb] in Hc. apply andb_prop in Hc as [Hcx Hcr].
    destruct fuel as [|fuel]; [lia|]. cbn [chain_elements] in Hfuel.
    cbn [map sep_tail]. rewrite read_elements_S.
    change (String "," w +:+ element_text x +:+ sep_tail (String "," w) (map element_text r))
      with (String "," (w +:+ element_text x +:+ sep_tail (String "," w) (map element_text r))).
    cbn [append skip_ws]. change (is_ws ",") with false. cbv iota.
    change (Nat.eqb (nat_of_ascii ",") 93) with false.
    change (Nat.eqb (nat_of_ascii ",") 44) with true. cbv iota.
    rewrite !append_assoc, read_value_skip by exact Hw.
    rewrite (Hx Hcx fuel) by (try lia; now apply no_digit_head_stuck_tail).
    rewrite (IH Hcr Hstop Hnone fuel) by lia. reflexivity.
Qed.

Lemma read_elements_end (fuel : nat) : read_elements fuel "" = None.
Proof. destruct fuel; reflexivity. Qed.

Lemma read_elements_comma (fuel : nat) :
  read_elements fuel ",
" = None.
Proof. destruct fuel as [|[|fuel]]; reflexivity. Qed.

(** An opening bracket, one or more events on their lines, and then a
    text the reader cannot go on from: no JSON text. *)
Lemma parse_stuck_lines (stop : string) (e : props) (r : list props) :
  no_digit_head stop ->
  (forall fuel, read_elements fuel stop = None) ->
  parse ("[" +:+ stringify e +:+ sep_tail ",
" (map stringify r) +:+ stop) = None.
Proof.
  intros Hstop Hnone.
  rewrite <- (stringify_scrub e).
  replace (map stringify r) with (map element_text (map VObj (map scrub_event r)))
    by (rewrite !map_map; apply map_ext; intros x; apply stringify_scrub).
  rewrite stringify_element_text.
  assert (Hce : clean (VObj (scrub_event e)) = true) by apply clean_scrub_event.
  assert (Hcr : forallb clean (map VObj (map scrub_event r)) = true).
  { rewrite <- forallb_clean_events. induction r as [|x r IH]; [reflexivity|].
    cbn [map forallb]. now rewrite clean_scrub_event, IH. }
  set (e' := VObj (scrub_event e)) in *.
  set (r' := map VObj (map scrub_event r)) in *.
  assert (Hall : forall l : list value, Forall reads_back l).
  { intros l. apply List.Forall_forall. intros x _. apply read_value_element. }
  assert (Hlen : forall l : list value,
             Forall (fun x => clean x = true ->
                              depth x <= String.length (element_text x)) l).
  { intros l. apply List.Forall_forall. intros x _. apply depth_le_length. }
  unfold parse.
  pose proof (depth_le_length e' Hce) as Hde.
  pose proof (chain_elements_length (String "," (String "010" "")) r'
                ltac:(cbn; lia) (Hlen _) Hcr) as Hdr.
  set (tail := sep_tail (String "," (String "010" "")) (map element_text r')) in *.
  remember (String.length ("[" +:+ element_text e' +:+ tail +:+ stop)) as fuel eqn:Hfuel.
  cbn [append String.length] in Hfuel. rewrite !length_append in Hfuel.
  cbn [append]. rewrite read_value_array.
  destruct (element_text_head e') as (c & t & Hx & Hws & Hb & _).
  rewrite Hx at 1. cbn [append skip_ws]. rewrite Hws, Hb.
  rewrite (read_value_element e' Hce)
    by (try (unfold tail; now apply no_digit_head_stuck_tail); lia).
  unfold tail.
  rewrite (read_elements_stuck (String "010" "") stop r' eq_refl (Hall _) Hcr Hstop Hnone)
    by (fold tail; lia).
  reflexivity.
Qed.

End unclosed.

(** ** Roots as the constructor makes them *)

Section roots.
Import TraceEvent.

(** The Tracer [new Tracer(opts)] makes without a parent. *)
Lemma new_root (o : TracerOptions) (v : value) (h0 : heap) (r : addr) (h1 : heap) :
  opt_parent o = PValue v ->
  new_Tracer (ArgOptions o) h0 = Ok (r, h1) ->
  exists t,
    tracers h1 !! r = Some t
    /\ events t = [] /\ buffer t = [] /\ firstPush t = false
    /\ noStream t = (if truthy (opt_noStream o) then opt_noStream o else VBool false)
    /\ _objectMode t = Some (truthy (opt_objectMode o))
    /\ _push t = (if truthy (opt_objectMode o) then FnPush else FnPushString)
    /\ (forall a, a <> r -> tracers h1 !! a = tracers h0 !! a).
Proof.
  intros Hpar H.
  destruct (new_Tracer_alloc _ _ _ _ H)
    as (o' & t & fset & Hv & -> & Ht & _ & _ & He & Hb & Hf & Hn & Hp).
  apply validate_options in Hv. subst o'. rewrite Hpar in Hp.
  destruct Hp as (_ & _ & Hom & Hpu & _).
  exists t. rewrite Ht, lookup_last.
  refine (conj eq_refl (conj He (conj Hb (conj Hf (conj Hn (conj Hom (conj Hpu _))))))).
  intros a Ha. destruct (Nat.lt_ge_cases a (length (tracers h0))) as [Hlt|Hge].
  - now rewrite lookup_app_l.
  - rewrite !lookup_ge_None_2; [reflexivity | lia |].
    rewrite length_app. cbn [length]. lia.
Qed.

Lemma unbound_root_push (b : bool) : unbound (if b then FnPush else FnPushString).
Proof. destruct b; [now left | now right]. Qed.

(** X5: a root made with [objectMode: true] that streams pushes every
    event as an object, in the order of the calls, and no text at all:
    no bracket before the first event, no separator, and none from the
    closing step [_flush] or from [flush], which leave the stream as it
    is. *)
Theorem object_mode_stream
    (o : TracerOptions) (v : value) (h0 : heap) (r : addr) (h1 : heap)
    (calls : list method_call) :
  opt_parent o = PValue v -> opt_objectMode o = VBool true ->
  truthy (opt_noStream o) = false ->
  new_Tracer (ArgOptions o) h0 = Ok (r, h1) ->
  buffer_of (run r calls h1) r = map ChunkObj (constructed calls)
  /\ _flush r (run r calls h1) = run r calls h1
  /\ flush r (run r calls h1) = run r calls h1.
Proof.
  intros Hpar Hom Hns H.
  destruct (new_root o v h0 r h1 Hpar H)
    as (t & Ht & _ & Hb & _ & Hn & Hmode & Hpu & _).
  rewrite Hns in Hn. rewrite Hom in Hmode, Hpu. cbn [truthy] in Hmode, Hpu.
  rewrite (run_stream r calls h1 t Ht) by (rewrite ?Hpu, ?Hn; reflexivity).
  set (F := fun t' => fold_left (fun t'' ev => delivered (_push t) ev t'')
                                (constructed calls) t').
  assert (HF : tracers (update_tracer r F h1) !! r = Some (F t))
    by now apply update_tracer_lookup.
  assert (HFt : F t = mkTracer (parent t) (fields t) (noStream t) (events t)
                        (_objectMode t) (firstPush t) (_push t)
                        (buffer t ++ map ChunkObj (constructed calls))).
  { unfold F. rewrite delivered_all, Hpu. reflexivity. }
  refine (conj _ (conj _ _)).
  - unfold buffer_of. rewrite HF, HFt. cbn [buffer]. now rewrite Hb.
  - unfold _flush. rewrite HF, HFt. cbn [_objectMode]. now rewrite Hmode.
  - unfold flush. rewrite HF, HFt. cbn [noStream]. now rewrite Hn.
Qed.

(** The two sample calls on a root in object mode. *)
Lemma object_mode_stream_witness :
  exists h1,
    new_Tracer (ArgOptions (mkOptions (PValue VUndef) VUndef (VBool true) VUndef))
               empty_heap = Ok (0, h1)
    /\ buffer_of (run 0 sample_calls h1) 0 = map ChunkObj (constructed sample_calls)
    /\ _flush 0 (run 0 sample_calls h1) = run 0 sample_calls h1
    /\ flush 0 (run 0 sample_calls h1) = run 0 sample_calls h1.
Proof.
  eexists. split; [reflexivity|].
  apply (object_mode_stream
           (mkOptions (PValue VUndef) VUndef (VBool true) VUndef) VUndef
           empty_heap 0 _ sample_calls); reflexivity.
Defined.

(** X6: a root made with [noStream: true] keeps every event and pushes
    nothing until [flush]; in object mode [flush] then pushes the kept
    events as objects, in order, with no bracket; it keeps them, and a
    second [flush] pushes them all again. *)
Theorem object_mode_flush
    (o : TracerOptions) (v : value) (h0 : heap) (r : addr) (h1 : heap)
    (calls : list method_call) :
  opt_parent o = PValue v -> opt_objectMode o = VBool true ->
  opt_noStream o = VBool true ->
  new_Tracer (ArgOptions o) h0 = Ok (r, h1) ->
  buffer_of (run r calls h1) r = []
  /\ events_of (run r calls h1) r = constructed calls
  /\ buffer_of (flush r (run r calls h1)) r = map ChunkObj (constructed calls)
  /\ events_of (flush r (run r calls h1)) r = constructed calls
  /\ buffer_of (flush r (flush r (run r calls h1))) r =
       map ChunkObj (constructed calls) ++ map ChunkObj (constructed calls).
Proof.
  intros Hpar Hom Hns H.
  destruct (new_root o v h0 r h1 Hpar H)
    as (t & Ht & He & Hb & _ & Hn & Hmode & Hpu & _).
  rewrite Hns in Hn. rewrite Hom in Hmode, Hpu. cbn [truthy] in Hn, Hmode, Hpu.
  rewrite run_constructed.
  rewrite (deliver_all_buffer r (constructed calls) h1 t Ht) by now rewrite Hn.
  set (t1 := buffered (constructed calls) t).
  set (h2 := update_tracer r (buffered (constructed calls)) h1).
  assert (Ht1 : tracers h2 !! r = Some t1) by now apply update_tracer_lookup.
  assert (He1 : events t1 = constructed calls) by (unfold t1; cbn; now rewrite He).
  destruct (flush_buffered r h2 t1 Ht1) as (Hfl & Hbuf);
    [unfold t1; cbn; now rewrite Hpu | exact Hn |].
  assert (Hbuf1 : buffer_of (flush r h2) r = map ChunkObj (constructed calls)).
  { rewrite Hbuf, He1. unfold t1 at 1 2 3 4. cbn [buffered buffer _push firstPush _objectMode].
    rewrite Hb, Hpu, Hmode. cbn. now rewrite app_nil_r. }
  set (F := fun t' => closed (fold_left (fun t'' ev => delivered (_push t1) ev t'')
                                        (events t1) t')) in *.
  assert (Ht2 : tracers (flush r h2) !! r = Some (F t1)).
  { rewrite Hfl. now apply update_tracer_lookup. }
  assert (HFt : F t1 = mkTracer (parent t) (fields t) (noStream t) (constructed calls)
                         (_objectMode t) (firstPush t) (_push t)
                         (map ChunkObj (constructed calls))).
  { unfold F. rewrite delivered_all. unfold closed, t1, buffered.
    cbn [parent fields noStream events _objectMode firstPush _push buffer].
    rewrite Hmode, Hpu, Hb, He. reflexivity. }
  refine (conj _ (conj _ (conj Hbuf1 (conj _ _)))).
  - unfold buffer_of. rewrite Ht1. exact Hb.
  - unfold events_of. rewrite Ht1. exact He1.
  - unfold events_of. rewrite Ht2, HFt. reflexivity.
  - destruct (flush_buffered r (flush r h2) (F t1) Ht2) as (_ & Hbuf2);
      [rewrite HFt; cbn; now rewrite Hpu | rewrite HFt; exact Hn |].
    rewrite Hbuf2, HFt. cbn [buffer _push firstPush events _objectMode].
    rewrite Hpu, Hmode. cbn. now rewrite app_nil_r.
Qed.

(** The two sample calls on a buffering root in object mode. *)
Lemma object_mode_flush_witness :
  exists h1,
    new_Tracer (ArgOptions (mkOptions (PValue VUndef) VUndef (VBool true) (VBool true)))
               empty_heap = Ok (0, h1)
    /\ buffer_of (run 0 sample_calls h1) 0 = []
    /\ events_of (run 0 sample_calls h1) 0 = constructed sample_calls
    /\ buffer_of (flush 0 (run 0 sample_calls h1)) 0 =
         map ChunkObj (constructed sample_calls)
    /\ events_of (flush 0 (run 0 sample_calls h1)) 0 = constructed sample_calls
    /\ buffer_of (flush 0 (flush 0 (run 0 sample_calls h1))) 0 =
         map ChunkObj (constructed sample_calls) ++
         map ChunkObj (constructed sample_calls).
Proof.
  eexists. split; [reflexivity|].
  apply (object_mode_flush
           (mkOptions (PValue VUndef) VUndef (VBool true) (VBool true)) VUndef
           empty_heap 0 _ sample_calls); reflexivity.
Defined.

End roots.

(** ** Buffering that never ends, and text that is never closed *)

Section held_back.
Import TraceEvent.

(** X7: [noStream] is tested for truthiness when an event is delivered
    and for identity with [true] in [flush].  A root made with a truthy
    [noStream] that is not [true] (the number 1, a string) keeps every
    event and pushes nothing, and [flush] does nothing on it: the events
    never reach the stream. *)
Theorem truthy_noStream_holds_events
    (o : TracerOptions) (v : value) (h0 : heap) (r : addr) (h1 : heap)
    (calls : list method_call) :
  opt_parent o = PValue v ->
  truthy (opt_noStream o) = true -> opt_noStream o <> VBool true ->
  new_Tracer (ArgOptions o) h0 = Ok (r, h1) ->
  buffer_of (run r calls h1) r = []
  /\ events_of (run r calls h1) r = constructed calls
  /\ flush r (run r calls h1) = run r calls h1.
Proof.
  intros Hpar Hns Hne H.
  destruct (new_root o v h0 r h1 Hpar H) as (t & Ht & He & Hb & _ & Hn & _).
  rewrite Hns in Hn.
  rewrite run_constructed.
  rewrite (deliver_all_buffer r (constructed calls) h1 t Ht) by now rewrite Hn.
  assert (Ht1 : tracers (update_tracer r (buffered (constructed calls)) h1) !! r =
                Some (buffered (constructed calls) t))
    by now apply update_tracer_lookup.
  refine (conj _ (conj _ _)).
  - unfold buffer_of. rewrite Ht1. exact Hb.
  - unfold events_of. rewrite Ht1. cbn. now rewrite He.
  - unfold flush. rewrite Ht1. cbn [buffered noStream]. rewrite Hn.
    destruct (opt_noStream o) as [| |[]| | | |]; try reflexivity. congruence.
Qed.

(** The two sample calls on a root made with [noStream: 1]. *)
Lemma truthy_noStream_holds_events_witness :
  exists h1,
    new_Tracer (ArgOptions (mkOptions (PValue VUndef) VUndef VUndef (VNum 1)))
               empty_heap = Ok (0, h1)
    /\ buffer_of (run 0 sample_calls h1) 0 = []
    /\ events_of (run 0 sample_calls h1) 0 = constructed sample_calls
    /\ flush 0 (run 0 sample_calls h1) = run 0 sample_calls h1.
Proof.
  eexists. split; [reflexivity|].
  apply (truthy_noStream_holds_events
           (mkOptions (PValue VUndef) VUndef VUndef (VNum 1)) VUndef
           empty_heap 0 _ sample_calls); [reflexivity | reflexivity | discriminate | reflexivity].
Defined.

(** Deliveries through a Tracer whose [_push] is bound to another one. *)
Lemma call_push_all_bound (c r : addr) (evs : list props) (h : heap) (tc : Tracer) :
  tracers h !! c = Some tc -> c <> r -> receiver_of (_push tc) c = r ->
  fold_left (fun h' ev => call_push c ev h') evs h =
    update_tracer r
      (fun t' => fold_left (fun t'' ev => delivered (_push tc) ev t'') evs t') h.
Proof.
  revert h. induction evs as [|e l IH]; intros h Hc Hne Hrec.
  - cbn [fold_left]. now rewrite update_tracer_id.
  - cbn [fold_left]. rewrite (call_push_update c e h tc Hc), Hrec.
    rewrite IH; [now rewrite update_tracer_twice | | exact Hne | exact Hrec].
    rewrite update_tracer_other by congruence. exact Hc.
Qed.

(** X8: a Tracer made with a parent and [noStream: true] keeps its
    events; its [flush] sends them to the root's stream, framed there
    like any other event, but its closing bracket goes on its own stream
    (a Tracer with a parent has no [_objectMode]), not on the root's:
    the root's text stays unclosed. *)
Theorem buffering_child_flush
    (o : TracerOptions) (r : addr) (tr : Tracer) (h0 : heap) (c : addr) (h1 : heap)
    (calls : list method_call) :
  opt_parent o = PTracer r -> opt_noStream o = VBool true ->
  tracers h0 !! r = Some tr -> unbound (_push tr) ->
  new_Tracer (ArgOptions o) h0 = Ok (c, h1) ->
  buffer_of (run c calls h1) r = buffer tr
  /\ events_of (run c calls h1) c = constructed calls
  /\ buffer_of (flush c (run c calls h1)) r =
       buffer tr ++ event_chunks (_push tr) (firstPush tr) (constructed calls)
  /\ buffer_of (flush c (run c calls h1)) c = [ChunkStr "]"].
Proof.
  intros Hpar Hns Hr Hunb H.
  destruct (unbound_self (_push tr) r Hunb) as (Hrec & Htar).
  destruct (new_Tracer_alloc _ _ _ _ H)
    as (o' & tc & fset & Hv & Hc & Ht & _ & _ & He & Hb & _ & Hn & Hp).
  apply validate_options in Hv. subst o'. rewrite Hpar in Hp. rewrite Hns in Hn.
  cbn [truthy] in Hn.
  destruct Hp as (pt & Hpt & _ & Hpu & Hom & _).
  assert (pt = tr) as -> by congruence.
  assert (Hne : c <> r) by (apply lookup_lt_Some in Hr; lia).
  assert (Hc1 : tracers h1 !! c = Some tc) by (rewrite Ht, Hc; apply lookup_last).
  assert (Hr1 : tracers h1 !! r = Some tr) by (rewrite Ht; now apply lookup_app_l_Some).
  rewrite run_constructed.
  rewrite (deliver_all_buffer c (constructed calls) h1 tc Hc1) by now rewrite Hn.
  set (evs := constructed calls).
  set (h2 := update_tracer c (buffered evs) h1).
  assert (Hc2 : tracers h2 !! c = Some (buffered evs tc)) by now apply update_tracer_lookup.
  assert (Hr2 : tracers h2 !! r = Some tr).
  { unfold h2. now rewrite update_tracer_other. }
  assert (Hfl : flush c h2 =
                update_tracer c closed
                  (update_tracer r
                     (fun t' => fold_left (fun t'' ev => delivered (_push tc) ev t'')
                                          evs t') h2)).
  { unfold flush. rewrite Hc2. cbn [buffered noStream events]. rewrite Hn, He.
    cbn [app]. rewrite _flush_closed.
    rewrite (call_push_all_bound c r evs h2 (buffered evs tc) Hc2 Hne)
      by (cbn [buffered _push]; rewrite Hpu; exact Hrec).
    reflexivity. }
  refine (conj _ (conj _ (conj _ _))).
  - unfold buffer_of. now rewrite Hr2.
  - unfold events_of. rewrite Hc2. cbn. now rewrite He.
  - rewrite Hfl. unfold buffer_of. rewrite update_tracer_other by exact Hne.
    rewrite (update_tracer_lookup r _ h2 tr Hr2), delivered_all. cbn [buffer].
    f_equal. apply event_chunks_target. rewrite Hpu. reflexivity.
  - rewrite Hfl. unfold buffer_of.
    rewrite (update_tracer_lookup c closed _ (buffered evs tc)).
    + unfold closed. cbn [buffered _objectMode]. rewrite Hom. cbn. now rewrite Hb.
    + rewrite update_tracer_other by congruence. exact Hc2.
Qed.

(** A buffering child of the sample text root, on the two sample calls. *)
Lemma buffering_child_flush_witness :
  exists h1,
    new_Tracer (ArgOptions (mkOptions (PTracer 0) VUndef VUndef (VBool true)))
               text_root_heap = Ok (1, h1)
    /\ buffer_of (run 1 sample_calls h1) 0 = []
    /\ events_of (run 1 sample_calls h1) 1 = constructed sample_calls
    /\ buffer_of (flush 1 (run 1 sample_calls h1)) 0 =
         [] ++ event_chunks FnPushString false (constructed sample_calls)
    /\ buffer_of (flush 1 (run 1 sample_calls h1)) 1 = [ChunkStr "]"].
Proof.
  eexists. split; [reflexivity|].
  apply (buffering_child_flush
           (mkOptions (PTracer 0) VUndef VUndef (VBool true)) 0 text_root
           text_root_heap 1 _ sample_calls);
    [reflexivity | reflexivity | reflexivity | now right | reflexivity].
Defined.

(** X9: the public methods of a text-mode root that streams never
    close the array.  Whatever the calls, and with [flush] after them,
    the text on the stream is no JSON text: it is empty when no event was
    built, and else an opening bracket and the events with no closing
    bracket. *)
Theorem stream_text_never_closed
    (o : TracerOptions) (v : value) (h0 : heap) (r : addr) (h1 : heap)
    (calls : list method_call) :
  opt_parent o = PValue v -> truthy (opt_objectMode o) = false ->
  truthy (opt_noStream o) = false ->
  new_Tracer (ArgOptions o) h0 = Ok (r, h1) ->
  flush r (run r calls h1) = run r calls h1
  /\ text_of (buffer_of (run r calls h1) r) =
       match constructed calls with
       | [] => ""
       | e :: evs => "[" +:+ Json.stringify e +:+ Json.sep_tail ",
" (map Json.stringify evs)
       end
  /\ Json.parse (text_of (buffer_of (flush r (run r calls h1)) r)) = None.
Proof.
  intros Hpar Hom Hns H.
  destruct (new_root o v h0 r h1 Hpar H)
    as (t & Ht & _ & Hb & Hf & Hn & _ & Hpu & _).
  rewrite Hns in Hn. rewrite Hom in Hpu.
  rewrite (run_stream r calls h1 t Ht) by (rewrite ?Hpu, ?Hn; reflexivity).
  set (F := fun t' => fold_left (fun t'' ev => delivered (_push t) ev t'')
                                (constructed calls) t').
  assert (HF : tracers (update_tracer r F h1) !! r = Some (F t))
    by now apply update_tracer_lookup.
  assert (HFn : noStream (F t) = VBool false /\
                buffer (F t) = frame_chunks false (constructed calls)).
  { unfold F. rewrite delivered_all, Hpu. cbn. now rewrite Hn, Hb, Hf. }
  destruct HFn as (HFn & HFb).
  assert (Hfl : flush r (update_tracer r F h1) = update_tracer r F h1).
  { unfold flush. now rewrite HF, HFn. }
  assert (Htext : text_of (buffer_of (update_tracer r F h1) r) =
                  match constructed calls with
                  | [] => ""
                  | e :: evs => "[" +:+ Json.stringify e +:+ Json.sep_tail ",
" (map Json.stringify evs)
                  end).
  { unfold buffer_of. rewrite HF, HFb.
    destruct (constructed calls) as [|e evs]; [reflexivity | apply text_of_frame]. }
  refine (conj Hfl (conj Htext _)).
  rewrite Hfl, Htext. destruct (constructed calls) as [|e evs]; [reflexivity|].
  rewrite <- (append_nil_r (Json.sep_tail _ _)), <- !append_assoc.
  rewrite !append_assoc.
  apply (parse_stuck_lines "" e evs I read_elements_end).
Qed.

(** The two sample calls on a text-mode root. *)
Lemma stream_text_never_closed_witness :
  exists h1,
    new_Tracer (ArgOptions (mkOptions (PValue VUndef) VUndef VUndef VUndef))
               empty_heap = Ok (0, h1)
    /\ flush 0 (run 0 sample_calls h1) = run 0 sample_calls h1
    /\ text_of (buffer_of (run 0 sample_calls h1) 0) =
         match constructed sample_calls with
         | [] => ""
         | e :: evs => "[" +:+ Json.stringify e +:+ Json.sep_tail ",
" (map Json.stringify evs)
         end
    /\ Json.parse (text_of (buffer_of (flush 0 (run 0 sample_calls h1)) 0)) = None.
Proof.
  eexists. split; [reflexivity|].
  apply (stream_text_never_closed
           (mkOptions (PValue VUndef) VUndef VUndef VUndef) VUndef
           empty_heap 0 _ sample_calls); reflexivity.
Defined.

End held_back.

Section shared_stream_sample.
Import TraceEvent.

(** A root, its child and its grandchild, called in turn: the grandchild
    first, then the root, then the child. *)
Lemma family_shares_stream_witness :
  exists h',
    descend 0 [sample_child_fields; VObj [("z", VNum 3)]] text_root_heap = Ok (2, h')
    /\ buffer_of
         (run_family [(2, MethodCall PhBegin (VStr "x") sample_now);
                      (0, MethodCall PhInstant (VStr "y") sample_now);
                      (1, MethodCall PhEnd (VStr "x") sample_now)] h') 0 =
       [] ++ event_chunks FnPushString false
               (constructed [MethodCall PhBegin (VStr "x") sample_now;
                             MethodCall PhInstant (VStr "y") sample_now;
                             MethodCall PhEnd (VStr "x") sample_now]).
Proof.
  eexists. split; [reflexivity|].
  eapply proj1.
  apply (family_shares_stream _ 0 text_root
           [(2, MethodCall PhBegin (VStr "x") sample_now);
            (0, MethodCall PhInstant (VStr "y") sample_now);
            (1, MethodCall PhEnd (VStr "x") sample_now)]); [reflexivity|].
  repeat (apply List.Forall_cons; [eexists _, _; repeat split; reflexivity|]).
  apply List.Forall_nil.
Defined.

(** What that stream holds: one opening bracket, then the three events
    in the order of the calls. *)
Example family_stream_text :
  exists h',
    descend 0 [sample_child_fields; VObj [("z", VNum 3)]] text_root_heap = Ok (2, h')
    /\ text_of (buffer_of
         (run_family [(2, MethodCall PhBegin (VStr "x") sample_now);
                      (0, MethodCall PhInstant (VStr "y") sample_now);
                      (1, MethodCall PhEnd (VStr "x") sample_now)] h') 0) =
       "[" +:+ Json.stringify
                 [("ts", VNum 1000002); ("pid", VNum 7); ("tid", VNum 7);
                  ("ph", VStr "B"); ("name", VStr "x")]
       +:+ ",
" +:+ Json.stringify
                 [("ts", VNum 1000002); ("pid", VNum 7); ("tid", VNum 7);
                  ("ph", VStr "I"); ("name", VStr "y")]
       +:+ ",
" +:+ Json.stringify
                 [("ts", VNum 1000002); ("pid", VNum 7); ("tid", VNum 7);
                  ("ph", VStr "E"); ("name", VStr "x")].
Proof. eexists. split; reflexivity. Qed.

End shared_stream_sample.

(** ** The FieldSet of a new Tracer *)

Section fieldset.
Import TraceEvent.

(** The last steps of the constructor on the merged fields [o1]: what
    [cat] and [args] end up as, and that no other key is touched. *)
Lemma overlay_rule (base : props) (f : value) :
  get (overlay base f) "cat" =
    match get (if truthy f then assign base f else base) "cat" with
    | VArr l => VStr (array_join l ",")
    | c => if truthy c then c else VStr "default"
    end
  /\ get (overlay base f) "args" =
       (if truthy (get (if truthy f then assign base f else base) "args")
        then get (if truthy f then assign base f else base) "args"
        else VObj [])
  /\ (forall k, k <> "cat" -> k <> "args" ->
        lookup_prop k (overlay base f) =
        lookup_prop k (if truthy f then assign base f else base)).
Proof.
  split; [|split; [|intros k Hc Ha; now apply (overlay_other base f k)]].
  - unfold overlay. set (o1 := if truthy f then assign base f else base).
    set (o2 := if negb (truthy (get o1 "cat")) then JS.set o1 "cat" (VStr "default")
               else match get o1 "cat" with
                    | VArr l => JS.set o1 "cat" (VStr (array_join l ","))
                    | _ => o1
                    end).
    assert (H2 : get o2 "cat" =
                 match get o1 "cat" with
                 | VArr l => VStr (array_join l ",")
                 | c => if truthy c then c else VStr "default"
                 end).
    { unfold o2. destruct (get o1 "cat") as [| |b|n|s|l|o] eqn:E; cbn [truthy negb];
        try (now rewrite get_set_eq); try exact E.
      - destruct b; cbn [negb]; [exact E | now rewrite get_set_eq].
      - destruct (Z.eqb n 0); cbn [negb]; [now rewrite get_set_eq | exact E].
      - destruct (String.eqb s ""); cbn [negb]; [now rewrite get_set_eq | exact E]. }
    destruct (negb (truthy (get o2 "args"))); [|exact H2].
    now rewrite get_set_ne by discriminate.
  - unfold overlay. set (o1 := if truthy f then assign base f else base).
    set (o2 := if negb (truthy (get o1 "cat")) then JS.set o1 "cat" (VStr "default")
               else match get o1 "cat" with
                    | VArr l => JS.set o1 "cat" (VStr (array_join l ","))
                    | _ => o1
                    end).
    assert (H2 : get o2 "args" = get o1 "args").
    { unfold o2. destruct (negb (truthy (get o1 "cat")));
        [now rewrite get_set_ne by discriminate|].
      destruct (get o1 "cat"); try reflexivity. now rewrite get_set_ne by discriminate. }
    rewrite <- H2. destruct (truthy (get o2 "args")); cbn [negb]; [reflexivity|].
    apply get_set_eq.
Qed.



(** What the [cat] fallback and join make of a merged [cat]. *)
Lemma cat_rule (base : props) (f c : value) :
  get (if truthy f then assign base f else base) "cat" = c ->
  (forall ls, c = VArr (map VStr ls) ->
     get (overlay base f) "cat" = VStr (concat_sep "," ls))
  /\ (truthy c = false -> get (overlay base f) "cat" = VStr "default")
  /\ (truthy c = true -> isArray c = false -> get (overlay base f) "cat" = c).
Proof.
  intros E. destruct (overlay_rule base f) as (Rc & _ & _). rewrite Rc, E.
  refine (conj _ (conj _ _)).
  - intros ls ->. now rewrite array_join_strings.
  - intros Ht. destruct c; try discriminate Ht; cbv zeta; rewrite ?Ht; reflexivity.
  - intros Ht Ha. destruct c; try discriminate Ha; cbv zeta; rewrite ?Ht; reflexivity.
Qed.

(** X11: the FieldSet of a root, read off [opts.fields].  Without
    fields it is [{cat: "default", args: {}}].  With a mapping (each key
    once, none of them [__proto__]), [cat] is the joined list when a list
    of strings was given (the empty string for the empty list), "default"
    when the given [cat] is missing or falsy, and the given value when it
    is truthy and no list; [args] is the given value when truthy and else
    [{}]; every other key holds what the mapping gives it. *)
Theorem root_fieldset
    (o : TracerOptions) (v : value) (h0 : heap) (r : addr) (h1 : heap) :
  opt_parent o = PValue v ->
  new_Tracer (ArgOptions o) h0 = Ok (r, h1) ->
  (truthy (opt_fields o) = false ->
     fields_of h1 r = [("cat", VStr "default"); ("args", VObj [])])
  /\ (forall fo, opt_fields o = VObj fo ->
        NoDup (map fst fo) -> ~ In "__proto__" (map fst fo) ->
        (forall ls, get fo "cat" = VArr (map VStr ls) ->
           get (fields_of h1 r) "cat" = VStr (concat_sep "," ls))
        /\ (truthy (get fo "cat") = false ->
            get (fields_of h1 r) "cat" = VStr "default")
        /\ (truthy (get fo "cat") = true -> isArray (get fo "cat") = false ->
            get (fields_of h1 r) "cat" = get fo "cat")
        /\ get (fields_of h1 r) "args" =
             (if truthy (get fo "args") then get fo "args" else VObj [])
        /\ (forall k, k <> "cat" -> k <> "args" ->
              lookup_prop k (fields_of h1 r) = lookup_prop k fo)).
Proof.
  intros Hpar H.
  destruct (new_Tracer_alloc _ _ _ _ H)
    as (o' & t & fset & Hv & Ha & Ht & Ho & Hf & _ & _ & _ & _ & Hp).
  apply validate_options in Hv. subst o'. rewrite Hpar in Hp.
  destruct Hp as (_ & _ & _ & _ & ->).
  rewrite (fields_of_new h0 h1 r t _ Ha Ht Ho Hf).
  split.
  - intros Hfalsy. unfold overlay. rewrite Hfalsy. reflexivity.
  - intros fo Hfo Hnd _. rewrite Hfo in *.
    pose proof (overlay_rule [] (VObj fo)) as R.
    change (truthy (VObj fo)) with true in R. cbv iota in R.
    destruct R as (Rc & Ra & Rk).
    assert (Hget : forall k, get (assign [] (VObj fo)) k = get fo k).
    { intros k. unfold get. rewrite (lookup_assign [] fo k Hnd).
      now destruct (lookup_prop k fo). }
    destruct (cat_rule [] (VObj fo) (get fo "cat") (Hget "cat")) as (C1 & C2 & C3).
    rewrite Ra, !Hget.
    refine (conj C1 (conj C2 (conj C3 (conj eq_refl _)))).
    intros k Hc Hg. rewrite (Rk k Hc Hg), (lookup_assign [] fo k Hnd).
    now destruct (lookup_prop k fo).
Qed.

(** A root made with [{cat: ["a"], x: 1}]. *)
Lemma root_fieldset_witness :
  exists h1,
    new_Tracer (ArgOptions (mkOptions (PValue VUndef) sample_parent_fields VUndef VUndef))
               empty_heap = Ok (0, h1)
    /\ get (fields_of h1 0) "cat" = VStr "a"
    /\ get (fields_of h1 0) "args" = VObj []
    /\ lookup_prop "x" (fields_of h1 0) = Some (VNum 1).
Proof.
  eexists. split; [reflexivity|].
  destruct (proj2 (root_fieldset
                     (mkOptions (PValue VUndef) sample_parent_fields VUndef VUndef)
                     VUndef empty_heap 0 _ eq_refl eq_refl)
                  [("cat", VArr [VStr "a"]); ("x", VNum 1)] eq_refl)
    as (Hc & _ & _ & Ha & Hk).
  { repeat constructor; cbn; intros Hin; inversion Hin as [|? ? ? Hin']; inversion Hin'. }
  { cbn. intros [E|[E|[]]]; discriminate E. }
  split; [exact (Hc ["a"] eq_refl)|]. split; [exact Ha|]. apply Hk; discriminate.
Defined.

End fieldset.

(** ** Fields handed down from parent to child *)

Section handed_down.
Import TraceEvent.

Lemma keys_set (o : props) (k : string) (v : value) :
  map fst (JS.set o k v) = if has o k then map fst o else map fst o ++ [k].
Proof.
  unfold has. induction o as [|[k0 v0] r IH]; cbn [JS.set lookup_prop map fst app].
  - reflexivity.
  - destruct (String.eqb k k0); cbn [map fst]; [reflexivity|].
    rewrite IH. now destruct (lookup_prop k r).
Qed.

Lemma NoDup_set (o : props) (k : string) (v : value) :
  NoDup (map fst o) -> NoDup (map fst (JS.set o k v)).
Proof.
  intros Hnd. rewrite keys_set. destruct (has o k) eqn:Hh; [exact Hnd|].
  apply NoDup_app. refine (conj Hnd (conj _ (NoDup_singleton k))).
  intros x Hx Hk. apply list_elem_of_singleton in Hk. subst x.
  apply list_elem_of_In, has_keys in Hx. congruence.
Qed.

Lemma NoDup_assign (target : props) (source : value) :
  NoDup (map fst target) -> NoDup (map fst (assign target source)).
Proof.
  unfold assign. generalize (own_props source). intros l. revert target.
  induction l as [|[k v] l IH]; intros target Hnd; [exact Hnd|].
  cbn [fold_left fst snd]. apply IH. now apply NoDup_set.
Qed.

Lemma NoDup_overlay (base : props) (f : value) :
  NoDup (map fst base) -> NoDup (map fst (overlay base f)).
Proof.
  intros Hnd. unfold overlay.
  set (o1 := if truthy f then assign base f else base).
  assert (H1 : NoDup (map fst o1)).
  { unfold o1. destruct (truthy f); [now apply NoDup_assign | exact Hnd]. }
  set (o2 := if negb (truthy (get o1 "cat")) then JS.set o1 "cat" (VStr "default")
             else match get o1 "cat" with
                  | VArr l => JS.set o1 "cat" (VStr (array_join l ","))
                  | _ => o1
                  end).
  assert (H2 : NoDup (map fst o2)).
  { unfold o2. destruct (negb (truthy (get o1 "cat"))); [now apply NoDup_set|].
    destruct (get o1 "cat"); try exact H1. now apply NoDup_set. }
  destruct (negb (truthy (get o2 "args"))); [now apply NoDup_set | exact H2].
Qed.

(** The copy [Object.assign({}, parent.fields)] holds what the parent's
    FieldSet holds. *)
Lemma lookup_copy (o : props) (k : string) :
  NoDup (map fst o) -> lookup_prop k (assign [] (VObj o)) = lookup_prop k o.
Proof.
  intros Hnd. rewrite (lookup_assign [] o k Hnd). now destruct (lookup_prop k o).
Qed.

Lemma child_fieldset (h : heap) (p : addr) (f : value) (c : addr) (h1 : heap) :
  child p f h = Ok (c, h1) ->
  fields_of h1 c = overlay (assign [] (VObj (fields_of h p))) f.
Proof.
  intros H.
  destruct (child_alloc _ _ _ _ _ H) as (pt & t & _ & Hc & Ht & Ho & Hf & _).
  unfold fields_of at 1. now rewrite Hc, Ht, lookup_last, Hf, Ho, lookup_last.
Qed.

(** X12: the FieldSet of a child is the parent's with the child's
    fields over it (each key once, none of them [__proto__]).  A key the
    child gives holds the child's value, any other key what the parent's
    FieldSet holds; the [cat] and the [args] so merged then go through the
    constructor's last steps: a [cat] that is a list of strings is joined,
    a falsy one becomes "default", a falsy [args] (a child given
    [args: null]) becomes [{}]; and every key is there once. *)
Theorem child_fieldset_merge
    (h : heap) (p : addr) (fo : props) (c : addr) (h1 : heap) :
  child p (VObj fo) h = Ok (c, h1) ->
  NoDup (map fst fo) -> NoDup (map fst (fields_of h p)) ->
  ~ In "__proto__" (map fst fo) -> ~ In "__proto__" (map fst (fields_of h p)) ->
  (forall k, k <> "cat" -> k <> "args" ->
     lookup_prop k (fields_of h1 c) =
       match lookup_prop k fo with
       | Some v => Some v
       | None => lookup_prop k (fields_of h p)
       end)
  /\ (forall ls,
        (if has fo "cat" then get fo "cat" else get (fields_of h p) "cat") =
          VArr (map VStr ls) ->
        get (fields_of h1 c) "cat" = VStr (concat_sep "," ls))
  /\ (truthy (if has fo "cat" then get fo "cat" else get (fields_of h p) "cat") = false ->
      get (fields_of h1 c) "cat" = VStr "default")
  /\ (truthy (if has fo "cat" then get fo "cat" else get (fields_of h p) "cat") = true ->
      isArray (if has fo "cat" then get fo "cat" else get (fields_of h p) "cat") = false ->
      get (fields_of h1 c) "cat" =
        (if has fo "cat" then get fo "cat" else get (fields_of h p) "cat"))
  /\ get (fields_of h1 c) "args" =
       (if truthy (if has fo "args" then get fo "args" else get (fields_of h p) "args")
        then (if has fo "args" then get fo "args" else get (fields_of h p) "args")
        else VObj [])
  /\ NoDup (map fst (fields_of h1 c)).
Proof.
  intros H Hfo Hpf _ _. rewrite (child_fieldset h p (VObj fo) c h1 H).
  pose proof (overlay_rule (assign [] (VObj (fields_of h p))) (VObj fo)) as R.
  change (truthy (VObj fo)) with true in R. cbv iota in R.
  destruct R as (Rc & Ra & Rk).
  assert (Hl : forall k, lookup_prop k (assign (assign [] (VObj (fields_of h p))) (VObj fo)) =
                         match lookup_prop k fo with
                         | Some v => Some v
                         | None => lookup_prop k (fields_of h p)
                         end).
  { intros k. rewrite (lookup_assign _ fo k Hfo), (lookup_copy _ k Hpf). reflexivity. }
  assert (Hg : forall k, get (assign (assign [] (VObj (fields_of h p))) (VObj fo)) k =
                         (if has fo k then get fo k else get (fields_of h p) k)).
  { intros k. unfold get at 1, has, get. rewrite Hl. now destruct (lookup_prop k fo). }
  destruct (cat_rule (assign [] (VObj (fields_of h p))) (VObj fo) _ (Hg "cat"))
    as (C1 & C2 & C3).
  rewrite Ra, !Hg.
  refine (conj _ (conj C1 (conj C2 (conj C3 (conj eq_refl _))))).
  - intros k Hc Ha. now rewrite (Rk k Hc Ha).
  - apply NoDup_overlay, NoDup_assign. constructor.
Qed.

(** The child of the test of the inheritance rule. *)
Lemma child_fieldset_merge_witness :
  exists h2,
    new_Tracer (ArgOptions (mkOptions (PValue VUndef) sample_parent_fields VUndef VUndef))
               empty_heap = Ok (0, sample_parent_heap)
    /\ child 0 sample_child_fields sample_parent_heap = Ok (1, h2)
    /\ lookup_prop "x" (fields_of h2 1) = Some (VNum 1)
    /\ lookup_prop "y" (fields_of h2 1) = Some (VNum 2)
    /\ get (fields_of h2 1) "cat" = VStr "b"
    /\ get (fields_of h2 1) "args" = VObj [].
Proof.
  eexists. split; [reflexivity|]. split; [reflexivity|].
  destruct (child_fieldset_merge sample_parent_heap 0
              [("cat", VArr [VStr "b"]); ("y", VNum 2)] 1 _ eq_refl)
    as (Hk & Hc & _ & _ & Ha & _).
  - repeat constructor; cbn; intros Hin; inversion Hin as [|? ? ? Hin']; inversion Hin'.
  - cbn. repeat constructor; cbn; intros Hin;
      repeat (inversion Hin as [|? ? ? Hin']; subst; clear Hin; rename Hin' into Hin).
  - cbn. intros [E|[E|[]]]; discriminate E.
  - cbn. intros [E|[E|[E|[]]]]; discriminate E.
  - split; [apply (Hk "x"); discriminate|]. split; [apply (Hk "y"); discriminate|].
    split; [exact (Hc ["b"] eq_refl) | exact Ha].
Defined.

(** X13: a field is handed down a whole chain of [child] calls.  When
    no call of the chain gives the key [k] (and [k] is not [cat] or
    [args]), the last Tracer's FieldSet holds for [k] what the first
    one's holds, or lacks it as the first one does. *)
Theorem descendant_inherits (k : string) (fs : list value) :
  forall (h : heap) (r : addr) (c : addr) (h' : heap),
    NoDup (map fst (fields_of h r)) ->
    k <> "cat" -> k <> "args" ->
    Forall (silent_on k) fs ->
    descend r fs h = Ok (c, h') ->
    lookup_prop k (fields_of h' c) = lookup_prop k (fields_of h r).
Proof.
  induction fs as [|f fs IH]; intros h r c h' Hnd Hc Ha Hall H.
  - cbn in H. now injection H as <- <-.
  - apply List.Forall_cons_iff in Hall as [Hf Hfs]. cbn [descend] in H.
    destruct (child r f h) as [[c1 h1]|e] eqn:Hch; [|discriminate].
    pose proof (child_fieldset h r f c1 h1 Hch) as Hset.
    rewrite (IH h1 c1 c h'); try assumption.
    + rewrite Hset.
      destruct (overlay_rule (assign [] (VObj (fields_of h r))) f) as (_ & _ & Rk).
      rewrite (Rk k Hc Ha).
      destruct f as [| |b|n|s|l|fo]; try contradiction; cbn [truthy].
      * now apply lookup_copy.
      * now apply lookup_copy.
      * destruct Hf as (Hfo & Hk).
        rewrite (lookup_assign _ fo k Hfo), Hk. now apply lookup_copy.
    + rewrite Hset. apply NoDup_overlay, NoDup_assign. constructor.
Qed.

(** The field [x] of a root, in its grandchild. *)
Lemma descendant_inherits_witness :
  exists h',
    descend 0 [sample_child_fields; VUndef] sample_parent_heap = Ok (2, h')
    /\ lookup_prop "x" (fields_of h' 2) = lookup_prop "x" (fields_of sample_parent_heap 0).
Proof.
  eexists. split; [reflexivity|].
  apply (descendant_inherits "x" [sample_child_fields; VUndef] sample_parent_heap 0 2 _).
  - cbn. repeat constructor; cbn; intros Hin;
      repeat (inversion Hin as [|? ? ? Hin']; subst; clear Hin; rename Hin' into Hin).
  - discriminate.
  - discriminate.
  - apply List.Forall_cons; [|apply List.Forall_cons; [exact I | apply List.Forall_nil]].
    split; [|reflexivity].
    repeat constructor; cbn; intros Hin; inversion Hin as [|? ? ? Hin']; inversion Hin'.
  - reflexivity.
Defined.

End handed_down.

(** ** The stream of lib/trace-event.js *)

Section legacy_stream.

Lemma legacy_update_lookup (a : Legacy.addr) (f : Legacy.Tracer -> Legacy.Tracer)
    (h : Legacy.heap) (t : Legacy.Tracer) :
  Legacy.tracers h !! a = Some t ->
  Legacy.tracers (Legacy.update_tracer a f h) !! a = Some (f t).
Proof.
  intros Ha. unfold Legacy.update_tracer. rewrite Ha. cbn [Legacy.tracers].
  apply list_lookup_insert_eq. now apply lookup_lt_Some in Ha.
Qed.

Lemma legacy_update_twice (a : Legacy.addr) (f g : Legacy.Tracer -> Legacy.Tracer)
    (h : Legacy.heap) :
  Legacy.update_tracer a f (Legacy.update_tracer a g h) =
    Legacy.update_tracer a (fun t => f (g t)) h.
Proof.
  destruct (Legacy.tracers h !! a) as [t|] eqn:Ha.
  - unfold Legacy.update_tracer at 1. rewrite (legacy_update_lookup a g h t Ha).
    unfold Legacy.update_tracer. rewrite Ha. cbn [Legacy.tracers Legacy.objects].
    now rewrite list_insert_insert_eq.
  - unfold Legacy.update_tracer. rewrite Ha. now rewrite Ha.
Qed.

Lemma legacy_update_ext (a : Legacy.addr) (f g : Legacy.Tracer -> Legacy.Tracer)
    (h : Legacy.heap) :
  (forall t, Legacy.tracers h !! a = Some t -> f t = g t) ->
  Legacy.update_tracer a f h = Legacy.update_tracer a g h.
Proof.
  intros Hfg. unfold Legacy.update_tracer.
  destruct (Legacy.tracers h !! a) as [t|] eqn:Ha; [|reflexivity].
  now rewrite (Hfg t eq_refl).
Qed.

Lemma legacy_update_id (a : Legacy.addr) (h : Legacy.heap) :
  Legacy.update_tracer a (fun t => t) h = h.
Proof.
  unfold Legacy.update_tracer. destruct (Legacy.tracers h !! a) eqn:Ha; [|reflexivity].
  destruct h as [ts os]. cbn in *. now rewrite list_insert_id.
Qed.

Lemma legacy_pushString_update (a : Legacy.addr) (ev : props) (h : Legacy.heap) :
  Legacy._pushString a ev h = Legacy.update_tracer a (Legacy.string_pushed ev) h.
Proof.
  unfold Legacy._pushString, Legacy.first_pushed.
  destruct (Legacy.tracers h !! a) as [t|] eqn:Ha.
  - destruct (Legacy.firstPush t) eqn:Hf; cbn [negb].
    + unfold Legacy.push. apply legacy_update_ext. intros t' Ht'.
      assert (t' = t) as -> by congruence.
      unfold Legacy.string_pushed. rewrite Hf. cbn [app].
      destruct t; cbn in Hf; subst. reflexivity.
    + unfold Legacy.push, Legacy.set_firstPush. rewrite !legacy_update_twice.
      apply legacy_update_ext. intros t' Ht'.
      assert (t' = t) as -> by congruence.
      unfold Legacy.string_pushed. rewrite Hf. cbn. now rewrite <- app_assoc.
  - cbn [negb]. unfold Legacy.push, Legacy.set_firstPush, Legacy.update_tracer.
    rewrite Ha. cbn. rewrite Ha. cbn. now rewrite Ha.
Qed.

Lemma legacy_string_pushed_all (evs : list props) (t : Legacy.Tracer) :
  fold_left (fun t' ev => Legacy.string_pushed ev t') evs t =
    Legacy.mkTracer (Legacy.parent t) (Legacy.fields t) (Legacy._objectMode t)
      (Legacy.firstPush t || match evs with [] => false | _ => true end)
      (Legacy._push t) (Legacy.buffer t ++ Legacy.frame_chunks (Legacy.firstPush t) evs).
Proof.
  revert t. induction evs as [|e r IH]; intros t.
  - destruct t. cbn. now rewrite orb_false_r, app_nil_r.
  - cbn [fold_left]. rewrite IH. destruct t as [p f om [] pf b];
      unfold Legacy.string_pushed; cbn; rewrite <- ?app_assoc; reflexivity.
Qed.

Lemma legacy_phase_method_code (p : Legacy.phase) :
  Legacy.phase_method p = Legacy.mkEventFunc (Legacy.phase_code p).
Proof. destruct p; reflexivity. Qed.

(** A run of calls on a text-mode root: every event the calls build
    goes through [_pushString]; the FieldSet the events are built from
    stays the same. *)
Lemma legacy_run_text (calls : list Legacy.method_call) :
  forall (r : Legacy.addr) (h : Legacy.heap) (t : Legacy.Tracer),
    Legacy.tracers h !! r = Some t -> Legacy._push t = FnPushString ->
    Legacy.run r calls h =
      Legacy.update_tracer r
        (fun t' => fold_left (fun t'' ev => Legacy.string_pushed ev t'')
                             (Legacy.constructed (Legacy.fields_of h r) calls) t') h.
Proof.
  unfold Legacy.run.
  induction calls as [|c cs IH]; intros r h t Ht Hp.
  - cbn. now rewrite legacy_update_id.
  - cbn [fold_left Legacy.constructed]. unfold Legacy.step at 2.
    rewrite legacy_phase_method_code. unfold Legacy.mkEventFunc.
    destruct (Legacy.make_event _ _ _ _) as [ev|e]; cbn [mbind result_bind];
      [|now apply (IH r h t)].
    unfold Legacy.call_push. rewrite Ht, Hp. cbn [Legacy.call].
    rewrite legacy_pushString_update.
    assert (Ht' : Legacy.tracers (Legacy.update_tracer r (Legacy.string_pushed ev) h) !! r =
                  Some (Legacy.string_pushed ev t)) by now apply legacy_update_lookup.
    assert (Hfs : Legacy.fields_of (Legacy.update_tracer r (Legacy.string_pushed ev) h) r =
                  Legacy.fields_of h r).
    { unfold Legacy.fields_of. rewrite Ht', Ht.
      unfold Legacy.update_tracer. rewrite Ht. reflexivity. }
    rewrite (IH r _ (Legacy.string_pushed ev t) Ht' Hp), Hfs.
    now rewrite legacy_update_twice.
Qed.

Lemma legacy_text_of_frame_started (evs : list props) :
  ",
" +:+ text_of (Legacy.frame_chunks true evs) =
  Json.sep_tail ",
" (map Json.stringify evs) +:+ ",
".
Proof.
  induction evs as [|e r IH]; [reflexivity|].
  cbn [Legacy.frame_chunks map Json.sep_tail app text_of].
  rewrite !append_assoc. rewrite IH. now rewrite ?append_assoc.
Qed.

Lemma legacy_validate_options (o o' : Legacy.TracerOptions) :
  Legacy.validate (Legacy.ArgOptions o) = Ok o' -> o' = o.
Proof.
  unfold Legacy.validate. cbn [mbind result_bind]. intros Hv.
  destruct (match Legacy.opt_parent o with
            | Legacy.PTracer _ => Ok tt
            | Legacy.PValue v => Legacy.assert_optionalObject v "opts.parent"
            end); cbn [mbind result_bind] in Hv; [|discriminate].
  destruct (Legacy.assert_optionalObject (Legacy.opt_fields o) "opts.fields");
    cbn [mbind result_bind] in Hv; [|discriminate].
  destruct (Legacy.assert_optionalBool (Legacy.opt_objectMode o) "opts.objectMode");
    cbn [mbind result_bind] in Hv; congruence.
Qed.

(** X14: in lib/trace-event.js a text-mode root writes ",\n" after
    every event and has nothing that closes the array.  Whatever the
    calls, the text on its stream is an opening bracket and the events,
    each with ",\n" behind it (nothing at all when no event was built):
    never a JSON text. *)
Theorem legacy_stream_text
    (o : Legacy.TracerOptions) (v : value) (h0 : Legacy.heap) (r : Legacy.addr)
    (h1 : Legacy.heap) (calls : list Legacy.method_call) :
  Legacy.opt_parent o = Legacy.PValue v ->
  truthy (Legacy.opt_objectMode o) = false ->
  Legacy.new_Tracer (Legacy.ArgOptions o) h0 = Ok (r, h1) ->
  text_of (Legacy.buffer_of (Legacy.run r calls h1) r) =
    match Legacy.constructed (Legacy.fields_of h1 r) calls with
    | [] => ""
    | e :: evs => "[" +:+ Json.stringify e +:+ Json.sep_tail ",
" (map Json.stringify evs) +:+ ",
"
    end
  /\ Json.parse (text_of (Legacy.buffer_of (Legacy.run r calls h1) r)) = None.
Proof.
  intros Hpar Hom H. unfold Legacy.new_Tracer in H.
  destruct (Legacy.validate (Legacy.ArgOptions o)) as [o'|e] eqn:Hv; [|discriminate].
  apply legacy_validate_options in Hv. subst o'. cbn [mbind result_bind] in H.
  rewrite Hpar, Hom in H. destruct (truthy v); [discriminate|].
  injection H as <- <-.
  set (t := Legacy.mkTracer None (length (Legacy.objects h0)) (Some false) false
                            FnPushString []).
  set (h1 := Legacy.Heap _ _).
  assert (Ht : Legacy.tracers h1 !! length (Legacy.tracers h0) = Some t)
    by apply lookup_last.
  rewrite (legacy_run_text calls _ h1 t Ht eq_refl).
  set (evs := Legacy.constructed _ calls).
  assert (Htext : text_of (Legacy.buffer_of
                    (Legacy.update_tracer (length (Legacy.tracers h0))
                       (fun t' => fold_left (fun t'' ev => Legacy.string_pushed ev t'')
                                            evs t') h1)
                    (length (Legacy.tracers h0))) =
                  match evs with
                  | [] => ""
                  | e :: l => "[" +:+ Json.stringify e +:+ Json.sep_tail ",
" (map Json.stringify l) +:+ ",
"
                  end).
  { unfold Legacy.buffer_of. rewrite (legacy_update_lookup _ _ h1 t Ht).
    rewrite legacy_string_pushed_all. cbn [Legacy.buffer t app Legacy.firstPush].
    destruct evs as [|e l]; [reflexivity|].
    cbn [Legacy.frame_chunks app text_of]. rewrite append_assoc.
    now rewrite legacy_text_of_frame_started. }
  split; [exact Htext|]. rewrite Htext.
  destruct evs as [|e l]; [reflexivity|].
  apply (parse_stuck_lines ",
" e l eq_refl read_elements_comma).
Qed.

(** Two calls on a root made without options. *)
Lemma legacy_stream_text_witness :
  exists h1,
    Legacy.new_Tracer (Legacy.ArgOptions Legacy.no_options) Legacy.empty_heap = Ok (0, h1)
    /\ Json.parse
         (text_of (Legacy.buffer_of
            (Legacy.run 0 [Legacy.MethodCall Legacy.PhBegin (VStr "x") TraceEvent.sample_now;
                           Legacy.MethodCall Legacy.PhEnd (VStr "x") TraceEvent.sample_now] h1) 0))
       = None.
Proof.
  eexists. split; [reflexivity|].
  apply (legacy_stream_text Legacy.no_options VUndef Legacy.empty_heap 0 _
           [Legacy.MethodCall Legacy.PhBegin (VStr "x") TraceEvent.sample_now;
            Legacy.MethodCall Legacy.PhEnd (VStr "x") TraceEvent.sample_now]); reflexivity.
Defined.

(** In lib/trace-event.js: the events of the child of the test of the
    inheritance rule have the parent's [x] and the child's [y]. *)
Lemma legacy_child_event_inherits_witness :
  exists h1 ev,
    Legacy.child 0 TraceEvent.sample_child_fields Legacy.parent_heap = Ok (1, h1)
    /\ Legacy.make_event "b" (Legacy.fields_of h1 1) (VStr "e") TraceEvent.sample_now = Ok ev
    /\ get ev "x" = VNum 1 /\ get ev "y" = VNum 2.
Proof.
  eexists _, _. split; [reflexivity|]. split; [reflexivity|].
  assert (Hfo : NoDup (map fst [("cat", VArr [VStr "b"]); ("y", VNum 2)])).
  { repeat constructor; cbn; intros Hin; inversion Hin as [|? ? ? Hin']; inversion Hin'. }
  assert (Hpf : NoDup (map fst (Legacy.fields_of Legacy.parent_heap 0))).
  { cbn. repeat constructor; cbn; intros Hin;
      repeat (inversion Hin as [|? ? ? Hin']; subst; clear Hin; rename Hin' into Hin). }
  assert (Hfp : ~ In "__proto__" (map fst [("cat", VArr [VStr "b"]); ("y", VNum 2)])).
  { cbn. intros [E|[E|[]]]; discriminate E. }
  assert (Hpp : ~ In "__proto__" (map fst (Legacy.fields_of Legacy.parent_heap 0))).
  { cbn. intros [E|[E|[E|[]]]]; discriminate E. }
  split.
  - apply (legacy_child_event_inherits Legacy.parent_heap 0
             [("cat", VArr [VStr "b"]); ("y", VNum 2)] 1 _ "b" (VStr "e") TraceEvent.sample_now _ "x"
             eq_refl Hfo Hpf Hfp Hpp eq_refl);
      [right; now left | discriminate | discriminate | discriminate | discriminate
      | reflexivity].
  - apply (legacy_child_event_inherits Legacy.parent_heap 0
             [("cat", VArr [VStr "b"]); ("y", VNum 2)] 1 _ "b" (VStr "e") TraceEvent.sample_now _ "y"
             eq_refl Hfo Hpf Hfp Hpp eq_refl);
      [right; now left | discriminate | discriminate | discriminate | discriminate].
Defined.

(** In lib/trace-event.js: a grandchild of the sample root delivers as
    the root does. *)
Lemma legacy_descendants_deliver_to_root_witness :
  exists h',
    Legacy.descend 0 [TraceEvent.sample_child_fields; VUndef] Legacy.parent_heap = Ok (2, h')
    /\ forall ev, Legacy.call_push 2 ev h' = Legacy.call_push 0 ev h'.
Proof.
  eexists. split; [reflexivity|]. intros ev.
  apply (legacy_descendants_deliver_to_root Legacy.parent_heap 0
           (Legacy.mkTracer None 0 (Some false) false FnPushString [])
           [TraceEvent.sample_child_fields; VUndef] 2 _ ev
           eq_refl (or_intror eq_refl) eq_refl).
Defined.

End legacy_stream.
